(** * rbperf: the in-kernel Ruby stack walker ([src/bpf/rbperf.bpf.c])

    A shallow embedding of the two BPF programs [on_event] and
    [walk_ruby_stack] and of their helpers [find_or_insert_frame],
    [read_ruby_string], [read_ruby_lineno] and [read_frame].

    Machine integers are [Z] with the wrap-around written out, byte buffers
    are lists of byte values, the BPF hash maps are [gmap]s with the
    capacity of the map declarations, and the BPF programs are functions
    over an explicit [World] (the shared tables, the per-CPU scratch slot,
    the output channel and the memory of the sampled process). *)

From Stdlib Require Import ZArith List Lia Strings.String Strings.Byte.
From stdpp Require Import base option list gmap fin_maps.

Local Open Scope Z_scope.

(** ** Machine arithmetic *)

Definition wrap64 (z : Z) : Z := z mod 2 ^ 64.
Definition wrap32 (z : Z) : Z := z mod 2 ^ 32.

(** The value of an [int]: 32 bits, two's complement. *)
Definition int32 (z : Z) : Z := (z + 2 ^ 31) mod 2 ^ 32 - 2 ^ 31.

(** ** What [rbperf.h] declares

    The header is not part of the sources at hand: its constants, the
    [STRING_ON_HEAP] macro and the widths of the character buffers are the
    fields of this class, and every definition below takes them as a
    parameter.  So does the type of the field [lineno] of [RubyFrame]:
    [lineno_of_int] is the conversion of an [int] to it. *)

Class Header := {
  MAX_STACK : Z;
  MAX_STACKS_PER_PROGRAM : Z;
  BPF_PROGRAMS_COUNT : Z;
  METHOD_MAXLEN : nat;
  PATH_MAXLEN : nat;
  iseq_offset : Z;
  body_offset : Z;
  ruby_location_offset : Z;
  path_offset : Z;
  as_offset : Z;
  iseq_encoded_offset : Z;
  rb_value_sizeof : Z;
  PATH_TYPE_OFFSET : Z;
  RUBY_T_MASK : Z;
  RUBY_T_STRING : Z;
  RUBY_T_ARRAY : Z;
  STRING_ON_HEAP : Z -> bool;
  NATIVE_METHOD_NAME : list Z;
  RBPERF_EVENT_SYSCALL : Z;
  lineno_of_int : Z -> Z;
}.

(** [enum ruby_stack_status] *)
Inductive ruby_stack_status := STACK_COMPLETE | STACK_INCOMPLETE.

(** ** Records of the header, as the code uses them *)

(** [control_frame_t_sizeof] is an [int], as the local of [on_event] that
    receives it. *)
Record RubyVersionOffsets := {
  vm_offset : Z;
  vm_size_offset : Z;
  control_frame_t_sizeof : Z;
  cfp_offset : Z;
  label_offset : Z;
  path_flavour : Z;
  line_info_size_offset : Z;
  line_info_table_offset : Z;
  lineno_offset : Z;
  main_thread_offset : Z;
  ec_offset : Z;
}.

Record ProcessData := {
  rb_frame_addr : Z;
  rb_version : Z;
  start_time : Z;
}.

(** A frame is compared and hashed by content: the two character buffers
    are the lists of their byte values. *)
Record RubyFrame := {
  lineno : Z;
  method_name : list Z;
  path : list Z;
}.

(** [size] and [expected_size] hold the values the code assigns: their
    widths are the header's. *)
Record RubyStack := {
  timestamp : Z;
  pid : Z;
  cpu : Z;
  syscall_id : Z;
  size : Z;
  expected_size : Z;
  comm : list Z;
  stack_status : ruby_stack_status;
  frames : list Z;
}.

(** [st_rb_version] is the field [rb_version] of the C struct. *)
Record SampleState := {
  stack : RubyStack;
  base_stack : Z;
  cfp : Z;
  ruby_stack_program_count : Z;
  st_rb_version : Z;
}.

Global Instance ruby_stack_status_eq_dec : EqDecision ruby_stack_status.
Proof. solve_decision. Defined.

Global Instance RubyFrame_eq_dec : EqDecision RubyFrame.
Proof. solve_decision. Defined.

Definition frame_to_tuple (f : RubyFrame) : Z * list Z * list Z :=
  (lineno f, method_name f, path f).

Definition frame_of_tuple (t : Z * list Z * list Z) : RubyFrame :=
  {| lineno := t.1.1; method_name := t.1.2; path := t.2 |}.

Global Instance RubyFrame_countable : Countable RubyFrame.
Proof.
  apply (inj_countable' frame_to_tuple frame_of_tuple).
  intros []; reflexivity.
Defined.

(** ** Memory of the sampled process

    An address holds a byte or faults.  The readers [rbperf_read] and
    [rbperf_read_str] are macros of the header over the kernel's
    probe-read helpers. *)

Definition Memory := Z -> option Z.

Fixpoint read_bytes (m : Memory) (addr : Z) (n : nat) : option (list Z) :=
  match n with
  | O => Some []
  | S n' =>
      match m (wrap64 addr), read_bytes m (addr + 1) n' with
      | Some b, Some bs => Some (b :: bs)
      | _, _ => None
      end
  end.

(** Little-endian value of a byte string. *)
Fixpoint le_value (bs : list Z) : Z :=
  match bs with
  | [] => 0
  | b :: bs' => b + 256 * le_value bs'
  end.

(** Modelled from the spec: [rbperf_read(&dst, len, addr)], a macro of
    the absent header, is the bounded, fault-tolerant read of [len] bytes
    of the other process; the result is the value left in the [len]-byte
    [dst], which the kernel helper fills with zeroes when a byte of the
    range faults. *)
Definition rbperf_read (m : Memory) (len : nat) (addr : Z) : Z :=
  match read_bytes m addr len with
  | Some bs => le_value bs mod 2 ^ (8 * Z.of_nat len)
  | None => 0
  end.

(** The bytes of a NUL-terminated string at [addr], at most [n] of them;
    [None] when a byte to be read faults. *)
Fixpoint scan_str (m : Memory) (addr : Z) (n : nat) : option (list Z) :=
  match n with
  | O => Some []
  | S n' =>
      match m (wrap64 addr) with
      | None => None
      | Some b =>
          if b =? 0 then Some []
          else match scan_str m (addr + 1) n' with
               | Some bs => Some (b :: bs)
               | None => None
               end
      end
  end.

(** Writing a string and its terminator at the start of a buffer: the bytes
    behind the terminator keep their content. *)
Definition store_str (buffer : list Z) (s : list Z) : list Z :=
  s ++ [0] ++ drop (S (length s)) buffer.

(** Modelled from the spec: [rbperf_read_str(buffer, buffer_len, addr)],
    a macro of the absent header, reads a string up to the capacity of
    the buffer and terminates it on truncation: at most [buffer_len - 1]
    characters and a terminator, with [buffer_len] the size of the buffer;
    the kernel helper zeroes the whole buffer on a fault. *)
Definition rbperf_read_str (m : Memory) (buffer : list Z) (addr : Z) : list Z :=
  match scan_str m addr (length buffer - 1) with
  | Some s => store_str buffer s
  | None => repeat 0 (length buffer)
  end.

(** [bpf_probe_read_kernel_str(buffer, size, src)] for a constant [src]
    of [size] bytes, terminator included. *)
Definition read_kernel_str (buffer : list Z) (src : list Z) : list Z :=
  store_str buffer src.

(** ** The frame decoder *)

Section Decoder.
Context {H : Header}.
Variable m : Memory.

(** [read_ruby_string(label, buffer, buffer_len)]: the new content of
    [buffer]. *)
Definition read_ruby_string (label : Z) (buffer : list Z) : list Z :=
  let flags := rbperf_read m 8 (label + 0 + 0) in
  if STRING_ON_HEAP flags then
    let char_ptr := rbperf_read m 8 (label + as_offset + 8) in
    rbperf_read_str m buffer char_ptr
  else
    rbperf_read_str m buffer (label + as_offset).

(** [read_ruby_lineno(pc, body, version_offsets)]: the [int] returned,
    the [u32] locals converted on return.  The index
    [(line_info_size - 1) * 0x8] is computed on 32 bits. *)
Definition read_ruby_lineno (pc body : Z) (vo : RubyVersionOffsets) : Z :=
  if pc =? 0 then 0
  else
    let pos_addr := rbperf_read m 8 (pc - body + iseq_encoded_offset) in
    let pos := rbperf_read m 8 pos_addr in
    let pos := if negb (pos =? 0) then wrap64 (pos - rb_value_sizeof) else pos in
    let line_info_size := rbperf_read m 4 (body + line_info_size_offset vo) in
    if line_info_size =? 0 then int32 line_info_size
    else
      let info_table := rbperf_read m 8 (body + line_info_table_offset vo) in
      let lineno_ := rbperf_read m 4 (info_table + wrap32 ((line_info_size - 1) * 8)
                                      + lineno_offset vo) in
      int32 lineno_.

(** The path pointer [read_frame] settles on, [None] on the early
    return. *)
Definition frame_path (body : Z) (vo : RubyVersionOffsets) : option Z :=
  let path_addr := rbperf_read m 8 (body + ruby_location_offset + path_offset) in
  let flags := rbperf_read m 8 path_addr in
  if Z.land flags RUBY_T_MASK =? RUBY_T_STRING then Some path_addr
  else if Z.land flags RUBY_T_MASK =? RUBY_T_ARRAY then
    if path_flavour vo =? 1 then
      let path_addr := wrap64 (path_addr + 16 + PATH_TYPE_OFFSET) in
      Some (rbperf_read m 8 path_addr)
    else Some path_addr
  else None.

(** [read_frame(pc, body, current_frame, version_offsets)]: the new
    content of [*current_frame]. *)
Definition read_frame (pc body : Z) (current_frame : RubyFrame)
    (vo : RubyVersionOffsets) : RubyFrame :=
  match frame_path body vo with
  | None => current_frame
  | Some path_ptr =>
      let label := rbperf_read m 8 (body + ruby_location_offset + label_offset vo) in
      {| path := read_ruby_string path_ptr (path current_frame);
         lineno := lineno_of_int (read_ruby_lineno pc body vo);
         method_name := read_ruby_string label (method_name current_frame) |}
  end.
End Decoder.

(** ** The tables and the state the programs share *)

(** Load-time constants of the object file. *)
Record Rodata := {
  verbose : bool;
  use_ringbuf : bool;
  enable_pid_race_detector : bool;
  event_type : Z;
}.

(** What stays fixed while one sampled event is handled.  [programs] tells
    whether slot [RBPERF_STACK_READING_PROGRAM_IDX] of the program array
    holds the walker, [tail_call_limit] how many tail calls the kernel
    lets one event chain; [version_specific_offsets] is an array map,
    every index below its [max_entries] holds a value; [prandom] is the
    sequence of values [bpf_get_prandom_u32] hands out. *)
Record Env := {
  rodata : Rodata;
  mem : Memory;
  programs : bool;
  tail_call_limit : nat;
  version_specific_offsets : Z -> RubyVersionOffsets;
  prandom : nat -> Z;
}.

(** What the kernel tells about the sampled event. *)
Record Ctx := {
  pid_tgid : Z;
  task : Z;
  task_start_time : Z;
  ktime_ns : Z;
  smp_processor_id : Z;
  current_comm : list Z;
  syscall_nr : Z;
}.

(** A log of what the walker did, oldest first: an entry when
    [walk_ruby_stack] is entered, when the loop fills [current_frame] for
    the control frame at [cfp_] (through [read_frame] or with the native
    name), when [find_or_insert_frame] returns and when the sample is
    handed to the output channel.  It is not program state; the
    properties about what the walker does and in which order are stated
    on it. *)
Inductive Action :=
  | ActWalk
  | ActReadFrame (cfp_ pc body : Z)
  | ActNative (cfp_ : Z)
  | ActIntern (frame : RubyFrame) (id : Z)
  | ActOutput.

Record World := {
  pid_to_rb_thread : gmap Z ProcessData;
  id_to_stack : gmap Z RubyFrame;
  stack_to_id : gmap RubyFrame Z;
  global_state : SampleState;
  events : list RubyStack;
  prandom_next : nat;
  actions : list Action;
}.

Definition set_pid_to_rb_thread (v : gmap Z ProcessData) (w : World) : World :=
  {| pid_to_rb_thread := v; id_to_stack := id_to_stack w;
     stack_to_id := stack_to_id w; global_state := global_state w;
     events := events w; prandom_next := prandom_next w;
     actions := actions w |}.

Definition set_frame_maps (s2i : gmap RubyFrame Z) (i2s : gmap Z RubyFrame)
    (next : nat) (w : World) : World :=
  {| pid_to_rb_thread := pid_to_rb_thread w; id_to_stack := i2s;
     stack_to_id := s2i; global_state := global_state w;
     events := events w; prandom_next := next;
     actions := actions w |}.

Definition set_global_state (v : SampleState) (w : World) : World :=
  {| pid_to_rb_thread := pid_to_rb_thread w; id_to_stack := id_to_stack w;
     stack_to_id := stack_to_id w; global_state := v;
     events := events w; prandom_next := prandom_next w;
     actions := actions w |}.

(** [bpf_ringbuf_output] and [bpf_perf_event_output]: the record is handed
    to the channel [events]. *)
Definition output (r : RubyStack) (w : World) : World :=
  {| pid_to_rb_thread := pid_to_rb_thread w; id_to_stack := id_to_stack w;
     stack_to_id := stack_to_id w; global_state := global_state w;
     events := r :: events w; prandom_next := prandom_next w;
     actions := actions w ++ [ActOutput] |}.

Definition note (a : Action) (w : World) : World :=
  {| pid_to_rb_thread := pid_to_rb_thread w; id_to_stack := id_to_stack w;
     stack_to_id := stack_to_id w; global_state := global_state w;
     events := events w; prandom_next := prandom_next w;
     actions := actions w ++ [a] |}.

Definition set_stack (v : RubyStack) (s : SampleState) : SampleState :=
  {| stack := v; base_stack := base_stack s; cfp := cfp s;
     ruby_stack_program_count := ruby_stack_program_count s;
     st_rb_version := st_rb_version s |}.

Definition set_cfp (v : Z) (s : SampleState) : SampleState :=
  {| stack := stack s; base_stack := base_stack s; cfp := v;
     ruby_stack_program_count := ruby_stack_program_count s;
     st_rb_version := st_rb_version s |}.

Definition set_base_stack (v : Z) (s : SampleState) : SampleState :=
  {| stack := stack s; base_stack := v; cfp := cfp s;
     ruby_stack_program_count := ruby_stack_program_count s;
     st_rb_version := st_rb_version s |}.

Definition set_program_count (v : Z) (s : SampleState) : SampleState :=
  {| stack := stack s; base_stack := base_stack s; cfp := cfp s;
     ruby_stack_program_count := v;
     st_rb_version := st_rb_version s |}.

Definition set_stack_status (v : ruby_stack_status) (r : RubyStack) : RubyStack :=
  {| timestamp := timestamp r; pid := pid r; cpu := cpu r;
     syscall_id := syscall_id r; size := size r;
     expected_size := expected_size r; comm := comm r;
     stack_status := v; frames := frames r |}.

(** [stack.frames[actual_index] = id; stack.size += 1] *)
Definition push_frame (actual_index id : Z) (r : RubyStack) : RubyStack :=
  {| timestamp := timestamp r; pid := pid r; cpu := cpu r;
     syscall_id := syscall_id r; size := size r + 1;
     expected_size := expected_size r; comm := comm r;
     stack_status := stack_status r;
     frames := <[Z.to_nat actual_index := id]> (frames r) |}.

(** ** BPF maps *)

(** [bpf_map_update_elem(map, key, value, BPF_ANY)] on a hash map of
    [max_entries] entries: a present key is overwritten, a new key enters
    while there is room, and the update fails on a full map. *)
Definition bpf_map_update_elem `{Countable K} {V} (max_entries : Z)
    (map : gmap K V) (key : K) (value : V) : gmap K V :=
  match map !! key with
  | Some _ => <[key := value]> map
  | None =>
      if Z.of_nat (base.size map) <? max_entries then <[key := value]> map
      else map
  end.

(** [max_entries] of [id_to_stack] and of [stack_to_id]. *)
Definition frame_map_entries : Z := 10240.

(** Lookup in the array map [version_specific_offsets] ([max_entries]
    10) with a [u32] key. *)
Definition lookup_offsets (e : Env) (key : Z) : option RubyVersionOffsets :=
  let key := wrap32 key in
  if key <? 10 then Some (version_specific_offsets e key) else None.

(** [u32 pid = pid_tgid >> 32] *)
Definition event_pid (c : Ctx) : Z :=
  wrap32 (Z.shiftr (wrap64 (pid_tgid c)) 32).

(** ** The programs *)

Section Programs.
Context {H : Header}.
Variable e : Env.

(** [find_or_insert_frame(frame)]: the id and the tables after the
    call. *)
Definition find_or_insert_frame (frame : RubyFrame) (w : World) : Z * World :=
  match stack_to_id w !! frame with
  | Some found_id => (found_id, note (ActIntern frame found_id) w)
  | None =>
      let random := wrap32 (prandom e (prandom_next w)) in
      let s2i := bpf_map_update_elem frame_map_entries (stack_to_id w) frame random in
      let i2s := bpf_map_update_elem frame_map_entries (id_to_stack w) random frame in
      (random,
       note (ActIntern frame random)
         (set_frame_maps s2i i2s (S (prandom_next w)) w))
  end.

(** [RubyFrame current_frame = {}] *)
Definition empty_frame : RubyFrame :=
  {| lineno := 0; method_name := repeat 0 METHOD_MAXLEN;
     path := repeat 0 PATH_MAXLEN |}.

(** The native branch of the loop: only [method_name] is written. *)
Definition native_frame (current_frame : RubyFrame) : RubyFrame :=
  {| lineno := lineno current_frame;
     method_name := read_kernel_str (method_name current_frame) NATIVE_METHOD_NAME;
     path := path current_frame |}.

(** The part of the loop body that fills [current_frame] for the control
    frame at [cfp_]. *)
Definition decode_frame (vo : RubyVersionOffsets) (cfp_ iseq_addr pc : Z)
    (current_frame : RubyFrame) (w : World) : RubyFrame * World :=
  if iseq_addr =? 0 then
    (native_frame current_frame, note (ActNative cfp_) w)
  else
    let body := rbperf_read (mem e) 8 (iseq_addr + body_offset) in
    (read_frame (mem e) pc body current_frame vo,
     note (ActReadFrame cfp_ pc body) w).

(** The part of the loop body that interns [current_frame] and appends
    its id, under the guard on [actual_index]. *)
Definition record_frame (current_frame : RubyFrame) (w : World) : World :=
  let actual_index := size (stack (global_state w)) in
  if (0 <=? actual_index) && (actual_index <? MAX_STACK) then
    let '(id, w1) := find_or_insert_frame current_frame w in
    let state := global_state w1 in
    set_global_state (set_stack (push_frame actual_index id (stack state)) state) w1
  else w.

(** One iteration of the loop of [walk_ruby_stack]: [None] is the
    [break]. *)
Definition walk_iteration (vo : RubyVersionOffsets) (control_frame_t_sizeof_ : Z)
    (l : Z * RubyFrame * World) : option (Z * RubyFrame * World) :=
  let '(cfp_, current_frame, w) := l in
  let iseq_addr := rbperf_read (mem e) 8 (cfp_ + iseq_offset) in
  let pc_addr := rbperf_read (mem e) 8 (cfp_ + 0) in
  let pc := rbperf_read (mem e) 8 pc_addr in
  if cfp_ >? base_stack (global_state w) then None
  else
    let '(current_frame, w1) := decode_frame vo cfp_ iseq_addr pc current_frame w in
    let w2 := record_frame current_frame w1 in
    Some (wrap64 (cfp_ + control_frame_t_sizeof_), current_frame, w2).

(** [for (int i = 0; i < MAX_STACKS_PER_PROGRAM; i++)] with [n] iterations
    to go. *)
Fixpoint walk_loop (vo : RubyVersionOffsets) (control_frame_t_sizeof_ : Z)
    (n : nat) (l : Z * RubyFrame * World) : Z * RubyFrame * World :=
  match n with
  | O => l
  | S n' =>
      match walk_iteration vo control_frame_t_sizeof_ l with
      | None => l
      | Some l' => walk_loop vo control_frame_t_sizeof_ n' l'
      end
  end.

(** [walk_ruby_stack].  [tail_ok] tells whether the kernel lets a
    [bpf_tail_call] through; the second component is [true] when the
    program left through the tail call.  The per-CPU array [global_state]
    has its single slot at key 0, the lookup cannot fail. *)
Definition walk_ruby_stack (tail_ok : bool) (w : World) : World * bool :=
  let w := note ActWalk w in
  let state := global_state w in
  match lookup_offsets e (st_rb_version state) with
  | None => (w, false)
  | Some version_offsets =>
      let current_frame := empty_frame in
      let base_stack_ := base_stack state in
      let cfp_ := cfp state in
      let w := set_global_state
                 (set_program_count (ruby_stack_program_count state + 1) state) w in
      let control_frame_t_sizeof_ := wrap64 (control_frame_t_sizeof version_offsets) in
      let '(cfp_, _, w) :=
        walk_loop version_offsets control_frame_t_sizeof_
          (Z.to_nat MAX_STACKS_PER_PROGRAM) (cfp_, current_frame, w) in
      let w := set_global_state
                 (set_base_stack base_stack_ (set_cfp cfp_ (global_state w))) w in
      if (cfp_ <=? base_stack_)
         && (ruby_stack_program_count (global_state w) <? BPF_PROGRAMS_COUNT)
         && tail_ok
      then (w, true)
      else
        let state := global_state w in
        let status := if cfp_ >? base_stack state
                      then STACK_COMPLETE else STACK_INCOMPLETE in
        let w := set_global_state
                   (set_stack (set_stack_status status (stack state)) state) w in
        (output (stack (global_state w)) w, false)
  end.

(** The PID-reuse check of [on_event]: [None] is the early return,
    otherwise the value of [*process_data] after it. *)
Definition pid_race_check (c : Ctx) (process_data : ProcessData)
    : option ProcessData :=
  if enable_pid_race_detector (rodata e) then
    let process_start_time := task_start_time c in
    if start_time process_data =? 0 then
      Some {| rb_frame_addr := rb_frame_addr process_data;
              rb_version := rb_version process_data;
              start_time := process_start_time |}
    else if negb (start_time process_data =? process_start_time) then None
    else Some process_data
  else Some process_data.

(** [on_event] finds the execution context from the address of the
    current-thread global. *)
Definition read_ec_addr (process_data : ProcessData)
    (version_offsets : RubyVersionOffsets) : Z :=
  let ruby_current_thread_addr :=
    rbperf_read (mem e) 8 (rb_frame_addr process_data) in
  let main_thread_addr :=
    rbperf_read (mem e) 8
      (ruby_current_thread_addr + main_thread_offset version_offsets) in
  rbperf_read (mem e) 8 (main_thread_addr + ec_offset version_offsets).

(** The sample state [on_event] sets up before it tail-calls the
    walker; [control_frame_t_sizeof] is an [int] there: the product
    [2 * control_frame_t_sizeof] is one of two [int]s, on 32 bits, and
    the [int] is converted to 64 bits for the subtraction and for the
    division (a BPF division by zero gives zero, as [Z.div] does). *)
Definition prime_state (c : Ctx) (pid_ : Z) (process_data : ProcessData)
    (version_offsets : RubyVersionOffsets) (state : SampleState) : SampleState :=
  let ec_addr := read_ec_addr process_data version_offsets in
  let control_frame_t_sizeof_ := control_frame_t_sizeof version_offsets in
  let thread_stack_content := rbperf_read (mem e) 8 (ec_addr + vm_offset version_offsets) in
  let thread_stack_size := rbperf_read (mem e) 8 (ec_addr + vm_size_offset version_offsets) in
  let base_stack_ :=
    wrap64 (thread_stack_content + rb_value_sizeof * thread_stack_size
            - int32 (2 * control_frame_t_sizeof_)) in
  let cfp_ := rbperf_read (mem e) 8 (ec_addr + cfp_offset version_offsets) in
  {| stack :=
       {| timestamp := ktime_ns c;
          pid := pid_;
          cpu := smp_processor_id c;
          syscall_id := if event_type (rodata e) =? RBPERF_EVENT_SYSCALL
                        then syscall_nr c else 0;
          size := 0;
          expected_size := wrap64 (base_stack_ - cfp_) / wrap64 control_frame_t_sizeof_;
          comm := current_comm c;
          stack_status := STACK_COMPLETE;
          frames := frames (stack state) |};
     base_stack := base_stack_;
     cfp := wrap64 (cfp_ + control_frame_t_sizeof version_offsets);
     ruby_stack_program_count := 0;
     st_rb_version := rb_version process_data |}.

(** [on_event]; the second component is [true] when the program left
    through the tail call into the walker. *)
Definition on_event (tail_ok : bool) (c : Ctx) (w : World) : World * bool :=
  let pid_ := event_pid c in
  match pid_to_rb_thread w !! pid_ with
  | Some process_data =>
      if negb (rb_frame_addr process_data =? 0) then
        if task c =? 0 then (w, false)
        else
          match pid_race_check c process_data with
          | None => (w, false)
          | Some process_data =>
              let w := set_pid_to_rb_thread
                         (<[pid_ := process_data]> (pid_to_rb_thread w)) w in
              match lookup_offsets e (rb_version process_data) with
              | None => (w, false)
              | Some version_offsets =>
                  let w := set_global_state
                             (prime_state c pid_ process_data version_offsets
                                (global_state w)) w in
                  (w, tail_ok)
              end
          end
      else (w, false)
  | None => (w, false)
  end.

(** The walker and its self tail calls, [calls] more of which the kernel
    lets through. *)
Fixpoint walk_chain (calls : nat) (w : World) : World :=
  match calls with
  | O => fst (walk_ruby_stack false w)
  | S calls' =>
      let '(w', jumped) := walk_ruby_stack (programs e) w in
      if jumped then walk_chain calls' w' else w'
  end.

(** One sampled event from [on_event] to the end of its chain of tail
    calls. *)
Definition sample (c : Ctx) (w : World) : World :=
  match tail_call_limit e with
  | O => fst (on_event false c w)
  | S calls =>
      let '(w', jumped) := on_event (programs e) c w in
      if jumped then walk_chain calls w' else w'
  end.
End Programs.

(** ** Reading the log *)

Fixpoint count_walks (l : list Action) : Z :=
  match l with
  | [] => 0
  | ActWalk :: l' => 1 + count_walks l'
  | _ :: l' => count_walks l'
  end.

Fixpoint count_outputs (l : list Action) : Z :=
  match l with
  | [] => 0
  | ActOutput :: l' => 1 + count_outputs l'
  | _ :: l' => count_outputs l'
  end.

(** The control frames the loop filled [current_frame] for. *)
Fixpoint decoded (l : list Action) : list Z :=
  match l with
  | [] => []
  | ActReadFrame cfp_ _ _ :: l' => cfp_ :: decoded l'
  | ActNative cfp_ :: l' => cfp_ :: decoded l'
  | _ :: l' => decoded l'
  end.

(** The control frames [read_frame] was invoked for. *)
Fixpoint read_frames (l : list Action) : list Z :=
  match l with
  | [] => []
  | ActReadFrame cfp_ _ _ :: l' => cfp_ :: read_frames l'
  | _ :: l' => read_frames l'
  end.

(** The calls of [find_or_insert_frame]: argument and result. *)
Fixpoint interned (l : list Action) : list (RubyFrame * Z) :=
  match l with
  | [] => []
  | ActIntern frame id :: l' => (frame, id) :: interned l'
  | _ :: l' => interned l'
  end.

(** What one sampled event added to the log. *)
Definition actions_since (w w' : World) : list Action :=
  drop (length (actions w)) (actions w').

(** The two frame tables agree when every id of [stack_to_id] leads back
    to its frame in [id_to_stack]. *)
Definition tables_agree (w : World) : Prop :=
  forall frame id,
    stack_to_id w !! frame = Some id -> id_to_stack w !! id = Some frame.

(** ** A concrete header and concrete processes

    [rbperf_header] has 30 frames per program, 3 programs and the native
    name of the specification, with room for every id the programs can
    walk; [small_header] stores fewer ids than the programs can walk.
    The offsets and type tags are those of one Ruby layout.  Modelled from
    the spec: the line of a frame record is a non-negative integer, here
    one of 32 bits. *)

Definition ascii_codes (s : string) : list Z :=
  List.map (fun b => Z.of_N (Byte.to_N b)) (list_byte_of_string s).

Definition rbperf_header : Header := {|
  MAX_STACK := 90; MAX_STACKS_PER_PROGRAM := 30; BPF_PROGRAMS_COUNT := 3;
  METHOD_MAXLEN := 50; PATH_MAXLEN := 150;
  iseq_offset := 16; body_offset := 16; ruby_location_offset := 64;
  path_offset := 0; as_offset := 16; iseq_encoded_offset := 8;
  rb_value_sizeof := 8; PATH_TYPE_OFFSET := 0;
  RUBY_T_MASK := 31; RUBY_T_STRING := 5; RUBY_T_ARRAY := 7;
  STRING_ON_HEAP := fun flags => negb (Z.land flags 8192 =? 0);
  NATIVE_METHOD_NAME := ascii_codes "<native code>";
  RBPERF_EVENT_SYSCALL := 2;
  lineno_of_int := wrap32 |}.

Definition small_header : Header := {|
  MAX_STACK := 1; MAX_STACKS_PER_PROGRAM := 2; BPF_PROGRAMS_COUNT := 2;
  METHOD_MAXLEN := 50; PATH_MAXLEN := 150;
  iseq_offset := 16; body_offset := 16; ruby_location_offset := 64;
  path_offset := 0; as_offset := 16; iseq_encoded_offset := 8;
  rb_value_sizeof := 8; PATH_TYPE_OFFSET := 0;
  RUBY_T_MASK := 31; RUBY_T_STRING := 5; RUBY_T_ARRAY := 7;
  STRING_ON_HEAP := fun flags => negb (Z.land flags 8192 =? 0);
  NATIVE_METHOD_NAME := ascii_codes "<native code>";
  RBPERF_EVENT_SYSCALL := 2;
  lineno_of_int := wrap32 |}.

Fixpoint le_bytes (n : nat) (v : Z) : list Z :=
  match n with
  | O => []
  | S n' => v mod 256 :: le_bytes n' (v / 256)
  end.

Fixpoint poke (m : Memory) (addr : Z) (bs : list Z) : Memory :=
  match bs with
  | [] => m
  | b :: bs' => poke (fun a => if a =? addr then Some b else m a) (addr + 1) bs'
  end.

Definition poke64 (addr v : Z) (m : Memory) : Memory := poke m addr (le_bytes 8 v).
Definition poke32 (addr v : Z) (m : Memory) : Memory := poke m addr (le_bytes 4 v).
Definition poke_str (addr : Z) (s : string) (m : Memory) : Memory :=
  poke m addr (ascii_codes s ++ [0]).

Definition no_memory : Memory := fun _ => None.

Definition offsets0 : RubyVersionOffsets := {|
  vm_offset := 0; vm_size_offset := 8; control_frame_t_sizeof := 56;
  cfp_offset := 16; label_offset := 16; path_flavour := 1;
  line_info_size_offset := 136; line_info_table_offset := 120;
  lineno_offset := 0; main_thread_offset := 8; ec_offset := 32 |}.

(** An embedded Ruby string object at [addr] with type bits [ty]. *)
Definition poke_rstring (addr ty : Z) (s : string) (m : Memory) : Memory :=
  poke_str (addr + 16) s (poke64 addr ty m).

(** An iseq at [i]: its body at [i + 256], the path and label objects at
    [i + 512] and [i + 768], a line table of one entry at [i + 1024]. *)
Definition poke_iseq (i path_ty : Z) (p l : string) (line : Z) (m : Memory) : Memory :=
  poke64 (i + 16) (i + 256)
  (poke64 (i + 256 + 64) (i + 512)
  (poke64 (i + 256 + 64 + 16) (i + 768)
  (poke_rstring (i + 512) path_ty p
  (poke_rstring (i + 768) 5 l
  (poke32 (i + 256 + 136) 1
  (poke64 (i + 256 + 120) (i + 1024)
  (poke32 (i + 1024) line m))))))).

(** A control frame at [a]: the pc slot and the iseq pointer. *)
Definition poke_cf (a pcp iseq : Z) (m : Memory) : Memory :=
  poke64 a pcp (poke64 (a + 16) iseq m).

(** The VM stack of the processes below starts at 65536 and has 256
    values, so [on_event] computes [base_stack = top0]. *)
Definition top0 : Z := 65536 + 2048 - 112.

(** The thread, execution context and VM stack of a process whose
    current-thread global is at 4096 and whose [ec->cfp] is [cfp0]. *)
Definition poke_thread (cfp0 : Z) (m : Memory) : Memory :=
  poke64 4096 8192
  (poke64 (8192 + 8) 12288
  (poke64 (12288 + 32) 16384
  (poke64 16384 65536
  (poke64 (16384 + 8) 256
  (poke64 (16384 + 16) cfp0
  (poke64 20480 24576 m)))))).

(** Two control frames: [foo] of [a.rb], line 7, then a native one. *)
Definition mem_native : Memory :=
  poke_thread (top0 - 2 * 56)
  (poke_cf (top0 - 56) 20480 131072
  (poke_cf top0 20480 0
  (poke_iseq 131072 5 "a.rb" "foo" 7 no_memory))).

(** Two control frames: [foo] of [a.rb], line 7, then a frame whose path
    object is neither a string nor an array. *)
Definition mem_wrong_type : Memory :=
  poke_thread (top0 - 2 * 56)
  (poke_cf (top0 - 56) 20480 131072
  (poke_cf top0 20480 262144
  (poke_iseq 131072 5 "a.rb" "foo" 7
  (poke_iseq 262144 0 "b.rb" "bar" 9 no_memory)))).

(** Two control frames with different methods. *)
Definition mem_two : Memory :=
  poke_thread (top0 - 2 * 56)
  (poke_cf (top0 - 56) 20480 131072
  (poke_cf top0 20480 262144
  (poke_iseq 131072 5 "a.rb" "foo" 7
  (poke_iseq 262144 5 "b.rb" "bar" 9 no_memory)))).

(** A process whose [ec->cfp] lies above the top of its VM stack, by an
    amount for which [(base_stack - cfp) / 56] is 1000 on its low 32
    bits and positive on 64 bits. *)
Definition mem_above : Memory := poke_thread (top0 + 137438897472) no_memory.

Definition rodata0 : Rodata :=
  {| verbose := false; use_ringbuf := false;
     enable_pid_race_detector := true; event_type := 0 |}.

Definition env_of (m : Memory) (rnd : nat -> Z) : Env :=
  {| rodata := rodata0; mem := m; programs := true; tail_call_limit := 33;
     version_specific_offsets := fun _ => offsets0; prandom := rnd |}.

Definition zero_stack (max_stack : nat) : RubyStack :=
  {| timestamp := 0; pid := 0; cpu := 0; syscall_id := 0; size := 0;
     expected_size := 0; comm := repeat 0 25;
     stack_status := STACK_COMPLETE; frames := repeat 0 max_stack |}.

(** A world in which process 42 is registered with thread pointer
    [thread] and start time [started], and no frame has been interned. *)
Definition world_of (max_stack : nat) (thread started : Z) : World :=
  {| pid_to_rb_thread :=
       {[ 42 := {| rb_frame_addr := thread; rb_version := 0;
                   start_time := started |} ]};
     id_to_stack := ∅; stack_to_id := ∅;
     global_state := {| stack := zero_stack max_stack; base_stack := 0;
                        cfp := 0; ruby_stack_program_count := 0;
                        st_rb_version := 0 |};
     events := []; prandom_next := 0; actions := [] |}.

Definition ctx0 : Ctx :=
  {| pid_tgid := 42 * 2 ^ 32 + 42; task := 1; task_start_time := 777;
     ktime_ns := 123456; smp_processor_id := 0;
     current_comm := repeat 0 25; syscall_nr := 0 |}.

Definition pad (n : nat) (s : string) : list Z :=
  ascii_codes s ++ repeat 0 (n - length (ascii_codes s)).

Definition frame_foo : RubyFrame :=
  {| lineno := 7; method_name := pad 50 "foo"; path := pad 150 "a.rb" |}.

Definition frame_bar : RubyFrame :=
  {| lineno := 9; method_name := pad 50 "bar"; path := pad 150 "b.rb" |}.

(** The record the loop interns for the native frame of [mem_native]. *)
Definition frame_native_stale : RubyFrame :=
  {| lineno := 7; method_name := pad 50 "<native code>";
     path := pad 150 "a.rb" |}.

(** A native frame as such: the name, no path, line 0. *)
Definition frame_native : RubyFrame :=
  {| lineno := 0; method_name := pad 50 "<native code>";
     path := repeat 0 150 |}.

(** A random source without repetition, and one that repeats itself. *)
Definition rnd_fresh (n : nat) : Z := 1000 + Z.of_nat n.
Definition rnd_stuck (n : nat) : Z := 1000.

Definition env_native : Env := env_of mem_native rnd_fresh.
Definition env_wrong_type : Env := env_of mem_wrong_type rnd_fresh.
Definition env_two : Env := env_of mem_two rnd_fresh.
Definition env_collide : Env := env_of mem_two rnd_stuck.
Definition env_above : Env := env_of mem_above rnd_fresh.

(** Process 42 registered with its thread pointer, not yet sampled; the
    same with a frame array of one id; and registered without a thread
    pointer. *)
Definition world0 : World := world_of 90 4096 0.
Definition world_small : World := world_of 1 4096 0.
Definition world_unthreaded : World := world_of 90 0 0.

Definition process0 : ProcessData :=
  {| rb_frame_addr := 4096; rb_version := 0; start_time := 0 |}.
Definition process0_started : ProcessData :=
  {| rb_frame_addr := 4096; rb_version := 0; start_time := 777 |}.

(** Process 42 registered at an earlier start time than [ctx0] tells. *)
Definition world_reused : World := world_of 90 4096 5.



(** ** Program points and invariants of the walker *)

Section Notions.
Context {H : Header}.
Variable e : Env.

(** The part of the world the loop of [walk_ruby_stack] never writes. *)
Record loop_keeps (w w' : World) : Prop := {
  keeps_events : events w' = events w;
  keeps_pids : pid_to_rb_thread w' = pid_to_rb_thread w;
  keeps_base : base_stack (global_state w') = base_stack (global_state w);
  keeps_count : ruby_stack_program_count (global_state w')
                = ruby_stack_program_count (global_state w);
  keeps_version : st_rb_version (global_state w') = st_rb_version (global_state w);
  keeps_expected : expected_size (stack (global_state w'))
                   = expected_size (stack (global_state w));
  keeps_status : stack_status (stack (global_state w'))
                 = stack_status (stack (global_state w));
}.

(** The world in which the loop of [walk_ruby_stack] starts. *)
Definition loop_start (w : World) : World :=
  set_global_state
    (set_program_count (ruby_stack_program_count (global_state w) + 1)
       (global_state w))
    (note ActWalk w).

(** The world after the loop, with [cfp] and [base_stack] stored. *)
Definition loop_end (w : World) (cfp_ : Z) (wl : World) : World :=
  set_global_state
    (set_base_stack (base_stack (global_state w))
       (set_cfp cfp_ (global_state wl))) wl.

(** The world after the status is set and the sample is handed to the
    output channel. *)
Definition published (w2 : World) : World :=
  let status := if cfp (global_state w2) >? base_stack (global_state w2)
                then STACK_COMPLETE else STACK_INCOMPLETE in
  let r := set_stack_status status (stack (global_state w2)) in
  output r (set_global_state (set_stack r (global_state w2)) w2).

(** Whether the kernel lets the walker's tail call through when [calls]
    more are allowed. *)
Definition tail_ok_of (calls : nat) : bool :=
  match calls with O => false | S _ => programs e end.

(** For [cfp0] the [cfp] read by [on_event] and [sz] the frame size on
    64 bits: until [MAX_STACK] ids are stored, [size] counts the control
    frames walked so far and the walking pointer is that many frames
    behind the sentinel at [cfp0]. *)
Definition on_track (cfp0 sz : Z) (cfp_ : Z) (w : World) : Prop :=
  size (stack (global_state w)) = MAX_STACK
  \/ (0 <= size (stack (global_state w)) < MAX_STACK
      /\ cfp_ = wrap64 (cfp0 + (size (stack (global_state w)) + 1) * sz)).

(** The ids the random source hands out for a sample that starts at
    position [first] are pairwise distinct. *)
Definition distinct_ids (first : nat) : Prop :=
  forall j k,
    (first <= j < k)%nat -> (k < first + Z.to_nat MAX_STACK)%nat ->
    wrap32 (prandom e j) <> wrap32 (prandom e k).

(** The state of the interning in the course of one sample, for
    [before] the calls of the interner logged before the sampled event
    and [first] the position of the random source when the event fires:
    the tables agree, every call of the interner so far filled the next
    position of the frame array with an id that [id_to_stack] resolves to
    the frame of that call, the ids still to be drawn are not in use, and
    the tables have room for the positions still free. *)
Record interning_ok (before : list (RubyFrame * Z)) (first : nat)
    (w : World) : Prop := {
  io_agree : tables_agree w;
  io_length : length (frames (stack (global_state w))) = Z.to_nat MAX_STACK;
  io_size : 0 <= size (stack (global_state w)) <= MAX_STACK;
  io_calls :
    exists calls,
      interned (actions w) = before ++ calls
      /\ Z.of_nat (length calls) = size (stack (global_state w))
      /\ forall i frame id,
           calls !! i = Some (frame, id) ->
           frames (stack (global_state w)) !! i = Some id
           /\ id_to_stack w !! id = Some frame;
  io_next :
    Z.of_nat first <= Z.of_nat (prandom_next w)
    <= Z.of_nat first + size (stack (global_state w));
  io_fresh :
    forall k,
      (prandom_next w <= k < first + Z.to_nat MAX_STACK)%nat ->
      id_to_stack w !! wrap32 (prandom e k) = None;
  io_room_stack_to_id :
    Z.of_nat (base.size (stack_to_id w))
    + (MAX_STACK - size (stack (global_state w))) <= frame_map_entries;
  io_room_id_to_stack :
    Z.of_nat (base.size (id_to_stack w))
    + (MAX_STACK - size (stack (global_state w))) <= frame_map_entries;
}.
End Notions.

(** ** Notions for the further properties *)

(** The C string a buffer holds: its bytes up to the first NUL. *)
Fixpoint cstr (buffer : list Z) : list Z :=
  match buffer with
  | [] => []
  | b :: rest => if b =? 0 then [] else b :: cstr rest
  end.

(** The [n] control frames from [start] on, [sz] bytes apart on 64
    bits. *)
Definition walked (start sz : Z) (n : nat) : list Z :=
  (fun i => wrap64 (start + Z.of_nat i * sz)) <$> seq 0 n.

Section FurtherNotions.
Context {H : Header}.

(** What the walker keeps of a world [w0] it started from: the ids of the
    frames already interned, the registry, what [on_event] wrote into the
    sample, and the frame array from position [size] on. *)
Record steady (w0 w : World) : Prop := {
  sd_ids : forall frame id,
      stack_to_id w0 !! frame = Some id -> stack_to_id w !! frame = Some id;
  sd_registry : pid_to_rb_thread w = pid_to_rb_thread w0;
  sd_timestamp : timestamp (stack (global_state w)) = timestamp (stack (global_state w0));
  sd_pid : pid (stack (global_state w)) = pid (stack (global_state w0));
  sd_cpu : cpu (stack (global_state w)) = cpu (stack (global_state w0));
  sd_syscall_id : syscall_id (stack (global_state w))
                  = syscall_id (stack (global_state w0));
  sd_comm : comm (stack (global_state w)) = comm (stack (global_state w0));
  sd_expected_size : expected_size (stack (global_state w))
                     = expected_size (stack (global_state w0));
  sd_size : size (stack (global_state w0)) <= size (stack (global_state w));
  sd_tail : forall i,
      (Z.to_nat (size (stack (global_state w))) <= i)%nat ->
      frames (stack (global_state w)) !! i = frames (stack (global_state w0)) !! i;
}.

(** The pace of one sample, for [seen] the control frames logged before
    the sampled event, [start] the walking pointer [on_event] leaves and
    [sz] the frame size on 64 bits: the control frames decoded are the
    first ones from [start] on, [size] counts them up to [MAX_STACK], and
    the walking pointer [cfp_] is at the next one. *)
Definition on_pace (seen : list Z) (start sz : Z) (cfp_ : Z) (w : World) : Prop :=
  exists n,
    decoded (actions w) = seen ++ walked start sz n
    /\ size (stack (global_state w)) = Z.min (Z.of_nat n) MAX_STACK
    /\ cfp_ = wrap64 (start + Z.of_nat n * sz).

(** The frame array in the course of one sample, for [before] the calls
    of the interner logged before the sampled event: the ids the interner
    returned fill the array from position 0 on, in the order of the
    calls. *)
Record filled (before : list (RubyFrame * Z)) (w : World) : Prop := {
  fl_length : length (frames (stack (global_state w))) = Z.to_nat MAX_STACK;
  fl_calls :
    exists calls,
      interned (actions w) = before ++ calls
      /\ Z.of_nat (length calls) = size (stack (global_state w))
      /\ take (length calls) (frames (stack (global_state w))) = calls.*2;
}.

(** Every walker invocation so far ran all the turns of its loop, for
    [seen] the control frames logged before the sampled event. *)
Definition all_turns (seen : list Z) (w : World) : Prop :=
  Z.of_nat (length (decoded (actions w)))
  = Z.of_nat (length seen)
    + MAX_STACKS_PER_PROGRAM * ruby_stack_program_count (global_state w).
End FurtherNotions.

(** A process whose stack is deeper than the walker's budget under
    [small_header]: six control frames, all of them unreadable. *)
Definition mem_deep : Memory := poke_thread (top0 - 6 * 56) no_memory.
Definition env_deep : Env := env_of mem_deep rnd_fresh.

(** A kernel whose program array lacks the walker. *)
Definition env_no_walker : Env :=
  {| rodata := rodata0; mem := mem_native; programs := false;
     tail_call_limit := 33; version_specific_offsets := fun _ => offsets0;
     prandom := rnd_fresh |}.

(** The same process with the PID-reuse guard switched off. *)
Definition env_unguarded : Env :=
  {| rodata := {| verbose := false; use_ringbuf := false;
                  enable_pid_race_detector := false; event_type := 0 |};
     mem := mem_native; programs := true; tail_call_limit := 33;
     version_specific_offsets := fun _ => offsets0; prandom := rnd_fresh |}.

(** A later event on pid 42 by a task started at another time. *)
Definition ctx_later : Ctx :=
  {| pid_tgid := 42 * 2 ^ 32 + 43; task := 1; task_start_time := 999;
     ktime_ns := 234567; smp_processor_id := 1;
     current_comm := repeat 0 25; syscall_nr := 0 |}.

(** Process 42 registered with a version tag that has no offsets. *)
Definition world_unversioned : World :=
  {| pid_to_rb_thread :=
       {[ 42 := {| rb_frame_addr := 4096; rb_version := 10; start_time := 0 |} ]};
     id_to_stack := ∅; stack_to_id := ∅;
     global_state := global_state world0;
     events := []; prandom_next := 0; actions := [] |}.

(** A [stack_to_id] with [max_entries] frames in it, all of them without
    a method name. *)
Definition numbered (i : nat) : RubyFrame :=
  {| lineno := Z.of_nat i; method_name := repeat 0 50; path := repeat 0 150 |}.

Definition full_table : gmap RubyFrame Z :=
  list_to_map ((fun i => (numbered i, Z.of_nat i))
                 <$> seq 0 (Z.to_nat frame_map_entries)).

Definition world_full : World :=
  {| pid_to_rb_thread := pid_to_rb_thread world0;
     id_to_stack := ∅; stack_to_id := full_table;
     global_state := global_state world0;
     events := []; prandom_next := 0; actions := [] |}.

(** A conjunction of equations between terms that are convertible. *)
Ltac same_fields := repeat (split; [reflexivity|]); reflexivity.

(** From an equation between pairs to the equations of the components,
    without looking into the components. *)
Ltac pair_eq Heq :=
  let H1 := fresh in
  let H2 := fresh in
  pose proof (f_equal fst Heq) as H1;
  pose proof (f_equal snd Heq) as H2;
  cbn [fst snd] in H1, H2; clear Heq; subst.

(** * Properties *)

(** ** The log functions over concatenation *)

Lemma count_walks_app l1 l2 :
  count_walks (l1 ++ l2) = count_walks l1 + count_walks l2.
Proof.
  induction l1 as [|a l1 IH]; simpl; [reflexivity|].
  destruct a; rewrite IH; lia.
Qed.

Lemma count_outputs_app l1 l2 :
  count_outputs (l1 ++ l2) = count_outputs l1 + count_outputs l2.
Proof.
  induction l1 as [|a l1 IH]; simpl; [reflexivity|].
  destruct a; rewrite IH; lia.
Qed.

Lemma decoded_app l1 l2 : decoded (l1 ++ l2) = decoded l1 ++ decoded l2.
Proof.
  induction l1 as [|a l1 IH]; simpl; [reflexivity|].
  destruct a; rewrite IH; reflexivity.
Qed.

Lemma read_frames_app l1 l2 :
  read_frames (l1 ++ l2) = read_frames l1 ++ read_frames l2.
Proof.
  induction l1 as [|a l1 IH]; simpl; [reflexivity|].
  destruct a; rewrite IH; reflexivity.
Qed.

Lemma interned_app l1 l2 : interned (l1 ++ l2) = interned l1 ++ interned l2.
Proof.
  induction l1 as [|a l1 IH]; simpl; [reflexivity|].
  destruct a; rewrite IH; reflexivity.
Qed.

Lemma wrap64_range z : 0 <= wrap64 z < 2 ^ 64.
Proof. unfold wrap64. apply Z.mod_pos_bound. lia. Qed.

Lemma wrap64_small z : 0 <= z < 2 ^ 64 -> wrap64 z = z.
Proof. unfold wrap64. apply Z.mod_small. Qed.

Lemma wrap64_add_l a b : wrap64 (wrap64 a + b) = wrap64 (a + b).
Proof. unfold wrap64. apply Zplus_mod_idemp_l. Qed.

Lemma wrap64_add_r a b : wrap64 (a + wrap64 b) = wrap64 (a + b).
Proof. unfold wrap64. apply Zplus_mod_idemp_r. Qed.



Lemma rbperf_read_range m addr : 0 <= rbperf_read m 8 addr < 2 ^ 64.
Proof.
  unfold rbperf_read. destruct (read_bytes m addr 8); [|lia].
  change (2 ^ (8 * Z.of_nat 8)) with (2 ^ 64).
  apply Z.mod_pos_bound. lia.
Qed.

(** ** What the steps of the walker leave alone *)

Section Walker.
Context {H : Header}.
Variable e : Env.

Lemma loop_keeps_refl w : loop_keeps w w.
Proof. constructor; reflexivity. Qed.

Lemma loop_keeps_trans w1 w2 w3 :
  loop_keeps w1 w2 -> loop_keeps w2 w3 -> loop_keeps w1 w3.
Proof. intros [] []; constructor; congruence. Qed.

Lemma find_or_insert_frame_state frame w :
  global_state (find_or_insert_frame e frame w).2 = global_state w
  /\ events (find_or_insert_frame e frame w).2 = events w
  /\ pid_to_rb_thread (find_or_insert_frame e frame w).2 = pid_to_rb_thread w
  /\ actions (find_or_insert_frame e frame w).2
     = actions w ++ [ActIntern frame (find_or_insert_frame e frame w).1].
Proof.
  unfold find_or_insert_frame.
  destruct (stack_to_id w !! frame); simpl; auto.
Qed.

(** The two cases of [record_frame]. *)
Lemma record_frame_cases frame w :
  (~ (0 <= size (stack (global_state w)) < MAX_STACK)
   /\ record_frame e frame w = w)
  \/ (0 <= size (stack (global_state w)) < MAX_STACK
      /\ record_frame e frame w
         = set_global_state
             (set_stack
                (push_frame (size (stack (global_state w)))
                   (find_or_insert_frame e frame w).1
                   (stack (global_state w)))
                (global_state w))
             (find_or_insert_frame e frame w).2).
Proof.
  unfold record_frame.
  destruct (0 <=? size (stack (global_state w))) eqn:E1;
    destruct (size (stack (global_state w)) <? MAX_STACK) eqn:E2; simpl;
    try (left; split; [lia | reflexivity]).
  right. split; [lia|].
  destruct (find_or_insert_frame_state frame w) as (Hg & _).
  destruct (find_or_insert_frame e frame w) as [id w1]. simpl in *.
  rewrite Hg. reflexivity.
Qed.

Lemma record_frame_keeps frame w : loop_keeps w (record_frame e frame w).
Proof.
  destruct (record_frame_cases frame w) as [[_ ->] | [_ ->]];
    [apply loop_keeps_refl|].
  destruct (find_or_insert_frame_state frame w) as (Hg & He & Hp & _).
  constructor; simpl; auto.
Qed.

Lemma decode_frame_world vo cfp_ iseq_addr pc frame w :
  exists a,
    (decode_frame e vo cfp_ iseq_addr pc frame w).2 = note a w
    /\ decoded [a] = [cfp_]
    /\ count_walks [a] = 0
    /\ count_outputs [a] = 0
    /\ interned [a] = []
    /\ (read_frames [a] = [] \/ read_frames [a] = [cfp_]).
Proof.
  unfold decode_frame. destruct (iseq_addr =? 0); simpl; eauto 10.
Qed.

(** One iteration that does not break: the frame at [cfp_] lies within
    the stack, it is decoded and then recorded, and [cfp_] advances. *)
Lemma walk_iteration_some vo sz cfp_ frame w l' :
  walk_iteration e vo sz (cfp_, frame, w) = Some l' ->
  cfp_ <= base_stack (global_state w)
  /\ exists a frame',
       decoded [a] = [cfp_] /\ count_walks [a] = 0
       /\ count_outputs [a] = 0 /\ interned [a] = []
       /\ (read_frames [a] = [] \/ read_frames [a] = [cfp_])
       /\ l' = (wrap64 (cfp_ + sz), frame', record_frame e frame' (note a w)).
Proof.
  unfold walk_iteration.
  destruct (cfp_ >? base_stack (global_state w)) eqn:E; [discriminate|].
  intros Heq. split; [lia|].
  set (iseq := rbperf_read (mem e) 8 (cfp_ + iseq_offset)) in *.
  set (pc := rbperf_read (mem e) 8 (rbperf_read (mem e) 8 (cfp_ + 0))) in *.
  destruct (decode_frame_world vo cfp_ iseq pc frame w) as (a & Hw & Hd).
  destruct (decode_frame e vo cfp_ iseq pc frame w) as [frame' w1].
  simpl in Hw. subst w1. injection Heq as <-.
  exists a, frame'. tauto.
Qed.

Lemma walk_iteration_none vo sz cfp_ frame w :
  walk_iteration e vo sz (cfp_, frame, w) = None <->
  cfp_ > base_stack (global_state w).
Proof.
  unfold walk_iteration.
  destruct (cfp_ >? base_stack (global_state w)) eqn:E.
  - split; [lia | reflexivity].
  - destruct (decode_frame _ _ _ _ _ _ _). split; [discriminate | lia].
Qed.

(** Induction over the iterations of the loop. *)
Lemma walk_loop_ind (P : Z * RubyFrame * World -> Prop) vo sz :
  (forall l l', P l -> walk_iteration e vo sz l = Some l' -> P l') ->
  forall n l, P l -> P (walk_loop e vo sz n l).
Proof.
  intros Hstep n. induction n as [|n IH]; intros l Hl; simpl; [assumption|].
  destruct (walk_iteration e vo sz l) as [l'|] eqn:E; [|assumption].
  apply IH. eapply Hstep; eassumption.
Qed.

Lemma walk_iteration_keeps vo sz cfp_ frame w cfp' frame' w' :
  walk_iteration e vo sz (cfp_, frame, w) = Some (cfp', frame', w') ->
  loop_keeps w w'.
Proof.
  intros Hit. apply walk_iteration_some in Hit as (_ & a & f & _ & _ & _ & _ & _ & Heq).
  injection Heq as -> -> ->.
  eapply loop_keeps_trans; [|apply record_frame_keeps].
  constructor; reflexivity.
Qed.

Lemma walk_loop_keeps vo sz n cfp_ frame w :
  loop_keeps w (walk_loop e vo sz n (cfp_, frame, w)).2.
Proof.
  apply (walk_loop_ind (fun l => loop_keeps w l.2)); [|apply loop_keeps_refl].
  intros [[c f] w1] [[c' f'] w1'] Hk Hit. simpl in *.
  eapply loop_keeps_trans; [exact Hk|]. eapply walk_iteration_keeps; eassumption.
Qed.
End Walker.

(** ** One invocation of the walker, and the chain of invocations *)

Section Chain.
Context {H : Header}.
Variable e : Env.

Lemma walk_ruby_stack_inv tail_ok w w' jumped :
  walk_ruby_stack e tail_ok w = (w', jumped) ->
  (lookup_offsets e (st_rb_version (global_state w)) = None
   /\ w' = note ActWalk w /\ jumped = false)
  \/ exists vo cfp_ frame wl,
       lookup_offsets e (st_rb_version (global_state w)) = Some vo
       /\ walk_loop e vo (wrap64 (control_frame_t_sizeof vo))
            (Z.to_nat MAX_STACKS_PER_PROGRAM)
            (cfp (global_state w), empty_frame, loop_start w)
          = (cfp_, frame, wl)
       /\ ((jumped = true /\ w' = loop_end w cfp_ wl
            /\ cfp_ <= base_stack (global_state w)
            /\ ruby_stack_program_count (global_state w) + 1 < BPF_PROGRAMS_COUNT
            /\ tail_ok = true)
           \/ (jumped = false /\ w' = published (loop_end w cfp_ wl)
               /\ ~ (cfp_ <= base_stack (global_state w)
                     /\ ruby_stack_program_count (global_state w) + 1
                        < BPF_PROGRAMS_COUNT
                     /\ tail_ok = true))).
Proof.
  unfold walk_ruby_stack.
  change (global_state (note ActWalk w)) with (global_state w).
  destruct (lookup_offsets e (st_rb_version (global_state w))) as [vo|];
    [|intros [= <- <-]; left; auto].
  intros Hw. right.
  fold (loop_start w) in Hw.
  pose proof (walk_loop_keeps e vo (wrap64 (control_frame_t_sizeof vo))
                (Z.to_nat MAX_STACKS_PER_PROGRAM) (cfp (global_state w))
                empty_frame (loop_start w)) as Hk.
  destruct (walk_loop e vo (wrap64 (control_frame_t_sizeof vo))
              (Z.to_nat MAX_STACKS_PER_PROGRAM)
              (cfp (global_state w), empty_frame, loop_start w))
    as [[cfp_ frame] wl] eqn:Hl.
  simpl in Hk. destruct Hk as [_ _ _ Hc _ _ _]. simpl in Hc.
  exists vo, cfp_, frame, wl. split; [reflexivity|]. split; [exact Hl|].
  cbn [global_state set_global_state ruby_stack_program_count
       set_base_stack set_cfp] in Hw.
  rewrite Hc in Hw.
  destruct (cfp_ <=? base_stack (global_state w)) eqn:E1;
    destruct (ruby_stack_program_count (global_state w) + 1 <? BPF_PROGRAMS_COUNT) eqn:E2;
    destruct tail_ok; simpl in Hw; injection Hw as <- <-;
    first [ left; repeat split; (reflexivity || lia)
          | right; split; [reflexivity|]; split; [reflexivity|];
            intros (? & ? & ?); (lia || discriminate) ].
Qed.

Lemma walk_ruby_stack_no_jump w : (walk_ruby_stack e false w).2 = false.
Proof.
  destruct (walk_ruby_stack e false w) as [w' j] eqn:E. simpl.
  apply walk_ruby_stack_inv in E
    as [(_ & _ & ->) | (vo & c & f & wl & _ & _ & [(_ & _ & _ & _ & ?) | (-> & _)])];
    (reflexivity || discriminate).
Qed.

(** Induction over the chain: [P] holds on entry of every invocation,
    [Q] once an invocation returns. *)
Lemma walk_chain_ind (P : nat -> World -> Prop) (Q : World -> Prop) :
  (forall calls w w',
      P (S calls) w -> walk_ruby_stack e (programs e) w = (w', true) ->
      P calls w') ->
  (forall calls w w',
      P calls w -> walk_ruby_stack e (tail_ok_of e calls) w = (w', false) ->
      Q w') ->
  forall calls w, P calls w -> Q (walk_chain e calls w).
Proof.
  intros Hjump Hret calls.
  induction calls as [|calls IH]; intros w HP; simpl.
  - pose proof (walk_ruby_stack_no_jump w) as Hj.
    destruct (walk_ruby_stack e false w) as [w' j] eqn:E. simpl in *. subst j.
    eapply (Hret O); eassumption.
  - destruct (walk_ruby_stack e (programs e) w) as [w' [|]] eqn:E.
    + apply IH. eapply Hjump; eassumption.
    + eapply (Hret (S calls)); eassumption.
Qed.

(** The entry program either returns, the frame tables, the output
    channel and the log untouched, or primes the sample state and
    jumps. *)
Lemma on_event_inv tail_ok c w w1 jumped :
  on_event e tail_ok c w = (w1, jumped) ->
  (jumped = false /\ events w1 = events w /\ actions w1 = actions w
   /\ id_to_stack w1 = id_to_stack w /\ stack_to_id w1 = stack_to_id w
   /\ prandom_next w1 = prandom_next w)
  \/ (jumped = true /\ tail_ok = true
      /\ exists pd pd' vo,
           pid_to_rb_thread w !! event_pid c = Some pd
           /\ rb_frame_addr pd <> 0 /\ task c <> 0
           /\ pid_race_check e c pd = Some pd'
           /\ lookup_offsets e (rb_version pd') = Some vo
           /\ w1 = set_global_state
                     (prime_state e c (event_pid c) pd' vo (global_state w))
                     (set_pid_to_rb_thread
                        (<[event_pid c := pd']> (pid_to_rb_thread w)) w)).
Proof.
  unfold on_event. cbv zeta.
  destruct (pid_to_rb_thread w !! event_pid c) as [pd|] eqn:Hpd;
    [|intros Heq; pair_eq Heq; left; same_fields].
  destruct (rb_frame_addr pd =? 0) eqn:Ha; cbn [negb];
    [intros Heq; pair_eq Heq; left; same_fields|].
  destruct (task c =? 0) eqn:Ht;
    [intros Heq; pair_eq Heq; left; same_fields|].
  destruct (pid_race_check e c pd) as [pd'|] eqn:Hg;
    [|intros Heq; pair_eq Heq; left; same_fields].
  destruct (lookup_offsets e (rb_version pd')) as [vo|] eqn:Hv;
    [|intros Heq; pair_eq Heq; left; same_fields].
  intros Heq.
  pose proof (f_equal fst Heq) as H1. pose proof (f_equal snd Heq) as H2.
  cbn [fst snd] in H1, H2. clear Heq. subst w1 jumped.
  destruct tail_ok; [right | left; same_fields].
  split; [reflexivity|]. split; [reflexivity|].
  exists pd, pd', vo.
  apply Z.eqb_neq in Ha. apply Z.eqb_neq in Ht.
  repeat (split; [assumption || reflexivity|]). reflexivity.
Qed.
End Chain.

(** ** What the loop and an invocation add to the log *)

Section Log.
Context {H : Header}.
Variable e : Env.

Lemma record_frame_log frame w :
  exists tl,
    actions (record_frame e frame w) = actions w ++ tl
    /\ count_walks tl = 0 /\ count_outputs tl = 0
    /\ decoded tl = [] /\ read_frames tl = [].
Proof.
  destruct (record_frame_cases e frame w) as [[_ ->] | [_ ->]].
  - exists []. rewrite app_nil_r. auto.
  - destruct (find_or_insert_frame_state e frame w) as (_ & _ & _ & Ha).
    eexists. split; [exact Ha|]. simpl. auto.
Qed.

Lemma walk_iteration_log vo sz cfp_ frame w cfp' frame' w' :
  walk_iteration e vo sz (cfp_, frame, w) = Some (cfp', frame', w') ->
  exists new,
    actions w' = actions w ++ new
    /\ count_walks new = 0 /\ count_outputs new = 0
    /\ decoded new = [cfp_]
    /\ (read_frames new = [] \/ read_frames new = [cfp_]).
Proof.
  intros Hit.
  apply walk_iteration_some in Hit
    as (_ & a & f & Hd & Hw & Ho & _ & Hr & Heq).
  injection Heq as -> -> ->.
  destruct (record_frame_log f (note a w)) as (tl & Ha & Hw' & Ho' & Hd' & Hr').
  exists ([a] ++ tl). rewrite Ha. simpl actions. rewrite <- app_assoc.
  split; [reflexivity|].
  rewrite count_walks_app, count_outputs_app, decoded_app, read_frames_app.
  rewrite Hd, Hw, Ho, Hw', Ho', Hd', Hr', !app_nil_r.
  repeat split; try lia. exact Hr.
Qed.

(** The loop enters no program, publishes nothing, and decodes at most
    [n] control frames, none of them above [base_stack]. *)
Lemma walk_loop_log vo sz n cfp_ frame w :
  exists new,
    actions (walk_loop e vo sz n (cfp_, frame, w)).2 = actions w ++ new
    /\ count_walks new = 0 /\ count_outputs new = 0
    /\ (length (decoded new) <= n)%nat
    /\ Forall (fun c => c <= base_stack (global_state w)) (decoded new).
Proof.
  revert cfp_ frame w.
  induction n as [|n IH]; intros cfp_ frame w; cbn [walk_loop].
  - exists []. rewrite app_nil_r. simpl. repeat split; auto.
  - destruct (walk_iteration e vo sz (cfp_, frame, w)) as [[[c' f'] w']|] eqn:E.
    + pose proof E as Hlog. apply walk_iteration_log in Hlog
        as (new1 & Ha1 & Hw1 & Ho1 & Hd1 & _).
      pose proof E as Hk. apply walk_iteration_keeps in Hk as [_ _ Hb _ _ _ _].
      apply walk_iteration_some in E as (Hle & _).
      destruct (IH c' f' w') as (new2 & Ha2 & Hw2 & Ho2 & Hl2 & Hf2).
      exists (new1 ++ new2). rewrite Ha2, Ha1, <- app_assoc.
      split; [reflexivity|].
      rewrite count_walks_app, count_outputs_app, decoded_app, Hd1.
      repeat split; try lia.
      * simpl. lia.
      * simpl. constructor; [exact Hle|]. rewrite <- Hb. exact Hf2.
    + exists []. rewrite app_nil_r. simpl. repeat split; auto. lia.
Qed.

Lemma record_frame_size frame w :
  0 <= size (stack (global_state w)) <= MAX_STACK ->
  0 <= size (stack (global_state (record_frame e frame w))) <= MAX_STACK.
Proof.
  intros Hs.
  destruct (record_frame_cases e frame w) as [[_ ->] | [Hlt ->]]; [exact Hs|].
  simpl. lia.
Qed.

Lemma walk_loop_size vo sz n cfp_ frame w :
  0 <= size (stack (global_state w)) <= MAX_STACK ->
  0 <= size (stack (global_state (walk_loop e vo sz n (cfp_, frame, w)).2))
    <= MAX_STACK.
Proof.
  intros Hs.
  apply (walk_loop_ind e
           (fun l => 0 <= size (stack (global_state l.2)) <= MAX_STACK));
    [|exact Hs].
  intros [[c f] w1] l' Hs1 Hit.
  apply walk_iteration_some in Hit as (_ & a & f' & _ & _ & _ & _ & _ & ->).
  simpl in *. apply record_frame_size. exact Hs1.
Qed.

(** What one invocation of [walk_ruby_stack] with known version offsets
    does to the sample state, the channel and the log. *)
Lemma walk_ruby_stack_summary tail_ok w w' jumped :
  walk_ruby_stack e tail_ok w = (w', jumped) ->
  is_Some (lookup_offsets e (st_rb_version (global_state w))) ->
  let s := global_state w in
  let s' := global_state w' in
  st_rb_version s' = st_rb_version s
  /\ base_stack s' = base_stack s
  /\ ruby_stack_program_count s' = ruby_stack_program_count s + 1
  /\ expected_size (stack s') = expected_size (stack s)
  /\ pid_to_rb_thread w' = pid_to_rb_thread w
  /\ (0 <= size (stack s) <= MAX_STACK -> 0 <= size (stack s') <= MAX_STACK)
  /\ (exists new,
        actions w' = actions w ++ [ActWalk] ++ new
                     ++ (if jumped then [] else [ActOutput])
        /\ count_walks new = 0 /\ count_outputs new = 0
        /\ (length (decoded new) <= Z.to_nat MAX_STACKS_PER_PROGRAM)%nat
        /\ Forall (fun c => c <= base_stack s) (decoded new))
  /\ (jumped = true ->
      events w' = events w /\ cfp s' <= base_stack s'
      /\ ruby_stack_program_count s' < BPF_PROGRAMS_COUNT /\ tail_ok = true)
  /\ (jumped = false ->
      events w' = stack s' :: events w
      /\ stack_status (stack s')
         = (if cfp s' >? base_stack s' then STACK_COMPLETE else STACK_INCOMPLETE)
      /\ ~ (cfp s' <= base_stack s'
            /\ ruby_stack_program_count s' < BPF_PROGRAMS_COUNT
            /\ tail_ok = true)).
Proof.
  intros Hw [vo0 Hsome].
  apply walk_ruby_stack_inv in Hw
    as [(Hnone & _) | (vo & cfp_ & frame & wl & Hvo & Hl & Hcase)];
    [congruence|].
  pose proof (walk_loop_keeps e vo (wrap64 (control_frame_t_sizeof vo))
                (Z.to_nat MAX_STACKS_PER_PROGRAM) (cfp (global_state w))
                empty_frame (loop_start w)) as Hk.
  pose proof (walk_loop_log vo (wrap64 (control_frame_t_sizeof vo))
                (Z.to_nat MAX_STACKS_PER_PROGRAM) (cfp (global_state w))
                empty_frame (loop_start w)) as (new & Ha & Hcw & Hco & Hlen & Hall).
  pose proof (walk_loop_size vo (wrap64 (control_frame_t_sizeof vo))
                (Z.to_nat MAX_STACKS_PER_PROGRAM) (cfp (global_state w))
                empty_frame (loop_start w)) as Hsz.
  rewrite Hl in Hk, Ha, Hsz. simpl in Hk, Ha, Hsz, Hall.
  destruct Hk as [He Hp Hb Hc Hv Hx Hs].
  simpl in He, Hp, Hb, Hc, Hv, Hx, Hs.
  destruct Hcase as [(-> & -> & Hle & Hlt & ->) | (-> & -> & Hnot)]; simpl.
  - repeat split; try assumption; try lia.
    exists new. rewrite Ha, app_nil_r, <- app_assoc. auto.
  - repeat split; try assumption; try lia.
    + exists new. rewrite Ha, <- !app_assoc. auto.
    + rewrite He. reflexivity.
    + intros (? & ? & ?). apply Hnot. repeat split; [lia | lia | assumption].
Qed.
End Log.

(** ** One sampled event *)

Section Sample.
Context {H : Header}.
Variable e : Env.

Lemma actions_since_app w w' new :
  actions w' = actions w ++ new -> actions_since w w' = new.
Proof. intros Ha. unfold actions_since. rewrite Ha. apply drop_app_length. Qed.

(** A sampled event ends in [on_event], or [on_event] jumps and the
    event ends with the chain of walker invocations. *)
Lemma sample_inv c w :
  on_event e (tail_ok_of e (tail_call_limit e)) c w = (sample e c w, false)
  \/ exists calls w1,
       tail_call_limit e = S calls
       /\ on_event e (programs e) c w = (w1, true)
       /\ sample e c w = walk_chain e calls w1.
Proof.
  unfold sample. destruct (tail_call_limit e) as [|calls]; simpl tail_ok_of.
  - left. destruct (on_event e false c w) as [w1 j] eqn:E. simpl.
    apply on_event_inv in E as [(-> & _) | (_ & ? & _)];
      [reflexivity | discriminate].
  - destruct (on_event e (programs e) c w) as [w1 [|]] eqn:E.
    + right. exists calls, w1. auto.
    + left. reflexivity.
Qed.

(** The sample state in which the first walker invocation starts. *)
Lemma on_event_primed tail_ok c w w1 :
  on_event e tail_ok c w = (w1, true) ->
  is_Some (lookup_offsets e (st_rb_version (global_state w1)))
  /\ ruby_stack_program_count (global_state w1) = 0
  /\ size (stack (global_state w1)) = 0
  /\ events w1 = events w /\ actions w1 = actions w
  /\ id_to_stack w1 = id_to_stack w /\ stack_to_id w1 = stack_to_id w
  /\ prandom_next w1 = prandom_next w
  /\ frames (stack (global_state w1)) = frames (stack (global_state w)).
Proof.
  intros E. apply on_event_inv in E
    as [(? & _) | (_ & _ & pd & pd' & vo & _ & _ & _ & _ & Hvo & ->)];
    [discriminate|].
  split; [exists vo; exact Hvo|]. same_fields.
Qed.

Lemma pid_race_check_mismatch c pd :
  enable_pid_race_detector (rodata e) = true ->
  start_time pd <> 0 -> start_time pd <> task_start_time c ->
  pid_race_check e c pd = None.
Proof.
  intros He H0 Hne. unfold pid_race_check. rewrite He.
  destruct (start_time pd =? 0) eqn:E0; [lia|].
  destruct (start_time pd =? task_start_time c) eqn:E1; [lia|]. reflexivity.
Qed.

Lemma pid_race_check_first c pd :
  enable_pid_race_detector (rodata e) = true ->
  start_time pd = 0 ->
  pid_race_check e c pd
  = Some {| rb_frame_addr := rb_frame_addr pd; rb_version := rb_version pd;
            start_time := task_start_time c |}.
Proof.
  intros He H0. unfold pid_race_check. rewrite He, H0. reflexivity.
Qed.

(** Once version offsets are known the chain publishes the final sample
    state, once, as its last action. *)
Lemma walk_chain_publishes calls w :
  is_Some (lookup_offsets e (st_rb_version (global_state w))) ->
  let w' := walk_chain e calls w in
  events w' = stack (global_state w') :: events w
  /\ (exists pre, actions w' = actions w ++ pre ++ [ActOutput]
                  /\ count_outputs pre = 0
                  /\ Forall (fun c => c <= base_stack (global_state w))
                       (decoded pre))
  /\ pid_to_rb_thread w' = pid_to_rb_thread w
  /\ base_stack (global_state w') = base_stack (global_state w)
  /\ expected_size (stack (global_state w'))
     = expected_size (stack (global_state w))
  /\ stack_status (stack (global_state w'))
     = (if cfp (global_state w') >? base_stack (global_state w')
        then STACK_COMPLETE else STACK_INCOMPLETE).
Proof.
  intros Hsome.
  pose (P := fun (_ : nat) (w1 : World) =>
    is_Some (lookup_offsets e (st_rb_version (global_state w1)))
    /\ events w1 = events w
    /\ (exists pre, actions w1 = actions w ++ pre /\ count_outputs pre = 0
                    /\ Forall (fun c => c <= base_stack (global_state w))
                         (decoded pre))
    /\ pid_to_rb_thread w1 = pid_to_rb_thread w
    /\ base_stack (global_state w1) = base_stack (global_state w)
    /\ expected_size (stack (global_state w1))
       = expected_size (stack (global_state w))).
  apply (walk_chain_ind e P).
  - intros n w1 w2 (Hs & He & (pre & Ha & Ho & Hf) & Hp & Hb & Hx) Hw.
    apply walk_ruby_stack_summary in Hw; [|exact Hs]. cbv zeta in Hw.
    destruct Hw as (Hv & Hb' & _ & Hx' & Hp' & _
                    & (new & Ha' & _ & Ho' & _ & Hf') & Hj & _).
    destruct (Hj eq_refl) as (He' & _).
    unfold P; cbv beta. rewrite Hv, He', Hp', Hb', Hx'.
    repeat (split; [assumption|]). split; [|auto].
    exists (pre ++ [ActWalk] ++ new). rewrite Ha', Ha, app_nil_r, <- !app_assoc.
    split; [reflexivity|].
    rewrite !count_outputs_app, !decoded_app, Ho, Ho'. split; [reflexivity|].
    simpl. apply Forall_app. split; [exact Hf|]. rewrite <- Hb. exact Hf'.
  - intros n w1 w2 (Hs & He & (pre & Ha & Ho & Hf) & Hp & Hb & Hx) Hw.
    apply walk_ruby_stack_summary in Hw; [|exact Hs]. cbv zeta in Hw.
    destruct Hw as (Hv & Hb' & _ & Hx' & Hp' & _
                    & (new & Ha' & _ & Ho' & _ & Hf') & _ & Hj).
    destruct (Hj eq_refl) as (He' & Hst & _).
    cbv beta zeta. rewrite He', He, Hp', Hx'.
    split; [reflexivity|].
    split; [|split; [assumption|split; [congruence|split; [assumption|exact Hst]]]].
    exists (pre ++ [ActWalk] ++ new). rewrite Ha', Ha, <- !app_assoc.
    split; [reflexivity|].
    rewrite !count_outputs_app, !decoded_app, Ho, Ho'. split; [reflexivity|].
    simpl. apply Forall_app. split; [exact Hf|]. rewrite <- Hb. exact Hf'.
  - unfold P; cbv beta. repeat split; try reflexivity; try assumption.
    exists []. rewrite app_nil_r. simpl. auto.
Qed.

(** Within the budget: the program counter counts the invocations, it
    ends between one and [BPF_PROGRAMS_COUNT], and the status tells
    whether [cfp] has passed [base_stack]. *)
Lemma walk_chain_budget calls w :
  is_Some (lookup_offsets e (st_rb_version (global_state w))) ->
  0 <= ruby_stack_program_count (global_state w) < BPF_PROGRAMS_COUNT ->
  let s := global_state w in
  let s' := global_state (walk_chain e calls w) in
  ruby_stack_program_count s < ruby_stack_program_count s' <= BPF_PROGRAMS_COUNT
  /\ (exists new, actions (walk_chain e calls w) = actions w ++ new
                  /\ count_walks new
                     = ruby_stack_program_count s' - ruby_stack_program_count s)
  /\ stack_status (stack s')
     = (if cfp s' >? base_stack s' then STACK_COMPLETE else STACK_INCOMPLETE)
  /\ (0 <= size (stack s) <= MAX_STACK -> 0 <= size (stack s') <= MAX_STACK)
  /\ (programs e = true ->
      BPF_PROGRAMS_COUNT <= ruby_stack_program_count s + 1 + Z.of_nat calls ->
      cfp s' <= base_stack s' ->
      ruby_stack_program_count s' = BPF_PROGRAMS_COUNT).
Proof.
  intros Hsome Hcount.
  set (k0 := ruby_stack_program_count (global_state w)).
  pose (P := fun (n : nat) (w1 : World) =>
    is_Some (lookup_offsets e (st_rb_version (global_state w1)))
    /\ k0 <= ruby_stack_program_count (global_state w1) < BPF_PROGRAMS_COUNT
    /\ (exists new, actions w1 = actions w ++ new
                    /\ count_walks new
                       = ruby_stack_program_count (global_state w1) - k0)
    /\ (0 <= size (stack (global_state w)) <= MAX_STACK ->
        0 <= size (stack (global_state w1)) <= MAX_STACK)
    /\ (BPF_PROGRAMS_COUNT <= k0 + 1 + Z.of_nat calls ->
        BPF_PROGRAMS_COUNT
        <= ruby_stack_program_count (global_state w1) + 1 + Z.of_nat n)).
  cbv zeta. apply (walk_chain_ind e P).
  - intros n w1 w2 (Hs & Hc & (new0 & Ha & Hn) & Hz & Hb) Hw.
    apply walk_ruby_stack_summary in Hw; [|exact Hs]. cbv zeta in Hw.
    destruct Hw as (Hv & _ & Hc' & _ & _ & Hz' & (new & Ha' & Hw' & _) & Hj & _).
    destruct (Hj eq_refl) as (_ & _ & Hlt & _).
    unfold P; cbv beta. rewrite Hv, Hc'. rewrite Hc' in Hlt.
    split; [assumption|]. split; [lia|]. split; [|split; [auto | lia]].
    exists (new0 ++ [ActWalk] ++ new). rewrite Ha', Ha, app_nil_r, <- !app_assoc.
    split; [reflexivity|].
    rewrite !count_walks_app, Hn, Hw'. simpl. lia.
  - intros n w1 w2 (Hs & Hc & (new0 & Ha & Hn) & Hz & Hb) Hw.
    apply walk_ruby_stack_summary in Hw; [|exact Hs]. cbv zeta in Hw.
    destruct Hw as (Hv & _ & Hc' & _ & _ & Hz' & (new & Ha' & Hw' & _) & _ & Hj).
    destruct (Hj eq_refl) as (_ & Hst & Hnot).
    cbv beta. rewrite Hc'. split; [lia|]. split; [|split; [exact Hst|split; [auto|]]].
    + exists (new0 ++ [ActWalk] ++ new ++ [ActOutput]).
      rewrite Ha', Ha, <- !app_assoc. split; [reflexivity|].
      rewrite !count_walks_app, Hn, Hw'. simpl. lia.
    + intros Hprog Hcalls Hle.
      destruct (Z.lt_ge_cases (ruby_stack_program_count (global_state w1) + 1)
                  BPF_PROGRAMS_COUNT) as [Hlt|Hge]; [|lia].
      exfalso. apply Hnot. rewrite Hc'. split; [exact Hle|]. split; [exact Hlt|].
      destruct n as [|n]; simpl; [lia | exact Hprog].
  - unfold P; cbv beta. split; [assumption|]. split; [lia|]. split; [|split; [auto|lia]].
    exists []. rewrite app_nil_r. split; [reflexivity|]. simpl. lia.
Qed.
End Sample.

(** ** The walking pointer while the sample fills up *)

Section Capped.
Context {H : Header}.
Variable e : Env.
(** The [cfp] read by [on_event], the frame size on 64 bits and the
    version offsets of the sampled process. *)
Variables (cfp0 sz : Z) (vo : RubyVersionOffsets).

Lemma walk_iteration_on_track vo' cfp_ frame w cfp' frame' w' :
  walk_iteration e vo' sz (cfp_, frame, w) = Some (cfp', frame', w') ->
  on_track cfp0 sz cfp_ w -> on_track cfp0 sz cfp' w'.
Proof.
  intros Hit Ht.
  apply walk_iteration_some in Hit as (_ & a & f & _ & _ & _ & _ & _ & Heq).
  injection Heq as -> -> ->.
  destruct (record_frame_cases e f (note a w)) as [[Hno ->] | [Hlt ->]];
    unfold on_track in *; simpl in *.
  - left. destruct Ht as [Hm | (Hr & _)]; [exact Hm | lia].
  - destruct Ht as [Hm | (Hr & ->)]; [lia|].
    destruct (Z.eq_dec (size (stack (global_state w)) + 1) MAX_STACK) as [Heq|Hne];
      [left; exact Heq | right].
    split; [lia|]. rewrite wrap64_add_l. f_equal. ring.
Qed.

Lemma walk_loop_on_track vo' n cfp_ frame w :
  on_track cfp0 sz cfp_ w ->
  on_track cfp0 sz (walk_loop e vo' sz n (cfp_, frame, w)).1.1
           (walk_loop e vo' sz n (cfp_, frame, w)).2.
Proof.
  intros Ht.
  apply (walk_loop_ind e (fun l => on_track cfp0 sz l.1.1 l.2)); [|exact Ht].
  intros [[c f] w1] [[c' f'] w1'] Ht1 Hit. simpl in *.
  eapply walk_iteration_on_track; eassumption.
Qed.

Lemma walk_ruby_stack_on_track tail_ok w w' jumped :
  walk_ruby_stack e tail_ok w = (w', jumped) ->
  lookup_offsets e (st_rb_version (global_state w)) = Some vo ->
  sz = wrap64 (control_frame_t_sizeof vo) ->
  on_track cfp0 sz (cfp (global_state w)) w ->
  on_track cfp0 sz (cfp (global_state w')) w'.
Proof.
  intros Hw Hvo Hsz Ht.
  apply walk_ruby_stack_inv in Hw
    as [(Hnone & _) | (vo' & cfp_ & frame & wl & Hvo' & Hl & Hcase)];
    [congruence|].
  assert (vo' = vo) as -> by congruence.
  pose proof (walk_loop_on_track vo (Z.to_nat MAX_STACKS_PER_PROGRAM)
                (cfp (global_state w)) empty_frame (loop_start w)) as Hl'.
  rewrite <- Hsz in Hl. rewrite Hl in Hl'. simpl in Hl'.
  specialize (Hl' Ht).
  destruct Hcase as [(_ & -> & _) | (_ & -> & _)]; exact Hl'.
Qed.

Lemma walk_chain_on_track calls w :
  lookup_offsets e (st_rb_version (global_state w)) = Some vo ->
  sz = wrap64 (control_frame_t_sizeof vo) ->
  on_track cfp0 sz (cfp (global_state w)) w ->
  on_track cfp0 sz (cfp (global_state (walk_chain e calls w))) (walk_chain e calls w).
Proof.
  intros Hvo Hsz Ht.
  pose (P := fun (_ : nat) (w1 : World) =>
    lookup_offsets e (st_rb_version (global_state w1)) = Some vo
    /\ on_track cfp0 sz (cfp (global_state w1)) w1).
  apply (walk_chain_ind e P (fun w1 => on_track cfp0 sz (cfp (global_state w1)) w1)).
  - intros n w1 w2 (Hv1 & Ht1) Hw. unfold P; cbv beta.
    pose proof Hw as Hs.
    apply walk_ruby_stack_summary in Hs; [|rewrite Hv1; eauto].
    destruct Hs as (Hv & _). rewrite Hv. split; [exact Hv1|].
    eapply walk_ruby_stack_on_track; eassumption.
  - intros n w1 w2 (Hv1 & Ht1) Hw.
    eapply walk_ruby_stack_on_track; eassumption.
  - split; assumption.
Qed.

(** With [size] at [MAX_STACK] an iteration below the top of the stack
    still fills [current_frame] and advances the pointer; of the world
    only the log changes, by the entry of that decoding. *)
Lemma walk_iteration_full vo' cfp_ frame w :
  MAX_STACK <= size (stack (global_state w)) ->
  cfp_ <= base_stack (global_state w) ->
  exists a frame',
    walk_iteration e vo' sz (cfp_, frame, w)
    = Some (wrap64 (cfp_ + sz), frame', note a w)
    /\ decoded [a] = [cfp_] /\ interned [a] = [] /\ count_outputs [a] = 0.
Proof.
  intros Hfull Hle.
  destruct (walk_iteration e vo' sz (cfp_, frame, w)) as [l'|] eqn:E.
  - apply walk_iteration_some in E as (_ & a & f & Hd & _ & Ho & Hi & _ & ->).
    exists a, f.
    destruct (record_frame_cases e f (note a w)) as [[_ ->] | [Hlt _]];
      [auto | simpl in Hlt; lia].
  - apply walk_iteration_none in E. lia.
Qed.
End Capped.

(** ** Interning while the ids drawn are fresh *)

Lemma bpf_map_update_elem_fresh `{Countable K} {V} max_entries
    (map : gmap K V) key value :
  map !! key = None -> Z.of_nat (base.size map) < max_entries ->
  bpf_map_update_elem max_entries map key value = <[key := value]> map.
Proof.
  intros Hnone Hroom. unfold bpf_map_update_elem. rewrite Hnone.
  destruct (Z.ltb_spec (Z.of_nat (base.size map)) max_entries); [reflexivity | lia].
Qed.

Section Interning.
Context {H : Header}.
Variable e : Env.
(** The calls of the interner logged before the sampled event, and the
    position of the random source when the event fires. *)
Variables (before : list (RubyFrame * Z)) (first : nat).

(** The steps that touch neither the tables nor the frame array. *)
Lemma interning_ok_same w w' :
  stack_to_id w' = stack_to_id w ->
  id_to_stack w' = id_to_stack w ->
  prandom_next w' = prandom_next w ->
  frames (stack (global_state w')) = frames (stack (global_state w)) ->
  size (stack (global_state w')) = size (stack (global_state w)) ->
  interned (actions w') = interned (actions w) ->
  (interning_ok e before first) w -> (interning_ok e before first) w'.
Proof.
  intros Hs Hi Hn Hf Hz Ha [Hag Hlen Hsz Hcalls Hnext Hfresh Hr1 Hr2].
  constructor; unfold tables_agree in *; rewrite ?Hs, ?Hi, ?Hn, ?Hf, ?Hz, ?Ha;
    assumption.
Qed.

Lemma interning_ok_note a w :
  interned [a] = [] -> (interning_ok e before first) w -> (interning_ok e before first) (note a w).
Proof.
  intros Ha. apply interning_ok_same; try reflexivity.
  simpl. rewrite interned_app, Ha, app_nil_r. reflexivity.
Qed.

(** What [record_frame] does when the guard on [actual_index] holds. *)
Lemma record_frame_push frame w :
  0 <= size (stack (global_state w)) < MAX_STACK ->
  let w' := record_frame e frame w in
  exists id,
    frames (stack (global_state w'))
    = <[Z.to_nat (size (stack (global_state w))) := id]>
        (frames (stack (global_state w)))
    /\ size (stack (global_state w')) = size (stack (global_state w)) + 1
    /\ interned (actions w') = interned (actions w) ++ [(frame, id)]
    /\ ((stack_to_id w !! frame = Some id
         /\ stack_to_id w' = stack_to_id w
         /\ id_to_stack w' = id_to_stack w
         /\ prandom_next w' = prandom_next w)
        \/ (stack_to_id w !! frame = None
            /\ id = wrap32 (prandom e (prandom_next w))
            /\ stack_to_id w'
               = bpf_map_update_elem frame_map_entries (stack_to_id w) frame id
            /\ id_to_stack w'
               = bpf_map_update_elem frame_map_entries (id_to_stack w) id frame
            /\ prandom_next w' = S (prandom_next w))).
Proof.
  intros Hlt. cbv zeta.
  destruct (record_frame_cases e frame w) as [[Hno _] | [_ ->]]; [lia|].
  unfold find_or_insert_frame.
  destruct (stack_to_id w !! frame) as [found|] eqn:Hfound; simpl.
  - exists found. rewrite interned_app. simpl. auto 10.
  - eexists. rewrite interned_app. simpl.
    split; [reflexivity|]. split; [reflexivity|]. split; [reflexivity|].
    right. auto 10.
Qed.

Hypothesis Hdistinct : distinct_ids e first.

Lemma record_frame_interning frame w :
  (interning_ok e before first) w -> (interning_ok e before first) (record_frame e frame w).
Proof.
  intros Hok.
  destruct (record_frame_cases e frame w) as [[_ ->] | [Hlt _]]; [exact Hok|].
  destruct (record_frame_push frame w Hlt) as (id & Hf & Hz & Ha & Hcase).
  destruct Hok as [Hag Hlen Hsz (calls & Hcalls & Hclen & Hres) Hnext Hfresh Hr1 Hr2].
  set (w' := record_frame e frame w) in *.
  set (n := size (stack (global_state w))) in *.
  assert (Hidx : Z.to_nat n = length calls) by lia.
  (* the table lookups after the call *)
  assert (Hafter :
            tables_agree w'
            /\ id_to_stack w' !! id = Some frame
            /\ (forall id' frame', id_to_stack w !! id' = Some frame' ->
                                   id_to_stack w' !! id' = Some frame')
            /\ (forall k, (prandom_next w' <= k < first + Z.to_nat MAX_STACK)%nat ->
                          id_to_stack w' !! wrap32 (prandom e k) = None)
            /\ Z.of_nat (base.size (stack_to_id w')) + (MAX_STACK - (n + 1))
               <= frame_map_entries
            /\ Z.of_nat (base.size (id_to_stack w')) + (MAX_STACK - (n + 1))
               <= frame_map_entries
            /\ Z.of_nat first <= Z.of_nat (prandom_next w')
               <= Z.of_nat first + (n + 1)).
  { destruct Hcase as [(Hfound & Hs & Hi & Hn) | (Hnone & Hid & Hs & Hi & Hn)].
    - unfold tables_agree. rewrite Hs, Hi, Hn.
      split; [exact Hag|]. split; [apply Hag; exact Hfound|].
      split; [auto|]. split; [exact Hfresh|]. lia.
    - assert (Hunused : id_to_stack w !! id = None).
      { rewrite Hid. apply Hfresh. lia. }
      rewrite bpf_map_update_elem_fresh in Hs by (assumption || lia).
      rewrite bpf_map_update_elem_fresh in Hi by (assumption || lia).
      unfold tables_agree. rewrite Hs, Hi, Hn.
      split; [|split; [|split; [|split; [|split; [|split]]]]].
      + intros frame' id' Hl.
        destruct (decide (frame = frame')) as [<-|Hne].
        * rewrite lookup_insert_eq in Hl. injection Hl as <-.
          apply lookup_insert_eq.
        * rewrite lookup_insert_ne in Hl by exact Hne.
          apply Hag in Hl. rewrite lookup_insert_ne; [exact Hl|].
          intros <-. congruence.
      + apply lookup_insert_eq.
      + intros id' frame' Hl. rewrite lookup_insert_ne; [exact Hl|].
        intros <-. congruence.
      + intros k Hk. rewrite lookup_insert_ne.
        * apply Hfresh. lia.
        * rewrite Hid. apply Hdistinct; lia.
      + rewrite map_size_insert_None by exact Hnone. lia.
      + rewrite map_size_insert_None by exact Hunused. lia.
      + lia. }
  destruct Hafter as (Hag' & Hnew & Hkeep & Hfresh' & Hr1' & Hr2' & Hnext').
  constructor; rewrite ?Hf, ?Hz; try assumption.
  - rewrite length_insert. exact Hlen.
  - lia.
  - exists (calls ++ [(frame, id)]). rewrite Ha, Hcalls, <- app_assoc.
    split; [reflexivity|]. split; [rewrite length_app; simpl; lia|].
    intros i frame' id' Hl. apply lookup_app_Some in Hl as [Hl | (Hge & Hl)].
    + pose proof (lookup_lt_Some _ _ _ Hl) as Hi.
      destruct (Hres i frame' id' Hl) as (Hfr & Hid).
      split; [|apply Hkeep; exact Hid].
      rewrite list_lookup_insert_ne by lia. exact Hfr.
    + apply list_lookup_singleton_Some in Hl as (Hi0 & Heq).
      injection Heq as <- <-.
      assert (i = Z.to_nat n) as -> by lia.
      split; [|exact Hnew].
      apply list_lookup_insert_eq. lia.
Qed.

Lemma walk_loop_interning vo sz n cfp_ frame w :
  (interning_ok e before first) w -> (interning_ok e before first) (walk_loop e vo sz n (cfp_, frame, w)).2.
Proof.
  intros Hok.
  apply (walk_loop_ind e (fun l => (interning_ok e before first) l.2)); [|exact Hok].
  intros [[c f] w1] l' Hok1 Hit.
  apply walk_iteration_some in Hit as (_ & a & f' & _ & _ & _ & Hi & _ & ->).
  simpl in *. apply record_frame_interning, interning_ok_note; assumption.
Qed.

Lemma walk_ruby_stack_interning tail_ok w w' jumped :
  walk_ruby_stack e tail_ok w = (w', jumped) ->
  (interning_ok e before first) w -> (interning_ok e before first) w'.
Proof.
  intros Hw Hok.
  apply walk_ruby_stack_inv in Hw
    as [(_ & -> & _) | (vo & cfp_ & frame & wl & _ & Hl & Hcase)].
  - apply interning_ok_note; [reflexivity | exact Hok].
  - assert (Hstart : (interning_ok e before first) (loop_start w)).
    { revert Hok. apply interning_ok_same; try reflexivity.
      simpl. rewrite interned_app, app_nil_r. reflexivity. }
    pose proof (walk_loop_interning vo (wrap64 (control_frame_t_sizeof vo))
                  (Z.to_nat MAX_STACKS_PER_PROGRAM) (cfp (global_state w))
                  empty_frame (loop_start w) Hstart) as Hwl.
    rewrite Hl in Hwl. simpl in Hwl.
    destruct Hcase as [(_ & -> & _) | (_ & -> & _)]; revert Hwl;
      apply interning_ok_same; try reflexivity.
    simpl. rewrite interned_app, app_nil_r. reflexivity.
Qed.

Lemma walk_chain_interning calls w :
  (interning_ok e before first) w -> (interning_ok e before first) (walk_chain e calls w).
Proof.
  intros Hok.
  apply (walk_chain_ind e (fun _ => (interning_ok e before first)) (interning_ok e before first));
    [| |exact Hok];
    intros n w1 w2 Hok1 Hw; eapply walk_ruby_stack_interning; eassumption.
Qed.
End Interning.

(** ** From [on_event] into the chain *)

(** An event whose [on_event] jumps publishes the final sample state,
    once, as the last action. *)
Lemma sample_jump_publishes {H : Header} e c w calls w1 :
  tail_call_limit e = S calls ->
  on_event e (programs e) c w = (w1, true) ->
  events (sample e c w) = stack (global_state (sample e c w)) :: events w
  /\ exists pre, actions_since w (sample e c w) = pre ++ [ActOutput]
                 /\ count_outputs pre = 0.
Proof.
  intros Hlim Hon.
  assert (Hs : sample e c w = walk_chain e calls w1).
  { unfold sample. rewrite Hlim, Hon. reflexivity. }
  apply on_event_primed in Hon as (Hsome & _ & _ & He1 & Ha1 & _).
  pose proof (walk_chain_publishes e calls w1 Hsome) as (Hpub & (pre & Ha & Ho & _) & _).
  rewrite <- Hs in Hpub, Ha. rewrite He1 in Hpub. rewrite Ha1 in Ha.
  split; [exact Hpub|]. exists pre.
  rewrite (actions_since_app _ _ _ Ha). auto.
Qed.

Lemma cons_neq_self {A} (x : A) (l : list A) : l <> x :: l.
Proof. intros Heq. apply (f_equal length) in Heq. simpl in Heq. lia. Qed.

(** A sampled event that adds a record to the channel went through
    [on_event] into the chain of walker invocations. *)
Lemma sample_published {H : Header} e c w r :
  events (sample e c w) = r :: events w ->
  exists calls w1,
    tail_call_limit e = S calls
    /\ on_event e (programs e) c w = (w1, true)
    /\ sample e c w = walk_chain e calls w1.
Proof.
  intros Hev. destruct (sample_inv e c w) as [Hab | Hch]; [|exact Hch].
  apply on_event_inv in Hab as [(_ & He & _) | (? & _)]; [|discriminate].
  rewrite He in Hev. exfalso. eapply cons_neq_self. exact Hev.
Qed.

(** What [on_event] returns once the process is found, its thread pointer
    and the task are non-null and the PID-reuse check lets it through. *)
Lemma on_event_run {H : Header} e tail_ok c w pd pd' :
  pid_to_rb_thread w !! event_pid c = Some pd ->
  rb_frame_addr pd <> 0 -> task c <> 0 ->
  pid_race_check e c pd = Some pd' ->
  on_event e tail_ok c w
  = let w1 := set_pid_to_rb_thread
                (<[event_pid c := pd']> (pid_to_rb_thread w)) w in
    match lookup_offsets e (rb_version pd') with
    | None => (w1, false)
    | Some vo =>
        (set_global_state
           (prime_state e c (event_pid c) pd' vo (global_state w)) w1,
         tail_ok)
    end.
Proof.
  intros Hpd Ha Ht Hg. unfold on_event. cbv zeta. rewrite Hpd.
  apply Z.eqb_neq in Ha. apply Z.eqb_neq in Ht. rewrite Ha, Ht. cbn [negb].
  rewrite Hg. reflexivity.
Qed.

(** Every control frame decoded during a sampled event lies at or below
    [base_stack]. *)
Lemma sample_decoded_below {H : Header} e c w :
  Forall (fun a => a <= base_stack (global_state (sample e c w)))
    (decoded (actions_since w (sample e c w))).
Proof.
  destruct (sample_inv e c w) as [Hab | (calls & w1 & Hlim & Hon & Hs)].
  - apply on_event_inv in Hab as [(_ & _ & Ha & _) | (? & _)]; [|discriminate].
    rewrite (actions_since_app w (sample e c w) []);
      [constructor | rewrite app_nil_r; exact Ha].
  - apply on_event_primed in Hon as (Hsome & _ & _ & _ & Ha1 & _).
    pose proof (walk_chain_publishes e calls w1 Hsome)
      as (_ & (pre & Ha & _ & Hf) & _ & Hb & _ & _).
    rewrite <- Hs in Ha, Hb. rewrite Ha1 in Ha.
    rewrite (actions_since_app _ _ _ Ha), decoded_app. simpl.
    rewrite app_nil_r, Hb. exact Hf.
Qed.

(** * The claims *)

(** C1. The status of a published sample is COMPLETE exactly when the
    walker, in one of its at most [BPF_PROGRAMS_COUNT] invocations, saw
    [cfp > base_stack]; it is INCOMPLETE otherwise, and then, when the
    kernel lets the tail calls through, all [BPF_PROGRAMS_COUNT]
    invocations were used.  An invocation that has seen [cfp > base_stack]
    does not tail-call: the sample is published where that is seen. *)
Theorem status_complete_iff {H : Header} e c w r :
  1 <= BPF_PROGRAMS_COUNT ->
  events (sample e c w) = r :: events w ->
  let s' := global_state (sample e c w) in
  (stack_status r = STACK_COMPLETE <-> cfp s' > base_stack s')
  /\ (stack_status r = STACK_INCOMPLETE <-> cfp s' <= base_stack s')
  /\ 1 <= ruby_stack_program_count s' <= BPF_PROGRAMS_COUNT
  /\ (programs e = true ->
      BPF_PROGRAMS_COUNT <= Z.of_nat (tail_call_limit e) ->
      stack_status r = STACK_INCOMPLETE ->
      ruby_stack_program_count s' = BPF_PROGRAMS_COUNT)
  /\ (forall tail_ok w0 w1,
         walk_ruby_stack e tail_ok w0 = (w1, true) ->
         cfp (global_state w1) <= base_stack (global_state w1)
         /\ ruby_stack_program_count (global_state w1) < BPF_PROGRAMS_COUNT).
Proof.
  intros Hbpc Hev.
  assert (Hjump : forall tail_ok w0 w1,
             walk_ruby_stack e tail_ok w0 = (w1, true) ->
             cfp (global_state w1) <= base_stack (global_state w1)
             /\ ruby_stack_program_count (global_state w1) < BPF_PROGRAMS_COUNT).
  { intros tail_ok w0 w1 Hw.
    apply walk_ruby_stack_inv in Hw
      as [(_ & _ & ?) | (vo & cfp_ & frame & wl & _ & Hl & Hcase)]; [discriminate|].
    pose proof (walk_loop_keeps e vo (wrap64 (control_frame_t_sizeof vo))
                  (Z.to_nat MAX_STACKS_PER_PROGRAM) (cfp (global_state w0))
                  empty_frame (loop_start w0)) as [_ _ _ Hc _ _ _].
    rewrite Hl in Hc. simpl in Hc.
    destruct Hcase as [(_ & -> & Hle & Hlt & _) | (? & _)]; [|discriminate].
    simpl. rewrite Hc. split; [exact Hle | exact Hlt]. }
  destruct (sample_published e c w r Hev) as (calls & w1 & Hlim & Hon & Hs).
  apply on_event_primed in Hon as (Hsome & Hc0 & _ & He1 & _).
  pose proof (walk_chain_publishes e calls w1 Hsome) as (Hpub & _).
  pose proof (walk_chain_budget e calls w1 Hsome) as Hbud.
  rewrite Hc0 in Hbud. specialize (Hbud ltac:(lia)).
  cbv zeta in Hbud, Hpub |- *. rewrite <- Hs in Hbud, Hpub.
  destruct Hbud as (Hcnt & _ & Hst & _ & Hex).
  rewrite Hev, He1 in Hpub. injection Hpub as ->.
  rewrite Hst.
  destruct (cfp (global_state (sample e c w))
            >? base_stack (global_state (sample e c w))) eqn:E.
  - repeat split; try lia; try discriminate; apply (Hjump _ _ _ ltac:(eassumption)).
  - repeat split; try lia; try discriminate;
      try apply (Hjump _ _ _ ltac:(eassumption)).
    intros Hp Hl _. apply Hex; [exact Hp | lia | lia].
Qed.

(** C2, as the code has it.  When the two tables agree as the event
    fires, the ids the random source hands out during the sample are
    pairwise distinct and not yet keys of [id_to_stack], and both tables
    have room for [MAX_STACK] more entries, every position of a published
    sample holds the id the interner returned for the frame of that
    position, and [id_to_stack] maps that id to exactly that frame when
    the sample is published. *)
Theorem interned_ids_resolve {H : Header} e c w r :
  0 <= MAX_STACK ->
  tables_agree w ->
  length (frames (stack (global_state w))) = Z.to_nat MAX_STACK ->
  (forall k,
      (prandom_next w <= k < prandom_next w + Z.to_nat MAX_STACK)%nat ->
      id_to_stack w !! wrap32 (prandom e k) = None) ->
  distinct_ids e (prandom_next w) ->
  Z.of_nat (base.size (stack_to_id w)) + MAX_STACK <= frame_map_entries ->
  Z.of_nat (base.size (id_to_stack w)) + MAX_STACK <= frame_map_entries ->
  events (sample e c w) = r :: events w ->
  let calls := interned (actions_since w (sample e c w)) in
  Z.of_nat (length calls) = size r
  /\ forall i frame id,
       calls !! i = Some (frame, id) ->
       frames r !! i = Some id
       /\ id_to_stack (sample e c w) !! id = Some frame.
Proof.
  intros Hmax Hag Hlen Hfresh Hdist Hr1 Hr2 Hev.
  destruct (sample_published e c w r Hev) as (ncalls & w1 & Hlim & Hon & Hs).
  apply on_event_primed in Hon
    as (Hsome & _ & Hz1 & He1 & Ha1 & Hi1 & Hs1 & Hn1 & Hf1).
  assert (Hok1 : interning_ok e (interned (actions w)) (prandom_next w) w1).
  { constructor; unfold tables_agree; rewrite ?Hz1, ?Ha1, ?Hi1, ?Hs1, ?Hn1, ?Hf1;
      try assumption; try lia.
    exists []. rewrite app_nil_r. split; [reflexivity|]. split; [reflexivity|].
    intros i frame id Hl. rewrite lookup_nil in Hl. discriminate. }
  apply (walk_chain_interning e _ _ Hdist ncalls) in Hok1.
  pose proof (walk_chain_publishes e ncalls w1 Hsome) as (Hpub & (pre & Ha & _) & _).
  rewrite <- Hs in Hok1, Hpub, Ha. rewrite He1, Hev in Hpub. rewrite Ha1 in Ha.
  injection Hpub as ->.
  destruct Hok1 as [_ _ _ (calls & Hcalls & Hclen & Hres) _ _ _ _].
  cbv zeta. rewrite (actions_since_app _ _ _ Ha).
  rewrite Ha, interned_app in Hcalls. apply app_inv_head in Hcalls.
  rewrite Hcalls. split; [exact Hclen | exact Hres].
Qed.

(** C3.  The process of [mem_native] has the frame [foo] of [a.rb], line 7,
    and above it a native frame.  The record interned and appended for the
    native frame carries the native name with the path and the line of
    [foo]: [current_frame] is zeroed once per invocation, not per frame. *)
Theorem native_frame_keeps_previous_path_and_line :
  let w' := @sample rbperf_header env_native ctx0 world0 in
  interned (actions_since world0 w')
  = [(frame_foo, 1000); (frame_native_stale, 1001)]
  /\ take 2 (frames (stack (global_state w'))) = [1000; 1001]
  /\ size (stack (global_state w')) = 2
  /\ events w' = [stack (global_state w')]
  /\ id_to_stack w' !! 1001 = Some frame_native_stale
  /\ decoded (actions_since world0 w') = [top0 - 56; top0]
  /\ read_frames (actions_since world0 w') = [top0 - 56]
  /\ frame_native_stale <> frame_native
  /\ path frame_native_stale = path frame_foo
  /\ lineno frame_native_stale = 7.
Proof.
  cbv zeta. repeat (split; [vm_compute; reflexivity|]).
  split; [discriminate|]. split; reflexivity.
Qed.

(** C4.  The process of [mem_wrong_type] has the frame [foo] of [a.rb] and
    above it a frame whose path object is neither a string nor an array.
    [read_frame] returns early for the second frame, and the record
    interned for it is the record of [foo] again, not a zeroed one. *)
Theorem wrong_type_frame_repeats_previous_record :
  let w' := @sample rbperf_header env_wrong_type ctx0 world0 in
  interned (actions_since world0 w') = [(frame_foo, 1000); (frame_foo, 1000)]
  /\ read_frames (actions_since world0 w') = [top0 - 56; top0]
  /\ @frame_path rbperf_header mem_wrong_type (262144 + 256) offsets0 = None
  /\ (forall pc frame,
         @read_frame rbperf_header mem_wrong_type pc (262144 + 256) frame offsets0
         = frame)
  /\ take 2 (frames (stack (global_state w'))) = [1000; 1000]
  /\ events w' = [stack (global_state w')]
  /\ frame_foo <> @empty_frame rbperf_header.
Proof.
  cbv zeta.
  split; [vm_compute; reflexivity|]. split; [vm_compute; reflexivity|].
  assert (Hp : @frame_path rbperf_header mem_wrong_type (262144 + 256) offsets0
               = None) by (vm_compute; reflexivity).
  split; [exact Hp|].
  split; [intros pc frame; unfold read_frame; rewrite Hp; reflexivity|].
  split; [vm_compute; reflexivity|]. split; [vm_compute; reflexivity|].
  discriminate.
Qed.

(** C5, as the code has it.  With the guard enabled and the process
    registered: when the recorded start time is non-zero and differs from
    the observed one the event changes nothing and publishes nothing; when
    it is zero and the thread pointer and the task are non-null, the
    observed start time is stored, and with version offsets at hand and
    the walker installed one sample is published. *)
Theorem pid_reuse_guard {H : Header} e c w pd :
  enable_pid_race_detector (rodata e) = true ->
  pid_to_rb_thread w !! event_pid c = Some pd ->
  (start_time pd <> 0 -> start_time pd <> task_start_time c ->
   sample e c w = w)
  /\ (start_time pd = 0 -> rb_frame_addr pd <> 0 -> task c <> 0 ->
      pid_to_rb_thread (sample e c w) !! event_pid c
      = Some {| rb_frame_addr := rb_frame_addr pd; rb_version := rb_version pd;
                start_time := task_start_time c |}
      /\ (is_Some (lookup_offsets e (rb_version pd)) ->
          programs e = true -> tail_call_limit e <> O ->
          events (sample e c w) = stack (global_state (sample e c w)) :: events w)).
Proof.
  intros Hen Hpd. split.
  - intros Hnz Hne.
    pose proof (pid_race_check_mismatch e c pd Hen Hnz Hne) as Hg.
    assert (Hon : forall tail_ok, on_event e tail_ok c w = (w, false)).
    { intros tail_ok. unfold on_event. cbv zeta. rewrite Hpd, Hg.
      destruct (rb_frame_addr pd =? 0); cbn [negb]; [reflexivity|].
      destruct (task c =? 0); reflexivity. }
    unfold sample. destruct (tail_call_limit e); rewrite Hon; reflexivity.
  - intros Hz Ha Ht.
    pose proof (pid_race_check_first e c pd Hen Hz) as Hg.
    set (pd' := {| rb_frame_addr := rb_frame_addr pd; rb_version := rb_version pd;
                   start_time := task_start_time c |}) in *.
    assert (Hstored : forall tail_ok,
               pid_to_rb_thread (on_event e tail_ok c w).1 !! event_pid c
               = Some pd').
    { intros tail_ok. rewrite (on_event_run e tail_ok c w pd pd' Hpd Ha Ht Hg).
      cbv zeta. destruct (lookup_offsets e (rb_version pd'));
        cbn [fst pid_to_rb_thread set_global_state set_pid_to_rb_thread];
        apply lookup_insert_eq. }
    split.
    + destruct (sample_inv e c w) as [Hab | (calls & w1 & Hlim & Hon & Hs)].
      * rewrite <- (Hstored (tail_ok_of e (tail_call_limit e))), Hab. reflexivity.
      * pose proof Hon as Hon'.
        apply on_event_primed in Hon' as (Hsome & _).
        pose proof (walk_chain_publishes e calls w1 Hsome) as (_ & _ & Hp & _ & _).
        rewrite Hs, Hp, <- (Hstored (programs e)), Hon. reflexivity.
    + intros [vo Hvo] Hprog Hlim.
      destruct (tail_call_limit e) as [|calls] eqn:El; [congruence|].
      assert (Hon : on_event e (programs e) c w
                    = (set_global_state
                         (prime_state e c (event_pid c) pd' vo (global_state w))
                         (set_pid_to_rb_thread
                            (<[event_pid c := pd']> (pid_to_rb_thread w)) w),
                       true)).
      { rewrite (on_event_run e (programs e) c w pd pd' Hpd Ha Ht Hg).
        cbv zeta. change (rb_version pd') with (rb_version pd).
        rewrite Hvo, Hprog. reflexivity. }
      destruct (sample_jump_publishes e c w calls _ El Hon) as (Hev & _).
      exact Hev.
Qed.

(** C6. A published sample has at most [MAX_STACK] frame ids, one
    invocation of the walker decodes at most [MAX_STACKS_PER_PROGRAM]
    control frames, and a sampled event enters the walker at most
    [BPF_PROGRAMS_COUNT] times. *)
Theorem walker_bounds {H : Header} e c w :
  0 <= MAX_STACK -> 1 <= BPF_PROGRAMS_COUNT ->
  (forall r, events (sample e c w) = r :: events w -> 0 <= size r <= MAX_STACK)
  /\ (forall tail_ok w0,
         (length (decoded (actions_since w0 (walk_ruby_stack e tail_ok w0).1))
          <= Z.to_nat MAX_STACKS_PER_PROGRAM)%nat)
  /\ count_walks (actions_since w (sample e c w)) <= BPF_PROGRAMS_COUNT.
Proof.
  intros Hmax Hbpc. split; [|split].
  - intros r Hev.
    destruct (sample_published e c w r Hev) as (calls & w1 & Hlim & Hon & Hs).
    apply on_event_primed in Hon as (Hsome & Hc0 & Hz0 & He1 & _).
    pose proof (walk_chain_publishes e calls w1 Hsome) as (Hpub & _).
    pose proof (walk_chain_budget e calls w1 Hsome) as Hbud.
    rewrite Hc0 in Hbud. specialize (Hbud ltac:(lia)).
    cbv zeta in Hbud, Hpub. rewrite <- Hs in Hbud, Hpub.
    destruct Hbud as (_ & _ & _ & Hsz & _).
    rewrite Hev, He1 in Hpub. injection Hpub as ->.
    apply Hsz. rewrite Hz0. lia.
  - intros tail_ok w0.
    destruct (walk_ruby_stack e tail_ok w0) as [w' j] eqn:E. simpl.
    destruct (lookup_offsets e (st_rb_version (global_state w0))) as [vo|] eqn:Hvo.
    + apply walk_ruby_stack_summary in E; [|eauto]. cbv zeta in E.
      destruct E as (_ & _ & _ & _ & _ & _ & (new & Ha & _ & _ & Hlen & _) & _).
      rewrite (actions_since_app _ _ _ Ha), !decoded_app.
      destruct j; simpl; rewrite ?app_nil_r, ?length_app; simpl; lia.
    + apply walk_ruby_stack_inv in E
        as [(_ & -> & _) | (vo & ? & ? & ? & Hvo' & _)]; [|congruence].
      rewrite (actions_since_app w0 (note ActWalk w0) [ActWalk] eq_refl).
      simpl. lia.
  - destruct (sample_inv e c w) as [Hab | (calls & w1 & Hlim & Hon & Hs)].
    + apply on_event_inv in Hab as [(_ & _ & Ha & _) | (? & _)]; [|discriminate].
      rewrite (actions_since_app w (sample e c w) []);
        [simpl; lia | rewrite app_nil_r; exact Ha].
    + apply on_event_primed in Hon as (Hsome & Hc0 & _ & _ & Ha1 & _).
      pose proof (walk_chain_budget e calls w1 Hsome) as Hbud.
      rewrite Hc0 in Hbud. specialize (Hbud ltac:(lia)).
      cbv zeta in Hbud. rewrite <- Hs in Hbud.
      destruct Hbud as (Hcnt & (new & Ha & Hw) & _).
      rewrite Ha1 in Ha. rewrite (actions_since_app _ _ _ Ha), Hw. lia.
Qed.

(** C7. A sampled event hands one record to the output channel or none:
    none when the process is not registered, its thread pointer is zero,
    the start times differ or the version offsets are missing; exactly one,
    the final sample state, as the last action of the last walker
    invocation, when [on_event] reaches the walker. *)
Theorem sample_publishes_once_or_never {H : Header} e c w :
  let w' := sample e c w in
  ((events w' = events w /\ count_outputs (actions_since w w') = 0)
   \/ (events w' = stack (global_state w') :: events w
       /\ exists pre, actions_since w w' = pre ++ [ActOutput]
                      /\ count_outputs pre = 0))
  /\ (pid_to_rb_thread w !! event_pid c = None -> events w' = events w)
  /\ (forall pd,
         pid_to_rb_thread w !! event_pid c = Some pd ->
         rb_frame_addr pd = 0 -> events w' = events w)
  /\ (forall pd,
         pid_to_rb_thread w !! event_pid c = Some pd ->
         enable_pid_race_detector (rodata e) = true ->
         start_time pd <> 0 -> start_time pd <> task_start_time c ->
         events w' = events w)
  /\ (forall pd pd',
         pid_to_rb_thread w !! event_pid c = Some pd ->
         pid_race_check e c pd = Some pd' ->
         lookup_offsets e (rb_version pd') = None ->
         events w' = events w)
  /\ (forall calls w1,
         tail_call_limit e = S calls ->
         on_event e (programs e) c w = (w1, true) ->
         events w' = stack (global_state w') :: events w
         /\ exists pre, actions_since w w' = pre ++ [ActOutput]
                        /\ count_outputs pre = 0).
Proof.
  cbv zeta.
  assert (Hchain : forall calls w1,
             tail_call_limit e = S calls ->
             on_event e (programs e) c w = (w1, true) ->
             events (sample e c w) = stack (global_state (sample e c w)) :: events w
             /\ exists pre, actions_since w (sample e c w) = pre ++ [ActOutput]
                            /\ count_outputs pre = 0).
  { intros calls w1. apply sample_jump_publishes. }
  assert (Habort : forall tail_ok w1,
             on_event e tail_ok c w = (w1, false) ->
             events w1 = events w /\ count_outputs (actions_since w w1) = 0).
  { intros tail_ok w1 Hon.
    apply on_event_inv in Hon as [(_ & He & Ha & _) | (? & _)]; [|discriminate].
    split; [exact He|].
    rewrite (actions_since_app w w1 []); [reflexivity | rewrite app_nil_r; exact Ha]. }
  assert (Hcases : forall (Cond : Prop),
             (forall tail_ok w1, Cond -> on_event e tail_ok c w = (w1, true) -> False) ->
             Cond -> events (sample e c w) = events w).
  { intros Cond Hno HC.
    destruct (sample_inv e c w) as [Hab | (calls & w1 & _ & Hon & _)].
    - apply (Habort _ _ Hab).
    - exfalso. eapply Hno; eassumption. }
  split; [|split; [|split; [|split; [|split]]]].
  - destruct (sample_inv e c w) as [Hab | (calls & w1 & Hlim & Hon & _)].
    + left. apply (Habort _ _ Hab).
    + right. eapply Hchain; eassumption.
  - apply Hcases. intros tail_ok w1 Hnone Hon.
    apply on_event_inv in Hon as [(? & _) | (_ & _ & pd & ? & ? & Hpd & _)];
      [discriminate | congruence].
  - intros pd Hpd Hz. revert Hz. apply Hcases. intros tail_ok w1 Hz Hon.
    apply on_event_inv in Hon as [(? & _) | (_ & _ & pd0 & ? & ? & Hpd0 & Hnz & _)];
      [discriminate | congruence].
  - intros pd Hpd Hen Hnz Hne.
    apply (Hcases True); [|exact I]. intros tail_ok w1 _ Hon.
    apply on_event_inv in Hon
      as [(? & _) | (_ & _ & pd0 & pd' & ? & Hpd0 & _ & _ & Hg & _)];
      [discriminate|].
    assert (pd0 = pd) as -> by congruence.
    rewrite (pid_race_check_mismatch e c pd Hen Hnz Hne) in Hg. discriminate.
  - intros pd pd' Hpd Hg Hvo.
    apply (Hcases True); [|exact I]. intros tail_ok w1 _ Hon.
    apply on_event_inv in Hon
      as [(? & _) | (_ & _ & pd0 & pd0' & ? & Hpd0 & _ & _ & Hg0 & Hvo0 & _)];
      [discriminate|].
    assert (pd0 = pd) as -> by congruence.
    assert (pd0' = pd') as -> by congruence. congruence.
  - exact Hchain.
Qed.


(** C9, as the code has it.  The termination check comes before the
    decoder: an iteration whose [cfp] exceeds [base_stack] breaks out of
    the loop with nothing decoded, interned or appended, and every control
    frame decoded during a sampled event lies at or below [base_stack]. *)
Theorem no_decode_above_base_stack {H : Header} e c w :
  (forall vo sz cfp_ frame w0,
      cfp_ > base_stack (global_state w0) ->
      walk_iteration e vo sz (cfp_, frame, w0) = None
      /\ walk_loop e vo sz (Z.to_nat MAX_STACKS_PER_PROGRAM) (cfp_, frame, w0)
         = (cfp_, frame, w0))
  /\ Forall (fun a => a <= base_stack (global_state (sample e c w)))
       (decoded (actions_since w (sample e c w))).
Proof.
  split; [|apply sample_decoded_below].
  intros vo sz cfp_ frame w0 Hgt.
  assert (Hn : walk_iteration e vo sz (cfp_, frame, w0) = None)
    by (apply walk_iteration_none; exact Hgt).
  split; [exact Hn|].
  destruct (Z.to_nat MAX_STACKS_PER_PROGRAM); cbn [walk_loop];
    [reflexivity | rewrite Hn; reflexivity].
Qed.

(** C10, as the code has it.  When the [cfp] read at entry does not lie
    above [base_stack], a sample that expects more than [MAX_STACK] frames
    and whose walk passes [base_stack] within the budget is published
    COMPLETE with [size = MAX_STACK < expected_size]; and once [size] has
    reached [MAX_STACK], an iteration below the top of the stack still
    decodes its frame and advances [cfp], while the tables, the frame
    array and [size] stay as they are. *)
Theorem capped_sample_is_complete {H : Header} e c w pd pd' vo r :
  0 <= MAX_STACK ->
  pid_to_rb_thread w !! event_pid c = Some pd ->
  pid_race_check e c pd = Some pd' ->
  lookup_offsets e (rb_version pd') = Some vo ->
  events (sample e c w) = r :: events w ->
  rbperf_read (mem e) 8 (read_ec_addr e pd' vo + cfp_offset vo)
  <= base_stack (global_state (sample e c w)) ->
  MAX_STACK < expected_size r ->
  cfp (global_state (sample e c w)) > base_stack (global_state (sample e c w)) ->
  (stack_status r = STACK_COMPLETE
   /\ size r = MAX_STACK /\ MAX_STACK < expected_size r)
  /\ (forall vo' sz cfp_ frame w0,
         MAX_STACK <= size (stack (global_state w0)) ->
         cfp_ <= base_stack (global_state w0) ->
         exists a frame',
           walk_iteration e vo' sz (cfp_, frame, w0)
           = Some (wrap64 (cfp_ + sz), frame', note a w0)
           /\ decoded [a] = [cfp_] /\ interned [a] = []
           /\ count_outputs [a] = 0).
Proof.
  intros Hmax Hpd Hg Hvo Hev Hbelow Hexp Hdone.
  split; [|intros vo' sz cfp_ frame w0; apply walk_iteration_full].
  destruct (sample_published e c w r Hev) as (calls & w1 & Hlim & Hon & Hs).
  pose proof Hon as Hon'.
  apply on_event_inv in Hon'
    as [(? & _) | (_ & _ & pd0 & pd0' & vo0 & Hpd0 & _ & _ & Hg0 & Hvo0 & Hw1)];
    [discriminate|].
  assert (pd0 = pd) as -> by congruence.
  assert (pd0' = pd') as -> by congruence.
  assert (vo0 = vo) as -> by congruence.
  set (cfp0 := rbperf_read (mem e) 8 (read_ec_addr e pd' vo + cfp_offset vo)) in *.
  set (sz := wrap64 (control_frame_t_sizeof vo)).
  assert (Hver : st_rb_version (global_state w1) = rb_version pd')
    by (rewrite Hw1; reflexivity).
  assert (Hcfp1 : cfp (global_state w1) = wrap64 (cfp0 + control_frame_t_sizeof vo))
    by (rewrite Hw1; reflexivity).
  assert (Hsize1 : size (stack (global_state w1)) = 0)
    by (rewrite Hw1; reflexivity).
  assert (Hexp1 : expected_size (stack (global_state w1))
                  = wrap64 (base_stack (global_state w1) - cfp0) / sz)
    by (rewrite Hw1; reflexivity).
  assert (HB : 0 <= base_stack (global_state w1) < 2 ^ 64)
    by (rewrite Hw1; apply wrap64_range).
  assert (Hsome : lookup_offsets e (st_rb_version (global_state w1)) = Some vo)
    by (rewrite Hver; exact Hvo).
  apply on_event_primed in Hon as (_ & _ & _ & He1 & _).
  pose proof (walk_chain_publishes e calls w1 ltac:(rewrite Hsome; eauto))
    as (Hpub & _ & _ & Hbase & Hexp' & Hst).
  cbv zeta in Hpub, Hbase, Hexp', Hst. rewrite <- Hs in Hpub, Hbase, Hexp', Hst.
  rewrite Hev, He1 in Hpub. injection Hpub as Hr.
  assert (Htrack : on_track cfp0 sz (cfp (global_state w1)) w1).
  { unfold on_track. rewrite Hsize1, Hcfp1.
    destruct (Z.eq_dec MAX_STACK 0) as [Hz|Hnz]; [left; lia | right].
    split; [lia|]. unfold sz. rewrite Z.add_0_l, Z.mul_1_l, wrap64_add_r.
    reflexivity. }
  apply (walk_chain_on_track e cfp0 sz vo calls w1 Hsome eq_refl) in Htrack.
  rewrite <- Hs in Htrack.
  set (sf := global_state (sample e c w)) in *.
  rewrite Hr in *.
  assert (Hcomplete : stack_status (stack sf) = STACK_COMPLETE).
  { rewrite Hst. destruct (cfp sf >? base_stack sf) eqn:E; [reflexivity | lia]. }
  split; [exact Hcomplete|]. split; [|exact Hexp].
  destruct Htrack as [Hfull | (Hrange & Hcfp)]; [exact Hfull|]. exfalso.
  rewrite Hexp', Hexp1 in Hexp. rewrite Hbase in Hbelow, Hdone.
  pose proof (rbperf_read_range (mem e) (read_ec_addr e pd' vo + cfp_offset vo)) as Hc0.
  fold cfp0 in Hc0.
  pose proof (wrap64_range (control_frame_t_sizeof vo)) as Hsz. fold sz in Hsz.
  subst sf. clearbody sz cfp0.
  rewrite (wrap64_small (base_stack (global_state w1) - cfp0)) in Hexp by lia.
  assert (Hpos : 0 < sz).
  { destruct (Z.eq_dec sz 0) as [Hz|Hnz]; [|lia].
    rewrite Hz, Z.div_0_r in Hexp. lia. }
  pose proof (Z.mul_div_le (base_stack (global_state w1) - cfp0) sz Hpos) as Hmul.
  assert (Hstep : (size (stack (global_state (sample e c w))) + 1) * sz
                  <= sz * ((base_stack (global_state w1) - cfp0) / sz)).
  { rewrite (Z.mul_comm _ sz). apply Z.mul_le_mono_nonneg_l; lia. }
  rewrite wrap64_small in Hcfp by lia. lia.
Qed.

(** * The claims that do not hold as stated *)

(** C2, refuted as stated.  In [mem_two] the frames [foo] and [bar] are
    interned in turn; when the random source hands out 1000 twice both
    positions of the sample hold 1000, and [id_to_stack] maps 1000 to
    [bar], not to the [foo] of position 0. *)
Lemma interned_ids_collide :
  ~ (forall (H : Header) e c w r i frame id,
        events (sample e c w) = r :: events w ->
        interned (actions_since w (sample e c w)) !! i = Some (frame, id) ->
        frames r !! i = Some id
        /\ id_to_stack (sample e c w) !! id = Some frame).
Proof.
  intros Hclaim.
  assert (Hev : events (@sample rbperf_header env_collide ctx0 world0)
                = stack (global_state (@sample rbperf_header env_collide ctx0 world0))
                  :: events world0) by (vm_compute; reflexivity).
  assert (Hcall : interned (actions_since world0
                              (@sample rbperf_header env_collide ctx0 world0))
                  !! 0%nat = Some (frame_foo, 1000)) by (vm_compute; reflexivity).
  destruct (Hclaim rbperf_header env_collide ctx0 world0 _ 0%nat frame_foo 1000
              Hev Hcall) as (_ & Hid).
  vm_compute in Hid. discriminate.
Qed.

(** C5, refuted as stated.  Process 42 is registered with a zero thread
    pointer and a zero start time: [on_event] returns before the guard and
    the observed start time 777 is not stored. *)
Lemma zero_thread_pointer_skips_guard :
  ~ (forall (H : Header) e c w pd,
        enable_pid_race_detector (rodata e) = true ->
        pid_to_rb_thread w !! event_pid c = Some pd ->
        (start_time pd <> 0 -> start_time pd <> task_start_time c ->
         events (sample e c w) = events w)
        /\ (start_time pd = 0 ->
            start_time <$> (pid_to_rb_thread (sample e c w) !! event_pid c)
            = Some (task_start_time c))).
Proof.
  intros Hclaim.
  destruct (Hclaim rbperf_header env_native ctx0 world_unthreaded
              {| rb_frame_addr := 0; rb_version := 0; start_time := 0 |}
              eq_refl ltac:(vm_compute; reflexivity)) as (_ & Hstored).
  specialize (Hstored eq_refl). vm_compute in Hstored. discriminate.
Qed.


(** C9, refuted as stated.  No sampled event decodes a control frame
    whose [cfp] exceeds [base_stack]. *)
Lemma decode_above_base_stack_never :
  ~ (exists (H : Header) e c w cfp_,
        cfp_ ∈ decoded (actions_since w (sample e c w))
        /\ cfp_ > base_stack (global_state (sample e c w))).
Proof.
  intros (H & e & c & w & cfp_ & Hin & Hgt).
  pose proof (sample_decoded_below e c w) as Hall.
  rewrite Forall_forall in Hall. specialize (Hall cfp_ Hin). lia.
Qed.

(** C10, refuted as stated.  In [mem_above] the [cfp] read at entry lies
    above [base_stack]: [expected_size] wraps around to a large number,
    the first iteration breaks, and the sample is published COMPLETE with
    [size = 0]. *)
Lemma capped_sample_entry_above_top :
  ~ (forall (H : Header) e c w r,
        events (sample e c w) = r :: events w ->
        MAX_STACK < expected_size r ->
        cfp (global_state (sample e c w)) > base_stack (global_state (sample e c w)) ->
        stack_status r = STACK_COMPLETE
        /\ size r = MAX_STACK /\ MAX_STACK < expected_size r).
Proof.
  intros Hclaim.
  destruct (Hclaim rbperf_header env_above ctx0 world0
              (stack (global_state (@sample rbperf_header env_above ctx0 world0)))
              ltac:(vm_compute; reflexivity) ltac:(vm_compute; reflexivity)
              ltac:(vm_compute; reflexivity)) as (_ & Hsize & _).
  vm_compute in Hsize. discriminate.
Qed.

(** * The theorems at work on the concrete processes *)

(** The sample of [mem_native]: its status is COMPLETE because the walk
    passed [base_stack]. *)
Lemma status_complete_iff_witness :
  1 <= @BPF_PROGRAMS_COUNT rbperf_header
  /\ events (@sample rbperf_header env_native ctx0 world0)
     = stack (global_state (@sample rbperf_header env_native ctx0 world0))
       :: events world0
  /\ (stack_status (stack (global_state (@sample rbperf_header env_native ctx0 world0)))
      = STACK_COMPLETE
      <-> cfp (global_state (@sample rbperf_header env_native ctx0 world0))
          > base_stack (global_state (@sample rbperf_header env_native ctx0 world0))).
Proof.
  assert (H1 : 1 <= @BPF_PROGRAMS_COUNT rbperf_header) by (vm_compute; discriminate).
  assert (H2 : events (@sample rbperf_header env_native ctx0 world0)
               = stack (global_state (@sample rbperf_header env_native ctx0 world0))
                 :: events world0) by (vm_compute; reflexivity).
  split; [exact H1|]. split; [exact H2|].
  exact (proj1 (@status_complete_iff rbperf_header env_native ctx0 world0 _ H1 H2)).
Defined.

(** The sample of [mem_two] with fresh ids: two calls of the interner,
    two positions. *)
Lemma interned_ids_resolve_witness :
  0 <= @MAX_STACK rbperf_header
  /\ tables_agree world0
  /\ length (frames (stack (global_state world0)))
     = Z.to_nat (@MAX_STACK rbperf_header)
  /\ (forall k,
         (prandom_next world0 <= k
          < prandom_next world0 + Z.to_nat (@MAX_STACK rbperf_header))%nat ->
         id_to_stack world0 !! wrap32 (prandom env_two k) = None)
  /\ @distinct_ids rbperf_header env_two (prandom_next world0)
  /\ Z.of_nat (base.size (stack_to_id world0)) + @MAX_STACK rbperf_header
     <= frame_map_entries
  /\ Z.of_nat (base.size (id_to_stack world0)) + @MAX_STACK rbperf_header
     <= frame_map_entries
  /\ Z.of_nat (length (interned (actions_since world0
                                   (@sample rbperf_header env_two ctx0 world0))))
     = size (stack (global_state (@sample rbperf_header env_two ctx0 world0))).
Proof.
  assert (H1 : 0 <= @MAX_STACK rbperf_header) by (vm_compute; discriminate).
  assert (H2 : tables_agree world0).
  { intros frame id Hl. vm_compute in Hl. discriminate. }
  assert (H3 : length (frames (stack (global_state world0)))
               = Z.to_nat (@MAX_STACK rbperf_header)) by (vm_compute; reflexivity).
  assert (H4 : forall k,
             (prandom_next world0 <= k
              < prandom_next world0 + Z.to_nat (@MAX_STACK rbperf_header))%nat ->
             id_to_stack world0 !! wrap32 (prandom env_two k) = None).
  { intros k _. apply lookup_empty. }
  assert (H5 : @distinct_ids rbperf_header env_two (prandom_next world0)).
  { intros j k Hjk Hk.
    change (Z.to_nat (@MAX_STACK rbperf_header)) with 90%nat in Hk.
    change (prandom_next world0) with 0%nat in Hjk, Hk.
    change (prandom env_two) with rnd_fresh.
    unfold wrap32, rnd_fresh. rewrite !Z.mod_small by lia. lia. }
  assert (H6 : Z.of_nat (base.size (stack_to_id world0)) + @MAX_STACK rbperf_header
               <= frame_map_entries) by (vm_compute; discriminate).
  assert (H7 : Z.of_nat (base.size (id_to_stack world0)) + @MAX_STACK rbperf_header
               <= frame_map_entries) by (vm_compute; discriminate).
  assert (H8 : events (@sample rbperf_header env_two ctx0 world0)
               = stack (global_state (@sample rbperf_header env_two ctx0 world0))
                 :: events world0) by (vm_compute; reflexivity).
  repeat (split; [assumption|]).
  exact (proj1 (@interned_ids_resolve rbperf_header env_two ctx0 world0 _
                  H1 H2 H3 H4 H5 H6 H7 H8)).
Defined.

(** Process 42 sampled for the first time has its start time stored;
    registered at another start time it is left alone. *)
Lemma pid_reuse_guard_witness :
  enable_pid_race_detector (rodata env_native) = true
  /\ pid_to_rb_thread world0 !! event_pid ctx0 = Some process0
  /\ pid_to_rb_thread (@sample rbperf_header env_native ctx0 world0) !! event_pid ctx0
     = Some process0_started
  /\ events (@sample rbperf_header env_native ctx0 world0)
     = stack (global_state (@sample rbperf_header env_native ctx0 world0))
       :: events world0
  /\ @sample rbperf_header env_native ctx0 world_reused = world_reused.
Proof.
  assert (H1 : enable_pid_race_detector (rodata env_native) = true) by reflexivity.
  assert (H2 : pid_to_rb_thread world0 !! event_pid ctx0 = Some process0)
    by (vm_compute; reflexivity).
  assert (H3 : pid_to_rb_thread world_reused !! event_pid ctx0
               = Some {| rb_frame_addr := 4096; rb_version := 0; start_time := 5 |})
    by (vm_compute; reflexivity).
  split; [exact H1|]. split; [exact H2|].
  destruct (@pid_reuse_guard rbperf_header env_native ctx0 world0 process0 H1 H2)
    as (_ & Hfirst).
  destruct (Hfirst eq_refl ltac:(vm_compute; discriminate)
              ltac:(vm_compute; discriminate)) as (Hstored & Hpub).
  split; [exact Hstored|].
  split; [apply Hpub; [eexists; reflexivity | reflexivity | discriminate]|].
  destruct (@pid_reuse_guard rbperf_header env_native ctx0 world_reused _ H1 H3)
    as (Hmismatch & _).
  apply Hmismatch; vm_compute; discriminate.
Defined.

(** The sample of [mem_native] stays within the three bounds. *)
Lemma walker_bounds_witness :
  0 <= @MAX_STACK rbperf_header
  /\ 1 <= @BPF_PROGRAMS_COUNT rbperf_header
  /\ count_walks (actions_since world0 (@sample rbperf_header env_native ctx0 world0))
     <= @BPF_PROGRAMS_COUNT rbperf_header.
Proof.
  assert (H1 : 0 <= @MAX_STACK rbperf_header) by (vm_compute; discriminate).
  assert (H2 : 1 <= @BPF_PROGRAMS_COUNT rbperf_header) by (vm_compute; discriminate).
  split; [exact H1|]. split; [exact H2|].
  exact (proj2 (proj2 (@walker_bounds rbperf_header env_native ctx0 world0 H1 H2))).
Defined.


(** An iteration above the top of the stack of [mem_native] breaks. *)
Lemma no_decode_above_base_stack_witness :
  top0 + 56 > base_stack (global_state
                            (@sample rbperf_header env_native ctx0 world0))
  /\ @walk_iteration rbperf_header env_native offsets0 56
       (top0 + 56, @empty_frame rbperf_header,
        @sample rbperf_header env_native ctx0 world0) = None.
Proof.
  assert (H1 : top0 + 56 > base_stack (global_state
                 (@sample rbperf_header env_native ctx0 world0)))
    by (vm_compute; reflexivity).
  split; [exact H1|].
  exact (proj1 (proj1 (@no_decode_above_base_stack rbperf_header env_native ctx0 world0)
                  offsets0 56 (top0 + 56) (@empty_frame rbperf_header) _ H1)).
Defined.

(** With room for one id the two frames of [mem_two] give a COMPLETE
    sample of size 1 that expected 2. *)
Lemma capped_sample_is_complete_witness :
  0 <= @MAX_STACK small_header
  /\ pid_to_rb_thread world_small !! event_pid ctx0 = Some process0
  /\ @pid_race_check env_two ctx0 process0 = Some process0_started
  /\ lookup_offsets env_two (rb_version process0_started) = Some offsets0
  /\ events (@sample small_header env_two ctx0 world_small)
     = stack (global_state (@sample small_header env_two ctx0 world_small))
       :: events world_small
  /\ rbperf_read (mem env_two) 8
       (@read_ec_addr env_two process0_started offsets0 + cfp_offset offsets0)
     <= base_stack (global_state (@sample small_header env_two ctx0 world_small))
  /\ @MAX_STACK small_header
     < expected_size (stack (global_state (@sample small_header env_two ctx0 world_small)))
  /\ cfp (global_state (@sample small_header env_two ctx0 world_small))
     > base_stack (global_state (@sample small_header env_two ctx0 world_small))
  /\ size (stack (global_state (@sample small_header env_two ctx0 world_small)))
     = @MAX_STACK small_header.
Proof.
  assert (H1 : 0 <= @MAX_STACK small_header) by (vm_compute; discriminate).
  assert (H2 : pid_to_rb_thread world_small !! event_pid ctx0 = Some process0)
    by (vm_compute; reflexivity).
  assert (H3 : @pid_race_check env_two ctx0 process0 = Some process0_started)
    by (vm_compute; reflexivity).
  assert (H4 : lookup_offsets env_two (rb_version process0_started) = Some offsets0)
    by (vm_compute; reflexivity).
  assert (H5 : events (@sample small_header env_two ctx0 world_small)
               = stack (global_state (@sample small_header env_two ctx0 world_small))
                 :: events world_small) by (vm_compute; reflexivity).
  assert (H6 : rbperf_read (mem env_two) 8
                 (@read_ec_addr env_two process0_started offsets0 + cfp_offset offsets0)
               <= base_stack (global_state
                                (@sample small_header env_two ctx0 world_small)))
    by (vm_compute; discriminate).
  assert (H7 : @MAX_STACK small_header
               < expected_size (stack (global_state
                                         (@sample small_header env_two ctx0 world_small))))
    by (vm_compute; reflexivity).
  assert (H8 : cfp (global_state (@sample small_header env_two ctx0 world_small))
               > base_stack (global_state
                               (@sample small_header env_two ctx0 world_small)))
    by (vm_compute; reflexivity).
  repeat (split; [assumption|]).
  destruct (@capped_sample_is_complete small_header env_two ctx0 world_small
              process0 process0_started offsets0 _ H1 H2 H3 H4 H5 H6 H7 H8)
    as ((_ & Hsize & _) & _).
  exact Hsize.
Defined.

(** The event of [mem_native] reaches the walker and publishes once; the
    event of an unregistered process publishes nothing. *)
Lemma sample_publishes_once_or_never_witness :
  events (@sample rbperf_header env_native ctx0 world0)
  = stack (global_state (@sample rbperf_header env_native ctx0 world0))
    :: events world0
  /\ events (@sample rbperf_header env_native ctx0 world_unthreaded)
     = events world_unthreaded.
Proof.
  destruct (@sample_publishes_once_or_never rbperf_header env_native ctx0 world0)
    as (_ & _ & _ & _ & _ & Hreach).
  destruct (@sample_publishes_once_or_never rbperf_header env_native ctx0
              world_unthreaded) as (_ & _ & Hzero & _).
  split.
  - refine (proj1 (Hreach 32%nat
             (@on_event rbperf_header env_native true ctx0 world0).1 eq_refl _)).
    vm_compute. reflexivity.
  - apply (Hzero {| rb_frame_addr := 0; rb_version := 0; start_time := 0 |});
      vm_compute; reflexivity.
Defined.

(** * Further properties of the code *)

(** ** Strings and buffers *)

Lemma scan_str_length m addr n s :
  scan_str m addr n = Some s -> (length s <= n)%nat.
Proof.
  revert addr s. induction n as [|n IH]; intros addr s; cbn [scan_str].
  - intros [= <-]. simpl. lia.
  - destruct (m (wrap64 addr)) as [b|]; [|discriminate].
    destruct (b =? 0); [intros [= <-]; simpl; lia|].
    destruct (scan_str m (addr + 1) n) as [bs|] eqn:E; [|discriminate].
    intros [= <-]. simpl. apply IH in E. lia.
Qed.

Lemma scan_str_nonzero m addr n s :
  scan_str m addr n = Some s -> Forall (fun b => b <> 0) s.
Proof.
  revert addr s. induction n as [|n IH]; intros addr s; cbn [scan_str].
  - intros [= <-]. constructor.
  - destruct (m (wrap64 addr)) as [b|]; [|discriminate].
    destruct (Z.eqb_spec b 0) as [Hz|Hnz]; [intros [= <-]; constructor|].
    destruct (scan_str m (addr + 1) n) as [bs|] eqn:E; [|discriminate].
    intros [= <-]. constructor; [exact Hnz | eapply IH; exact E].
Qed.

Lemma length_store_str buffer s :
  (S (length s) <= length buffer)%nat ->
  length (store_str buffer s) = length buffer.
Proof.
  intros Hle. unfold store_str.
  rewrite !length_app, length_drop. simpl. lia.
Qed.

Lemma length_rbperf_read_str m buffer addr :
  (1 <= length buffer)%nat ->
  length (rbperf_read_str m buffer addr) = length buffer.
Proof.
  intros Hle. unfold rbperf_read_str.
  destruct (scan_str m addr (length buffer - 1)) as [s|] eqn:E.
  - apply scan_str_length in E. apply length_store_str. lia.
  - apply repeat_length.
Qed.

Lemma cstr_terminated s rest :
  Forall (fun b => b <> 0) s -> cstr (s ++ 0 :: rest) = s.
Proof.
  induction 1 as [|b s Hb _ IH]; simpl; [reflexivity|].
  destruct (Z.eqb_spec b 0); [contradiction|]. rewrite IH. reflexivity.
Qed.

Lemma cstr_zeroes n : cstr (repeat 0 n) = [].
Proof. destruct n; reflexivity. Qed.

(** The C string [rbperf_read_str] leaves: the characters found in the
    other process, nothing on a fault. *)
Lemma cstr_rbperf_read_str m buffer addr :
  cstr (rbperf_read_str m buffer addr)
  = default [] (scan_str m addr (length buffer - 1)).
Proof.
  unfold rbperf_read_str.
  destruct (scan_str m addr (length buffer - 1)) as [s|] eqn:E; simpl.
  - unfold store_str. simpl. apply cstr_terminated.
    eapply scan_str_nonzero. exact E.
  - apply cstr_zeroes.
Qed.

Lemma length_cstr_rbperf_read_str m buffer addr :
  (1 <= length buffer)%nat ->
  (length (cstr (rbperf_read_str m buffer addr)) < length buffer)%nat.
Proof.
  intros Hle. rewrite cstr_rbperf_read_str.
  destruct (scan_str m addr (length buffer - 1)) as [s|] eqn:E; simpl; [|lia].
  apply scan_str_length in E. lia.
Qed.

Section Strings.
Context {H : Header}.
Variable m : Memory.

Lemma length_read_ruby_string label buffer :
  (1 <= length buffer)%nat ->
  length (read_ruby_string m label buffer) = length buffer.
Proof.
  intros Hle. unfold read_ruby_string.
  destruct (STRING_ON_HEAP _); apply length_rbperf_read_str; exact Hle.
Qed.

Lemma cstr_read_ruby_string label buffer1 buffer2 :
  length buffer1 = length buffer2 ->
  cstr (read_ruby_string m label buffer1) = cstr (read_ruby_string m label buffer2).
Proof.
  intros Hlen. unfold read_ruby_string.
  destruct (STRING_ON_HEAP _); rewrite !cstr_rbperf_read_str, Hlen; reflexivity.
Qed.
End Strings.

(** X1. [read_ruby_string] never changes the size of the buffer and always
    leaves a NUL-terminated string in it, whatever the other process
    holds at [label]: the characters found at the character pointer of
    the string object, at most as many as the buffer holds besides the
    terminator, and the empty string when reading them faults. *)
Theorem read_ruby_string_terminated {H : Header} m label buffer :
  (1 <= length buffer)%nat ->
  let flags := rbperf_read m 8 (label + 0 + 0) in
  let chars := if STRING_ON_HEAP flags
               then rbperf_read m 8 (label + as_offset + 8)
               else label + as_offset in
  length (read_ruby_string m label buffer) = length buffer
  /\ (length (cstr (read_ruby_string m label buffer)) < length buffer)%nat
  /\ cstr (read_ruby_string m label buffer)
     = default [] (scan_str m chars (length buffer - 1)).
Proof.
  intros Hle. cbv zeta.
  split; [apply length_read_ruby_string; exact Hle|].
  unfold read_ruby_string.
  destruct (STRING_ON_HEAP _);
    (split; [apply length_cstr_rbperf_read_str; exact Hle
            |apply cstr_rbperf_read_str]).
Qed.

(** X2. What [read_frame] decodes for a path object of a known type, read
    as C strings, does not depend on what [current_frame] held before:
    two records of the same widths give the same method name, path and
    line. *)
Theorem read_frame_strings_independent {H : Header} m pc body vo frame1 frame2 :
  frame_path m body vo <> None ->
  length (method_name frame1) = length (method_name frame2) ->
  length (path frame1) = length (path frame2) ->
  cstr (method_name (read_frame m pc body frame1 vo))
  = cstr (method_name (read_frame m pc body frame2 vo))
  /\ cstr (path (read_frame m pc body frame1 vo))
     = cstr (path (read_frame m pc body frame2 vo))
  /\ lineno (read_frame m pc body frame1 vo)
     = lineno (read_frame m pc body frame2 vo).
Proof.
  intros Hpath Hmn Hpa. unfold read_frame.
  destruct (frame_path m body vo) as [path_ptr|]; [|contradiction].
  simpl. split; [|split; [|reflexivity]]; apply cstr_read_ruby_string; assumption.
Qed.


(** ** The frame tables under [find_or_insert_frame] *)

Lemma lookup_bpf_map_update_elem_ne `{Countable K} {V} max_entries
    (map : gmap K V) key value key' :
  key <> key' ->
  bpf_map_update_elem max_entries map key value !! key' = map !! key'.
Proof.
  intros Hne. unfold bpf_map_update_elem.
  destruct (map !! key); [apply lookup_insert_ne; exact Hne|].
  destruct (Z.of_nat (base.size map) <? max_entries);
    [apply lookup_insert_ne; exact Hne | reflexivity].
Qed.

Lemma lookup_bpf_map_update_elem_eq `{Countable K} {V} max_entries
    (map : gmap K V) key value :
  is_Some (map !! key) \/ Z.of_nat (base.size map) < max_entries ->
  bpf_map_update_elem max_entries map key value !! key = Some value.
Proof.
  intros Hroom. unfold bpf_map_update_elem.
  destruct (map !! key) as [old|] eqn:E; [apply lookup_insert_eq|].
  destruct Hroom as [[? [=]] | Hlt].
  destruct (Z.ltb_spec (Z.of_nat (base.size map)) max_entries);
    [apply lookup_insert_eq | lia].
Qed.

Lemma bpf_map_update_elem_full `{Countable K} {V} max_entries
    (map : gmap K V) key value :
  map !! key = None -> max_entries <= Z.of_nat (base.size map) ->
  bpf_map_update_elem max_entries map key value = map.
Proof.
  intros Hnone Hfull. unfold bpf_map_update_elem. rewrite Hnone.
  destruct (Z.ltb_spec (Z.of_nat (base.size map)) max_entries); [lia | reflexivity].
Qed.

(** X4. Interning a frame and looking it up again: after one call, with
    tables that agree and are not full, [stack_to_id] maps the frame to
    the returned id and [id_to_stack] maps that id to the frame, also when
    the id drawn was already in use. *)
Theorem find_or_insert_frame_round_trip e frame w :
  tables_agree w ->
  Z.of_nat (base.size (stack_to_id w)) < frame_map_entries ->
  Z.of_nat (base.size (id_to_stack w)) < frame_map_entries ->
  stack_to_id (find_or_insert_frame e frame w).2 !! frame
  = Some (find_or_insert_frame e frame w).1
  /\ id_to_stack (find_or_insert_frame e frame w).2
     !! (find_or_insert_frame e frame w).1 = Some frame.
Proof.
  intros Hag Hs Hi. unfold find_or_insert_frame.
  destruct (stack_to_id w !! frame) as [found|] eqn:E; simpl.
  - split; [exact E | apply Hag; exact E].
  - split; apply lookup_bpf_map_update_elem_eq; right; assumption.
Qed.

(** X5. Interning is idempotent: when the frame is known, or
    [stack_to_id] has room for it, a second call with the same frame
    returns the same id, draws no random number and leaves both tables as
    the first call left them. *)
Theorem find_or_insert_frame_again e frame w :
  is_Some (stack_to_id w !! frame)
  \/ Z.of_nat (base.size (stack_to_id w)) < frame_map_entries ->
  let first := find_or_insert_frame e frame w in
  let second := find_or_insert_frame e frame first.2 in
  second.1 = first.1
  /\ stack_to_id second.2 = stack_to_id first.2
  /\ id_to_stack second.2 = id_to_stack first.2
  /\ prandom_next second.2 = prandom_next first.2.
Proof.
  intros Hroom. cbv zeta.
  assert (Hknown : stack_to_id (find_or_insert_frame e frame w).2 !! frame
                   = Some (find_or_insert_frame e frame w).1).
  { unfold find_or_insert_frame.
    destruct (stack_to_id w !! frame) as [found|] eqn:E; simpl; [exact E|].
    apply lookup_bpf_map_update_elem_eq. destruct Hroom as [[? [=]] | Hlt].
    right. exact Hlt. }
  destruct (find_or_insert_frame e frame w) as [id w1]. simpl in *.
  unfold find_or_insert_frame. rewrite Hknown. simpl. auto.
Qed.

(** X6. On a full [stack_to_id] an unknown frame still gets an id, the
    random number drawn, but the table does not take it: the frame stays
    unknown and the next call for it returns the next random number, so
    the same frame gets two different ids unless the random source
    repeats itself. *)
Theorem find_or_insert_frame_full e frame w :
  stack_to_id w !! frame = None ->
  frame_map_entries <= Z.of_nat (base.size (stack_to_id w)) ->
  let first := find_or_insert_frame e frame w in
  let second := find_or_insert_frame e frame first.2 in
  first.1 = wrap32 (prandom e (prandom_next w))
  /\ stack_to_id first.2 = stack_to_id w
  /\ stack_to_id first.2 !! frame = None
  /\ second.1 = wrap32 (prandom e (S (prandom_next w)))
  /\ (wrap32 (prandom e (S (prandom_next w))) <> wrap32 (prandom e (prandom_next w)) ->
      second.1 <> first.1).
Proof.
  intros Hnone Hfull. cbv zeta.
  assert (Hfirst :
    find_or_insert_frame e frame w
    = (wrap32 (prandom e (prandom_next w)),
       note (ActIntern frame (wrap32 (prandom e (prandom_next w))))
         (set_frame_maps (stack_to_id w)
            (bpf_map_update_elem frame_map_entries (id_to_stack w)
               (wrap32 (prandom e (prandom_next w))) frame)
            (S (prandom_next w)) w))).
  { unfold find_or_insert_frame. rewrite Hnone. cbv zeta.
    rewrite (bpf_map_update_elem_full frame_map_entries (stack_to_id w))
      by assumption.
    reflexivity. }
  rewrite Hfirst. cbn [fst snd].
  assert (Hsecond :
    (find_or_insert_frame e frame
       (note (ActIntern frame (wrap32 (prandom e (prandom_next w))))
          (set_frame_maps (stack_to_id w)
             (bpf_map_update_elem frame_map_entries (id_to_stack w)
                (wrap32 (prandom e (prandom_next w))) frame)
             (S (prandom_next w)) w))).1
    = wrap32 (prandom e (S (prandom_next w)))).
  { unfold find_or_insert_frame.
    cbn [stack_to_id note set_frame_maps prandom_next].
    rewrite Hnone. reflexivity. }
  split; [reflexivity|]. split; [reflexivity|].
  split; [exact Hnone|]. split; [exact Hsecond|].
  intros Hne. rewrite Hsecond. exact Hne.
Qed.

(** ** What the walker keeps of the world *)

Section Steady.
Context {H : Header}.
Variable e : Env.

Lemma steady_refl w : steady w w.
Proof. constructor; auto; lia. Qed.

Lemma steady_trans w1 w2 w3 : steady w1 w2 -> steady w2 w3 -> steady w1 w3.
Proof.
  intros [A1 A2 A3 A4 A5 A6 A7 A8 A9 A10]
         [B1 B2 B3 B4 B5 B6 B7 B8 B9 B10].
  constructor; try congruence; auto; try lia.
  intros i Hi. rewrite B10 by exact Hi. apply A10. lia.
Qed.

(** The steps that write neither the tables nor the sample but for its
    status. *)
Lemma steady_same w w' :
  stack_to_id w' = stack_to_id w
  /\ pid_to_rb_thread w' = pid_to_rb_thread w
  /\ timestamp (stack (global_state w')) = timestamp (stack (global_state w))
  /\ pid (stack (global_state w')) = pid (stack (global_state w))
  /\ cpu (stack (global_state w')) = cpu (stack (global_state w))
  /\ syscall_id (stack (global_state w')) = syscall_id (stack (global_state w))
  /\ comm (stack (global_state w')) = comm (stack (global_state w))
  /\ expected_size (stack (global_state w')) = expected_size (stack (global_state w))
  /\ size (stack (global_state w')) = size (stack (global_state w))
  /\ frames (stack (global_state w')) = frames (stack (global_state w)) ->
  steady w w'.
Proof.
  intros (Hs & Hp & Ht & Hpid & Hc & Hsys & Hcomm & Hx & Hz & Hf).
  constructor; rewrite ?Hs, ?Hz, ?Hf; auto; lia.
Qed.

Lemma record_frame_steady frame w : steady w (record_frame e frame w).
Proof.
  destruct (record_frame_cases e frame w) as [[_ ->] | [Hlt Heq]];
    [apply steady_refl|].
  destruct (find_or_insert_frame_state e frame w) as (_ & _ & Hp & _).
  assert (Hids : forall frame' id,
             stack_to_id w !! frame' = Some id ->
             stack_to_id (find_or_insert_frame e frame w).2 !! frame' = Some id).
  { unfold find_or_insert_frame.
    destruct (stack_to_id w !! frame) as [found|] eqn:E; simpl; [auto|].
    intros frame' id Hl. rewrite lookup_bpf_map_update_elem_ne; [exact Hl|].
    intros <-. congruence. }
  rewrite Heq. constructor; simpl; auto; try lia.
  intros i Hi. apply list_lookup_insert_ne. lia.
Qed.

Lemma walk_loop_steady vo sz n cfp_ frame w :
  steady w (walk_loop e vo sz n (cfp_, frame, w)).2.
Proof.
  apply (walk_loop_ind e (fun l => steady w l.2)); [|apply steady_refl].
  intros [[c f] w1] l' Hst Hit.
  apply walk_iteration_some in Hit as (_ & a & f' & _ & _ & _ & _ & _ & ->).
  simpl in *. eapply steady_trans; [exact Hst|].
  eapply steady_trans; [|apply record_frame_steady].
  apply steady_same. same_fields.
Qed.

Lemma walk_ruby_stack_steady tail_ok w w' jumped :
  walk_ruby_stack e tail_ok w = (w', jumped) -> steady w w'.
Proof.
  intros Hw.
  apply walk_ruby_stack_inv in Hw
    as [(_ & -> & _) | (vo & cfp_ & frame & wl & _ & Hl & Hcase)].
  - apply steady_same. same_fields.
  - pose proof (walk_loop_steady vo (wrap64 (control_frame_t_sizeof vo))
                  (Z.to_nat MAX_STACKS_PER_PROGRAM) (cfp (global_state w))
                  empty_frame (loop_start w)) as Hwl.
    rewrite Hl in Hwl. simpl in Hwl.
    eapply steady_trans; [apply (steady_same w (loop_start w)); same_fields|].
    eapply steady_trans; [exact Hwl|].
    destruct Hcase as [(_ & -> & _) | (_ & -> & _)];
      apply steady_same; same_fields.
Qed.

Lemma walk_chain_steady calls w : steady w (walk_chain e calls w).
Proof.
  apply (walk_chain_ind e (fun _ w1 => steady w w1) (steady w));
    [| |apply steady_refl];
    intros n w1 w2 Hst Hw; (eapply steady_trans; [exact Hst|]);
    eapply walk_ruby_stack_steady; exact Hw.
Qed.
End Steady.

(** ** A sampled event and the shared tables *)

Section Event.
Context {H : Header}.
Variable e : Env.

(** A sampled event ends in [on_event], or in the chain that the world
    [on_event] leaves goes through. *)
Lemma sample_cases c w :
  (exists tail_ok, on_event e tail_ok c w = (sample e c w, false))
  \/ exists calls w1,
       tail_call_limit e = S calls
       /\ on_event e (programs e) c w = (w1, true)
       /\ sample e c w = walk_chain e calls w1
       /\ steady w1 (sample e c w).
Proof.
  destruct (sample_inv e c w) as [Hab | (calls & w1 & Hlim & Hon & Hs)].
  - left. eauto.
  - right. exists calls, w1. repeat (split; [assumption|]).
    rewrite Hs. apply walk_chain_steady.
Qed.

Lemma pid_race_check_some c pd pd' :
  pid_race_check e c pd = Some pd' ->
  rb_frame_addr pd' = rb_frame_addr pd
  /\ rb_version pd' = rb_version pd
  /\ (start_time pd' = start_time pd
      \/ (start_time pd = 0 /\ start_time pd' = task_start_time c))
  /\ (enable_pid_race_detector (rodata e) = false -> pd' = pd).
Proof.
  unfold pid_race_check.
  destruct (enable_pid_race_detector (rodata e)).
  - destruct (Z.eqb_spec (start_time pd) 0) as [Hz|Hnz].
    + intros [= <-]. simpl. split; [reflexivity|]. split; [reflexivity|].
      split; [right; auto | discriminate].
    + destruct (start_time pd =? task_start_time c); simpl; [|discriminate].
      intros [= <-]. split; [reflexivity|]. split; [reflexivity|].
      split; [left; reflexivity | discriminate].
  - intros [= <-]. auto.
Qed.

(** The registry [on_event] leaves: untouched, or with the record of the
    sampled pid as the PID-reuse check returned it. *)
Lemma on_event_registry tail_ok c w :
  pid_to_rb_thread (on_event e tail_ok c w).1 = pid_to_rb_thread w
  \/ exists pd pd',
       pid_to_rb_thread w !! event_pid c = Some pd
       /\ pid_race_check e c pd = Some pd'
       /\ pid_to_rb_thread (on_event e tail_ok c w).1
          = <[event_pid c := pd']> (pid_to_rb_thread w).
Proof.
  unfold on_event. cbv zeta.
  destruct (pid_to_rb_thread w !! event_pid c) as [pd|] eqn:Hpd; [|left; reflexivity].
  destruct (rb_frame_addr pd =? 0); cbn [negb]; [left; reflexivity|].
  destruct (task c =? 0); [left; reflexivity|].
  destruct (pid_race_check e c pd) as [pd'|] eqn:Hg; [|left; reflexivity].
  right. exists pd, pd'. split; [reflexivity|]. split; [exact Hg|].
  destruct (lookup_offsets e (rb_version pd')); reflexivity.
Qed.

(** The walker leaves the registry to [on_event]. *)
Lemma sample_registry c w :
  exists tail_ok,
    pid_to_rb_thread (sample e c w) = pid_to_rb_thread (on_event e tail_ok c w).1.
Proof.
  destruct (sample_cases c w) as [(tail_ok & Hab) | (calls & w1 & _ & Hon & _ & Hst)].
  - exists tail_ok. rewrite Hab. reflexivity.
  - exists (programs e). rewrite Hon. apply (sd_registry _ _ Hst).
Qed.

(** [on_event] does not write the frame tables. *)
Lemma on_event_tables tail_ok c w :
  stack_to_id (on_event e tail_ok c w).1 = stack_to_id w
  /\ id_to_stack (on_event e tail_ok c w).1 = id_to_stack w.
Proof.
  destruct (on_event e tail_ok c w) as [w1 j] eqn:E.
  pose proof E as E'.
  apply on_event_inv in E' as [(_ & _ & _ & Hi & Hs & _) | (-> & _ & _)].
  - simpl. auto.
  - apply on_event_primed in E as (_ & _ & _ & _ & _ & Hi & Hs & _). simpl. auto.
Qed.

End Event.

(** X7. A sampled event touches the registry only at the sampled pid and
    only in the start time: other entries stay, no entry appears or goes,
    the thread pointer and the version tag stay, the start time changes
    only from 0 to the observed one, and not at all with the guard
    switched off. *)
Theorem registry_after_event {H : Header} e c w :
  (forall p, p <> event_pid c ->
             pid_to_rb_thread (sample e c w) !! p = pid_to_rb_thread w !! p)
  /\ (pid_to_rb_thread w !! event_pid c = None ->
      pid_to_rb_thread (sample e c w) !! event_pid c = None)
  /\ (forall pd,
         pid_to_rb_thread w !! event_pid c = Some pd ->
         exists pd',
           pid_to_rb_thread (sample e c w) !! event_pid c = Some pd'
           /\ rb_frame_addr pd' = rb_frame_addr pd
           /\ rb_version pd' = rb_version pd
           /\ (start_time pd' = start_time pd
               \/ (start_time pd = 0 /\ start_time pd' = task_start_time c))
           /\ (enable_pid_race_detector (rodata e) = false -> pd' = pd)).
Proof.
  destruct (sample_registry e c w) as (tail_ok & ->).
  destruct (on_event_registry e tail_ok c w)
    as [-> | (pd0 & pd0' & Hpd0 & Hg & ->)].
  - split; [reflexivity|]. split; [auto|].
    intros pd Hpd. exists pd. split; [exact Hpd|]. auto.
  - split; [intros p Hp; apply lookup_insert_ne; congruence|].
    split; [congruence|].
    intros pd Hpd. assert (pd0 = pd) as -> by congruence.
    exists pd0'. split; [apply lookup_insert_eq|].
    apply pid_race_check_some. exact Hg.
Qed.

(** X8. The ids of [stack_to_id] are stable: a frame that has an id when
    the event fires has the same id after it. *)
Theorem sample_keeps_ids {H : Header} e c w frame id :
  stack_to_id w !! frame = Some id ->
  stack_to_id (sample e c w) !! frame = Some id.
Proof.
  destruct (sample_cases e c w)
    as [(tail_ok & Hab) | (calls & w1 & _ & Hon & _ & Hst)].
  - destruct (on_event_tables e tail_ok c w) as (Hs & _).
    rewrite Hab in Hs. cbn [fst] in Hs. rewrite Hs. auto.
  - destruct (on_event_tables e (programs e) c w) as (Hs & _).
    rewrite Hon in Hs. cbn [fst] in Hs. rewrite <- Hs.
    apply (sd_ids _ _ Hst).
Qed.

(** ** The pace of the walk and the frame array *)

Lemma walked_S start sz n :
  walked start sz (S n) = walked start sz n ++ [wrap64 (start + Z.of_nat n * sz)].
Proof. unfold walked. rewrite seq_S, fmap_app. reflexivity. Qed.

Section Pace.
Context {H : Header}.
Variable e : Env.
Variables (before : list (RubyFrame * Z)) (seen : list Z) (start sz : Z).

Lemma on_pace_same cfp_ w w' :
  decoded (actions w') = decoded (actions w) ->
  size (stack (global_state w')) = size (stack (global_state w)) ->
  on_pace seen start sz cfp_ w -> on_pace seen start sz cfp_ w'.
Proof.
  intros Hd Hs (n & Hdec & Hsz & Hcfp). exists n. rewrite Hd, Hs. auto.
Qed.

Lemma filled_same w w' :
  interned (actions w') = interned (actions w) ->
  size (stack (global_state w')) = size (stack (global_state w)) ->
  frames (stack (global_state w')) = frames (stack (global_state w)) ->
  filled before w -> filled before w'.
Proof.
  intros Hi Hs Hf [Hl Hc]. constructor; rewrite ?Hi, ?Hs, ?Hf; assumption.
Qed.

Lemma record_frame_filled frame w :
  filled before w -> filled before (record_frame e frame w).
Proof.
  intros Hfl.
  destruct (record_frame_cases e frame w) as [[_ ->] | [Hlt _]]; [exact Hfl|].
  destruct (record_frame_push e frame w Hlt) as (id & Hf & Hz & Ha & _).
  destruct Hfl as [Hlen (calls & Hc & Hcl & Htake)].
  constructor.
  - rewrite Hf, length_insert. exact Hlen.
  - exists (calls ++ [(frame, id)]).
    rewrite Ha, Hc, <- app_assoc. split; [reflexivity|].
    rewrite length_app, Hz, Hf. simpl length. split; [lia|].
    replace (Z.to_nat (size (stack (global_state w)))) with (length calls) by lia.
    replace (length calls + 1)%nat with (S (length calls)) by lia.
    rewrite (take_S_r _ _ id) by (apply list_lookup_insert_eq; lia).
    rewrite take_insert_ge by lia.
    rewrite Htake, fmap_app. reflexivity.
Qed.

Lemma walk_iteration_pace vo cfp_ frame w l' :
  on_pace seen start sz cfp_ w ->
  walk_iteration e vo sz (cfp_, frame, w) = Some l' ->
  on_pace seen start sz l'.1.1 l'.2.
Proof.
  intros (n & Hdec & Hsz & Hcfp) Hit.
  apply walk_iteration_some in Hit as (_ & a & f' & Hd & _ & _ & _ & _ & ->).
  cbn [fst snd].
  destruct (record_frame_log e f' (note a w)) as (tl & Ha & _ & _ & Htl & _).
  exists (S n). rewrite Ha. cbn [actions note].
  rewrite !decoded_app, Hd, Htl, app_nil_r, Hdec, walked_S, <- Hcfp, <- app_assoc.
  split; [reflexivity|]. split.
  - destruct (record_frame_cases e f' (note a w)) as [[Hno ->] | [Hlt _]].
    + cbn [global_state note] in *. lia.
    + destruct (record_frame_push e f' (note a w) Hlt) as (id & _ & Hz & _).
      rewrite Hz. cbn [global_state note] in *. lia.
  - rewrite Hcfp, wrap64_add_l. f_equal. lia.
Qed.

Lemma walk_loop_pace vo n cfp_ frame w :
  on_pace seen start sz cfp_ w ->
  on_pace seen start sz (walk_loop e vo sz n (cfp_, frame, w)).1.1
    (walk_loop e vo sz n (cfp_, frame, w)).2.
Proof.
  intros Hp.
  apply (walk_loop_ind e (fun l => on_pace seen start sz l.1.1 l.2));
    [|exact Hp].
  intros [[c f] w1] l' Hl Hit. eapply walk_iteration_pace; eassumption.
Qed.

Lemma walk_loop_filled vo sz' n cfp_ frame w :
  filled before w -> filled before (walk_loop e vo sz' n (cfp_, frame, w)).2.
Proof.
  intros Hf.
  apply (walk_loop_ind e (fun l => filled before l.2)); [|exact Hf].
  intros [[c f] w1] l' Hl Hit.
  apply walk_iteration_some in Hit as (_ & a & f' & _ & _ & _ & Hi & _ & ->).
  cbn [snd] in *. apply record_frame_filled.
  revert Hl. apply filled_same; try reflexivity.
  cbn [actions note]. rewrite interned_app, Hi, app_nil_r. reflexivity.
Qed.

Lemma walk_ruby_stack_pace tail_ok w w' jumped vo :
  lookup_offsets e (st_rb_version (global_state w)) = Some vo ->
  sz = wrap64 (control_frame_t_sizeof vo) ->
  walk_ruby_stack e tail_ok w = (w', jumped) ->
  on_pace seen start sz (cfp (global_state w)) w ->
  on_pace seen start sz (cfp (global_state w')) w'.
Proof.
  intros Hvo Hsz Hw Hp.
  apply walk_ruby_stack_inv in Hw
    as [(Hno & _) | (vo' & cfp_ & frame & wl & Hvo' & Hl & Hcase)];
    [congruence|].
  assert (vo' = vo) as -> by congruence. rewrite <- Hsz in Hl.
  assert (Hstart : on_pace seen start sz (cfp (global_state w)) (loop_start w)).
  { revert Hp. apply on_pace_same; [|reflexivity].
    cbn [loop_start actions set_global_state note].
    rewrite decoded_app, app_nil_r. reflexivity. }
  pose proof (walk_loop_pace vo (Z.to_nat MAX_STACKS_PER_PROGRAM) _ empty_frame _ Hstart)
    as Hend.
  rewrite Hl in Hend. cbn [fst snd] in Hend.
  destruct Hcase as [(_ & -> & _) | (_ & -> & _)]; revert Hend;
    apply on_pace_same; try reflexivity.
  cbn [published loop_end actions output set_global_state].
  rewrite decoded_app, app_nil_r. reflexivity.
Qed.

Lemma walk_ruby_stack_filled tail_ok w w' jumped :
  walk_ruby_stack e tail_ok w = (w', jumped) ->
  filled before w -> filled before w'.
Proof.
  intros Hw Hf.
  apply walk_ruby_stack_inv in Hw
    as [(_ & -> & _) | (vo & cfp_ & frame & wl & _ & Hl & Hcase)].
  - revert Hf. apply filled_same; try reflexivity.
    cbn [actions note]. rewrite interned_app, app_nil_r. reflexivity.
  - assert (Hstart : filled before (loop_start w)).
    { revert Hf. apply filled_same; try reflexivity.
      cbn [loop_start actions set_global_state note].
      rewrite interned_app, app_nil_r. reflexivity. }
    pose proof (walk_loop_filled vo (wrap64 (control_frame_t_sizeof vo))
                  (Z.to_nat MAX_STACKS_PER_PROGRAM) (cfp (global_state w))
                  empty_frame _ Hstart) as Hend.
    rewrite Hl in Hend. cbn [snd] in Hend.
    destruct Hcase as [(_ & -> & _) | (_ & -> & _)]; revert Hend;
      apply filled_same; try reflexivity.
    cbn [published loop_end actions output set_global_state].
    rewrite interned_app, app_nil_r. reflexivity.
Qed.

Lemma walk_chain_pace calls w vo :
  lookup_offsets e (st_rb_version (global_state w)) = Some vo ->
  sz = wrap64 (control_frame_t_sizeof vo) ->
  on_pace seen start sz (cfp (global_state w)) w ->
  on_pace seen start sz (cfp (global_state (walk_chain e calls w)))
    (walk_chain e calls w).
Proof.
  intros Hvo Hsz Hp.
  apply (walk_chain_ind e
           (fun _ w1 => lookup_offsets e (st_rb_version (global_state w1)) = Some vo
                        /\ on_pace seen start sz (cfp (global_state w1)) w1)
           (fun w1 => on_pace seen start sz (cfp (global_state w1)) w1) );
    [| |split; assumption].
  - intros n w1 w2 [Hv1 Hp1] Hw. split.
    + pose proof (walk_ruby_stack_summary e _ _ _ _ Hw (ex_intro _ vo Hv1))
        as (Hv & _).
      cbv zeta in Hv. rewrite Hv. exact Hv1.
    + eapply walk_ruby_stack_pace; eassumption.
  - intros n w1 w2 [Hv1 Hp1] Hw. eapply walk_ruby_stack_pace; eassumption.
Qed.

Lemma walk_chain_filled calls w :
  filled before w -> filled before (walk_chain e calls w).
Proof.
  intros Hf.
  apply (walk_chain_ind e (fun _ w1 => filled before w1) (filled before));
    [| |exact Hf];
    intros n w1 w2 Hf1 Hw; eapply walk_ruby_stack_filled; eassumption.
Qed.
End Pace.

(** ** The published record *)

Section Published.
Context {H : Header}.
Variable e : Env.

(** What an event that reaches the walker leaves: the record on top of
    the channel is the one of the sample state, the log has grown, and the
    frames and the expected size are the ones [on_event] left. *)
Lemma sample_chain c w w1 calls :
  tail_call_limit e = S calls ->
  on_event e (programs e) c w = (w1, true) ->
  let s := global_state (sample e c w) in
  events (sample e c w) = stack s :: events w
  /\ actions (sample e c w) = actions w ++ actions_since w (sample e c w)
  /\ base_stack s = base_stack (global_state w1)
  /\ (stack_status (stack s) = STACK_COMPLETE <-> cfp s > base_stack s)
  /\ steady w1 (sample e c w).
Proof.
  intros Hlim Hon. cbv zeta.
  assert (Hs : sample e c w = walk_chain e calls w1).
  { unfold sample. rewrite Hlim, Hon. reflexivity. }
  apply on_event_primed in Hon as (Hsome & _ & _ & He1 & Ha1 & _).
  pose proof (walk_chain_publishes e calls w1 Hsome)
    as (Hpub & (pre & Ha & _) & _ & Hb & _ & Hst).
  cbv zeta in Hpub, Hst. rewrite <- Hs in Hpub, Ha, Hb, Hst.
  rewrite He1 in Hpub. rewrite Ha1 in Ha.
  split; [exact Hpub|].
  split; [rewrite (actions_since_app _ _ _ Ha); exact Ha|].
  split; [exact Hb|]. split; [|rewrite Hs; apply walk_chain_steady].
  rewrite Hst.
  destruct (cfp (global_state (sample e c w))
            >? base_stack (global_state (sample e c w))) eqn:E.
  - split; [lia | reflexivity].
  - split; [discriminate | lia].
Qed.

(** [on_event] leaves a walking pointer of 64 bits. *)
Lemma on_event_cfp tail_ok c w w1 :
  on_event e tail_ok c w = (w1, true) ->
  wrap64 (cfp (global_state w1)) = cfp (global_state w1).
Proof.
  intros Hon. apply on_event_inv in Hon
    as [(? & _) | (_ & _ & pd & pd' & vo & _ & _ & _ & _ & _ & ->)];
    [discriminate|].
  apply wrap64_small.
  change (cfp (global_state _))
    with (wrap64 (rbperf_read (mem e) 8 (read_ec_addr e pd' vo + cfp_offset vo)
                  + control_frame_t_sizeof vo)).
  apply wrap64_range.
Qed.

(** The pace of a sampled event that reaches the walker. *)
Lemma sample_pace c w w1 vo :
  0 <= MAX_STACK ->
  tail_call_limit e <> O ->
  on_event e (programs e) c w = (w1, true) ->
  lookup_offsets e (st_rb_version (global_state w1)) = Some vo ->
  let s := global_state (sample e c w) in
  let start := cfp (global_state w1) in
  let sz := wrap64 (control_frame_t_sizeof vo) in
  exists n,
    decoded (actions_since w (sample e c w)) = walked start sz n
    /\ (forall i, (i < n)%nat ->
                  wrap64 (start + Z.of_nat i * sz) <= base_stack (global_state w1))
    /\ cfp s = wrap64 (start + Z.of_nat n * sz)
    /\ size (stack s) = Z.min (Z.of_nat n) MAX_STACK.
Proof.
  intros Hmax Hlim Hon Hvo. cbv zeta.
  destruct (tail_call_limit e) as [|calls] eqn:El; [congruence|]. clear Hlim.
  destruct (sample_chain c w w1 calls El Hon) as (_ & Ha & Hb & _ & _).
  assert (Hs : sample e c w = walk_chain e calls w1).
  { unfold sample. rewrite El, Hon. reflexivity. }
  pose proof (on_event_cfp _ _ _ _ Hon) as Hc.
  pose proof Hon as Hon'.
  apply on_event_primed in Hon' as (_ & _ & Hz & _ & Ha1 & _).
  assert (Hp : on_pace (decoded (actions w)) (cfp (global_state w1))
                 (wrap64 (control_frame_t_sizeof vo)) (cfp (global_state w1)) w1).
  { exists O. rewrite Ha1, Hz. simpl walked. rewrite app_nil_r.
    split; [reflexivity|]. split; [lia|].
    rewrite Z.mul_0_l, Z.add_0_r. symmetry. exact Hc. }
  apply (walk_chain_pace e _ _ _ calls w1 vo Hvo eq_refl) in Hp.
  rewrite <- Hs in Hp. destruct Hp as (n & Hd & Hsz & Hcfp).
  exists n.
  assert (Hdn : decoded (actions_since w (sample e c w))
                = walked (cfp (global_state w1))
                    (wrap64 (control_frame_t_sizeof vo)) n).
  { rewrite Ha, decoded_app in Hd. apply app_inv_head in Hd. exact Hd. }
  split; [exact Hdn|]. split; [|split; assumption].
  intros i Hi. pose proof (sample_decoded_below e c w) as Hbelow.
  rewrite Hdn, Hb in Hbelow.
  apply (proj1 (Forall_lookup _ _) Hbelow i).
  unfold walked. rewrite list_lookup_fmap, lookup_seq_lt by exact Hi.
  reflexivity.
Qed.

(** The frame array of a sampled event that reaches the walker. *)
Lemma sample_filled c w w1 calls :
  length (frames (stack (global_state w))) = Z.to_nat MAX_STACK ->
  tail_call_limit e = S calls ->
  on_event e (programs e) c w = (w1, true) ->
  let s := global_state (sample e c w) in
  let ids := interned (actions_since w (sample e c w)) in
  Z.of_nat (length ids) = size (stack s)
  /\ frames (stack s)
     = ids.*2 ++ drop (length ids) (frames (stack (global_state w))).
Proof.
  intros Hlen Hlim Hon. cbv zeta.
  destruct (sample_chain c w w1 calls Hlim Hon) as (_ & Ha & _ & _ & Hst).
  assert (Hs : sample e c w = walk_chain e calls w1).
  { unfold sample. rewrite Hlim, Hon. reflexivity. }
  apply on_event_primed in Hon as (_ & _ & Hz & _ & Ha1 & _ & _ & _ & Hf1).
  assert (Hfl : filled (interned (actions w)) w1).
  { constructor; [rewrite Hf1; exact Hlen|].
    exists []. rewrite Ha1, Hz, app_nil_r. auto. }
  apply (walk_chain_filled e _ calls) in Hfl. rewrite <- Hs in Hfl.
  destruct Hfl as [_ (ids & Hi & Hil & Htake)].
  rewrite Ha, interned_app in Hi. apply app_inv_head in Hi. rewrite Hi.
  split; [exact Hil|].
  rewrite <- Htake.
  rewrite <- (take_drop (length ids) (frames (stack (global_state (sample e c w)))))
    at 1.
  f_equal. apply list_eq. intros i. rewrite !lookup_drop, <- Hf1.
  apply (sd_tail _ _ Hst). lia.
Qed.
End Published.

(** The record a sampled event adds to the channel is the one of the
    sample state, and the event went through [on_event] into the walker. *)
Lemma sample_record {H : Header} e c w r :
  events (sample e c w) = r :: events w ->
  r = stack (global_state (sample e c w))
  /\ exists calls w1,
       tail_call_limit e = S calls
       /\ on_event e (programs e) c w = (w1, true).
Proof.
  intros Hev.
  destruct (sample_published e c w r Hev) as (calls & w1 & Hlim & Hon & _).
  destruct (sample_chain e c w w1 calls Hlim Hon) as (Hpub & _).
  rewrite Hev in Hpub. injection Hpub as Hr. eauto.
Qed.

(** An event that is not let into the walker publishes nothing and
    leaves the frame tables, the random source and the log alone. *)
Lemma sample_stopped {H : Header} e c w tail_ok :
  on_event e tail_ok c w = (sample e c w, false) ->
  events (sample e c w) = events w
  /\ actions (sample e c w) = actions w
  /\ stack_to_id (sample e c w) = stack_to_id w
  /\ id_to_stack (sample e c w) = id_to_stack w
  /\ prandom_next (sample e c w) = prandom_next w.
Proof.
  intros Hon. apply on_event_inv in Hon
    as [(_ & He & Ha & Hi & Hs & Hp) | (? & _)]; [auto|discriminate].
Qed.

(** An event the PID-reuse check turns down changes nothing. *)
Lemma sample_turned_down {H : Header} e c w pd :
  pid_to_rb_thread w !! event_pid c = Some pd ->
  pid_race_check e c pd = None ->
  sample e c w = w.
Proof.
  intros Hpd Hg.
  assert (Hon : forall tail_ok, on_event e tail_ok c w = (w, false)).
  { intros tail_ok. unfold on_event. cbv zeta. rewrite Hpd, Hg.
    destruct (rb_frame_addr pd =? 0); cbn [negb]; [reflexivity|].
    destruct (task c =? 0); reflexivity. }
  unfold sample. destruct (tail_call_limit e); rewrite Hon; reflexivity.
Qed.

(** X9. The walk of one sampled event, over all the walker invocations
    of its chain: the control frames decoded are, in order and without a
    gap, the ones at [start], [start + sz], ... on 64 bits, for [start]
    the pointer [on_event] leaves and [sz] the frame size of the version;
    each of them lies at or below [base_stack]; the walking pointer ends
    on the next one, and the sample is COMPLETE exactly when that one lies
    above [base_stack]; [size] is their number, capped at [MAX_STACK]. *)
Theorem sample_walks_in_order {H : Header} e c w w1 vo :
  0 <= MAX_STACK ->
  tail_call_limit e <> O ->
  on_event e (programs e) c w = (w1, true) ->
  lookup_offsets e (st_rb_version (global_state w1)) = Some vo ->
  let s := global_state (sample e c w) in
  let start := cfp (global_state w1) in
  let sz := wrap64 (control_frame_t_sizeof vo) in
  exists n,
    decoded (actions_since w (sample e c w)) = walked start sz n
    /\ (forall i, (i < n)%nat ->
                  wrap64 (start + Z.of_nat i * sz) <= base_stack s)
    /\ cfp s = wrap64 (start + Z.of_nat n * sz)
    /\ (stack_status (stack s) = STACK_COMPLETE
        <-> wrap64 (start + Z.of_nat n * sz) > base_stack s)
    /\ size (stack s) = Z.min (Z.of_nat n) MAX_STACK
    /\ events (sample e c w) = stack s :: events w.
Proof.
  intros Hmax Hlim Hon Hvo. cbv zeta.
  destruct (sample_pace e c w w1 vo Hmax Hlim Hon Hvo)
    as (n & Hd & Hbelow & Hcfp & Hsz).
  destruct (tail_call_limit e) as [|calls] eqn:El; [congruence|].
  destruct (sample_chain e c w w1 calls El Hon) as (Hpub & _ & Hb & Hst & _).
  exists n. split; [exact Hd|].
  split; [intros i Hi; rewrite Hb; apply Hbelow; exact Hi|].
  split; [exact Hcfp|]. split; [rewrite <- Hcfp; exact Hst|].
  split; [exact Hsz | exact Hpub].
Qed.

(** X10. The frame array of a published record: its first [size]
    positions hold the ids [find_or_insert_frame] returned during the
    event, in the order of the calls, one call for each position; from
    position [size] on it still holds what the array held before the
    event. *)
Theorem published_frames {H : Header} e c w r :
  length (frames (stack (global_state w))) = Z.to_nat MAX_STACK ->
  events (sample e c w) = r :: events w ->
  let ids := interned (actions_since w (sample e c w)) in
  Z.of_nat (length ids) = size r
  /\ frames r = ids.*2 ++ drop (length ids) (frames (stack (global_state w))).
Proof.
  intros Hlen Hev.
  destruct (sample_record e c w r Hev) as (-> & calls & w1 & Hlim & Hon).
  exact (sample_filled e c w w1 calls Hlen Hlim Hon).
Qed.

(** X11. The head of a published record is the one of the event that
    fired: its time, pid (the upper half of [pid_tgid]), cpu and command
    name, and a zero syscall id for an event that is not a syscall; and
    the pid is one the registry holds with a non-null thread pointer. *)
Theorem published_record_header {H : Header} e c w r :
  events (sample e c w) = r :: events w ->
  timestamp r = ktime_ns c
  /\ pid r = event_pid c
  /\ cpu r = smp_processor_id c
  /\ comm r = current_comm c
  /\ (event_type (rodata e) <> RBPERF_EVENT_SYSCALL -> syscall_id r = 0)
  /\ exists pd, pid_to_rb_thread w !! pid r = Some pd /\ rb_frame_addr pd <> 0.
Proof.
  intros Hev.
  destruct (sample_record e c w r Hev) as (-> & calls & w1 & Hlim & Hon).
  destruct (sample_chain e c w w1 calls Hlim Hon) as (_ & _ & _ & _ & Hst).
  destruct Hst as [_ _ Ht Hp Hc Hsy Hco _ _ _].
  rewrite Ht, Hp, Hc, Hsy, Hco.
  apply on_event_inv in Hon
    as [(? & _) | (_ & _ & pd & pd' & vo & Hpd & Ha & _ & _ & _ & ->)];
    [discriminate|].
  split; [reflexivity|]. split; [reflexivity|]. split; [reflexivity|].
  split; [reflexivity|]. split.
  - intros Hne. apply Z.eqb_neq in Hne.
    cbn [global_state set_global_state stack prime_state syscall_id].
    rewrite Hne. reflexivity.
  - exists pd. split; [exact Hpd | exact Ha].
Qed.

(** X12. For a stack that does not wrap around the address space (a
    positive frame size, the [cfp] read at entry not above [base_stack],
    the frame after [base_stack] still addressable), a sample published
    COMPLETE decoded exactly [expected_size] control frames, and its
    [size] is [expected_size], capped at [MAX_STACK]. *)
Theorem complete_sample_size {H : Header} e c w pd pd' vo r :
  0 <= MAX_STACK ->
  pid_to_rb_thread w !! event_pid c = Some pd ->
  pid_race_check e c pd = Some pd' ->
  lookup_offsets e (rb_version pd') = Some vo ->
  events (sample e c w) = r :: events w ->
  0 < control_frame_t_sizeof vo ->
  rbperf_read (mem e) 8 (read_ec_addr e pd' vo + cfp_offset vo)
  <= base_stack (global_state (sample e c w)) ->
  base_stack (global_state (sample e c w)) + control_frame_t_sizeof vo < 2 ^ 64 ->
  stack_status r = STACK_COMPLETE ->
  Z.of_nat (length (decoded (actions_since w (sample e c w)))) = expected_size r
  /\ size r = Z.min (expected_size r) MAX_STACK.
Proof.
  intros Hmax Hpd Hg Hvo Hev Hpos Hbelow Hroom Hcomplete.
  destruct (sample_record e c w r Hev) as (-> & calls & w1 & Hlim & Hon).
  pose proof Hon as Hon'.
  apply on_event_inv in Hon'
    as [(? & _) | (_ & _ & pd0 & pd0' & vo0 & Hpd0 & _ & _ & Hg0 & Hvo0 & Hw1)];
    [discriminate|].
  assert (pd0 = pd) as -> by congruence.
  assert (pd0' = pd') as -> by congruence.
  assert (vo0 = vo) as -> by congruence.
  set (cfp0 := rbperf_read (mem e) 8 (read_ec_addr e pd' vo + cfp_offset vo)) in *.
  assert (Hsome : lookup_offsets e (st_rb_version (global_state w1)) = Some vo)
    by (rewrite Hw1; exact Hvo).
  assert (Hcfp1 : cfp (global_state w1) = wrap64 (cfp0 + control_frame_t_sizeof vo))
    by (rewrite Hw1; reflexivity).
  assert (Hexp1 : expected_size (stack (global_state w1))
                  = wrap64 (base_stack (global_state w1) - cfp0)
                    / wrap64 (control_frame_t_sizeof vo))
    by (rewrite Hw1; reflexivity).
  assert (Hlim' : tail_call_limit e <> O) by congruence.
  destruct (sample_pace e c w w1 vo Hmax Hlim' Hon Hsome)
    as (n & Hd & Hle & Hcfp & Hsz).
  destruct (sample_chain e c w w1 calls Hlim Hon) as (_ & _ & Hb & Hst & Hsd).
  pose proof (sd_expected_size _ _ Hsd) as Hexp.
  apply Hst in Hcomplete.
  rewrite Hb in Hbelow, Hroom, Hcomplete. rewrite Hcfp in Hcomplete.
  rewrite Hexp, Hexp1, Hsz, Hd. unfold walked. rewrite length_fmap, length_seq.
  pose proof (rbperf_read_range (mem e) (read_ec_addr e pd' vo + cfp_offset vo)) as Hc0.
  fold cfp0 in Hc0.
  rewrite Hcfp1 in Hle, Hcomplete.
  set (base := base_stack (global_state w1)) in *.
  set (sz := control_frame_t_sizeof vo) in *.
  clearbody cfp0 base sz. clear - Hpos Hbelow Hroom Hc0 Hle Hcomplete.
  rewrite (wrap64_small sz) in * by lia.
  rewrite (wrap64_small (cfp0 + sz)) in * by lia.
  assert (Hnowrap : forall i, (i <= n)%nat ->
                              cfp0 + sz + Z.of_nat i * sz <= base + sz).
  { induction i as [|i IH]; intros Hi; [lia|].
    assert (Hi' : (i < n)%nat) by lia.
    specialize (IH ltac:(lia)). specialize (Hle i Hi').
    rewrite wrap64_small in Hle by nia. nia. }
  pose proof (Hnowrap n ltac:(lia)) as Hn.
  rewrite wrap64_small in Hcomplete by nia.
  assert (Hlow : cfp0 + Z.of_nat n * sz <= base).
  { destruct n as [|n']; [simpl; lia|].
    specialize (Hnowrap n' ltac:(lia)). specialize (Hle n' ltac:(lia)).
    rewrite wrap64_small in Hle by nia. nia. }
  rewrite (wrap64_small (base - cfp0)) by lia.
  assert (Hq : (base - cfp0) / sz = Z.of_nat n).
  { symmetry. apply (Z.div_unique_pos _ _ _ (base - cfp0 - Z.of_nat n * sz)); lia. }
  rewrite Hq. auto.
Qed.

(** X13. With the walker missing from the program array no event
    publishes a record, and the frame tables, the random source and the
    log stay as they are. *)
Theorem missing_walker_publishes_nothing {H : Header} e c w :
  programs e = false ->
  events (sample e c w) = events w
  /\ actions (sample e c w) = actions w
  /\ stack_to_id (sample e c w) = stack_to_id w
  /\ id_to_stack (sample e c w) = id_to_stack w
  /\ prandom_next (sample e c w) = prandom_next w.
Proof.
  intros Hprog.
  destruct (sample_inv e c w) as [Hab | (calls & w1 & _ & Hon & _)].
  - eapply sample_stopped. exact Hab.
  - apply on_event_inv in Hon as [(? & _) | (_ & Ht & _)]; congruence.
Qed.

(** X14. Two events on one pid: once the first event of a registered
    process with a zero start time has passed the guard, an event of a
    task with another start time on the same pid changes nothing at all:
    no record, no write to the registry, the tables or the sample
    state. *)
Theorem second_process_on_pid_is_ignored {H : Header} e c1 c2 w pd :
  enable_pid_race_detector (rodata e) = true ->
  pid_to_rb_thread w !! event_pid c1 = Some pd ->
  rb_frame_addr pd <> 0 -> task c1 <> 0 ->
  start_time pd = 0 -> task_start_time c1 <> 0 ->
  event_pid c2 = event_pid c1 ->
  task_start_time c2 <> task_start_time c1 ->
  sample e c2 (sample e c1 w) = sample e c1 w.
Proof.
  intros Hen Hpd Ha Ht Hz Hnz Hpid Hne.
  pose proof (pid_race_check_first e c1 pd Hen Hz) as Hg.
  set (pd' := {| rb_frame_addr := rb_frame_addr pd; rb_version := rb_version pd;
                 start_time := task_start_time c1 |}) in *.
  assert (Hstored : pid_to_rb_thread (sample e c1 w) !! event_pid c2 = Some pd').
  { destruct (sample_registry e c1 w) as (tail_ok & ->).
    rewrite (on_event_run e tail_ok c1 w pd pd' Hpd Ha Ht Hg), Hpid.
    cbv zeta. destruct (lookup_offsets e (rb_version pd'));
      cbn [fst pid_to_rb_thread set_global_state set_pid_to_rb_thread];
      apply lookup_insert_eq. }
  apply (sample_turned_down e c2 _ pd' Hstored).
  apply pid_race_check_mismatch; [exact Hen | exact Hnz | simpl; congruence].
Qed.

(** X15. What one turn of the loop hands to the interner and to the next
    turn.  For a native control frame only the method name is written:
    the record carries the native name with the path and the line the
    previous turn left.  For a control frame whose path object has neither
    of the two known types the record is the one of the previous turn,
    unchanged.  And while the frame array has room, that record is the
    one interned. *)
Theorem loop_carries_current_frame {H : Header} e vo sz cfp_ frame w cfp' frame' w' :
  walk_iteration e vo sz (cfp_, frame, w) = Some (cfp', frame', w') ->
  let iseq_addr := rbperf_read (mem e) 8 (cfp_ + iseq_offset) in
  let body := rbperf_read (mem e) 8 (iseq_addr + body_offset) in
  (iseq_addr = 0 ->
   Forall (fun b => b <> 0) NATIVE_METHOD_NAME ->
   cstr (method_name frame') = NATIVE_METHOD_NAME
   /\ path frame' = path frame /\ lineno frame' = lineno frame)
  /\ (iseq_addr <> 0 -> frame_path (mem e) body vo = None -> frame' = frame)
  /\ (0 <= size (stack (global_state w)) < MAX_STACK ->
      exists id, interned (actions w') = interned (actions w) ++ [(frame', id)]).
Proof.
  intros Hit. cbv zeta.
  assert (Hdec : frame' = (decode_frame e vo cfp_
                             (rbperf_read (mem e) 8 (cfp_ + iseq_offset))
                             (rbperf_read (mem e) 8 (rbperf_read (mem e) 8 (cfp_ + 0)))
                             frame w).1
                 /\ exists a, interned [a] = []
                              /\ w' = record_frame e frame' (note a w)).
  { unfold walk_iteration in Hit.
    destruct (cfp_ >? base_stack (global_state w)); [discriminate|].
    destruct (decode_frame_world e vo cfp_
                (rbperf_read (mem e) 8 (cfp_ + iseq_offset))
                (rbperf_read (mem e) 8 (rbperf_read (mem e) 8 (cfp_ + 0)))
                frame w) as (a & Hw & _ & _ & _ & Hi & _).
    destruct (decode_frame e vo cfp_ _ _ frame w) as [f1 w1].
    cbn [fst snd] in *. subst w1. injection Hit as _ <- <-.
    split; [reflexivity|]. exists a. auto. }
  destruct Hdec as (Hf & a & Hi & Hw').
  split; [|split].
  - intros Hz Hname. rewrite Hz in Hf. unfold decode_frame in Hf.
    rewrite Z.eqb_refl in Hf. cbn [fst] in Hf. subst frame'.
    cbn [native_frame method_name path lineno].
    split; [|split; reflexivity].
    unfold read_kernel_str, store_str. apply cstr_terminated. exact Hname.
  - intros Hnz Hpath. unfold decode_frame in Hf.
    apply Z.eqb_neq in Hnz. rewrite Hnz in Hf. cbn [fst] in Hf.
    unfold read_frame in Hf. rewrite Hpath in Hf. exact Hf.
  - intros Hlt.
    destruct (record_frame_push e frame' (note a w) Hlt) as (id & _ & _ & Ha & _).
    exists id. rewrite Hw', Ha. cbn [actions note].
    rewrite interned_app, Hi, app_nil_r. reflexivity.
Qed.

(** X16. The events [on_event] drops.  An event of a pid that is not
    registered, of a process registered with a null thread pointer, or
    with a null task changes nothing.  An event that passes the PID-reuse
    check for a version tag without offsets publishes nothing and leaves
    the sample state alone, but the registry holds what the check
    returned: the start time is recorded before the version is looked
    up. *)
Theorem dropped_events {H : Header} e c w :
  (pid_to_rb_thread w !! event_pid c = None -> sample e c w = w)
  /\ (forall pd,
         pid_to_rb_thread w !! event_pid c = Some pd ->
         rb_frame_addr pd = 0 \/ task c = 0 ->
         sample e c w = w)
  /\ (forall pd pd',
         pid_to_rb_thread w !! event_pid c = Some pd ->
         rb_frame_addr pd <> 0 -> task c <> 0 ->
         pid_race_check e c pd = Some pd' ->
         lookup_offsets e (rb_version pd') = None ->
         sample e c w
         = set_pid_to_rb_thread (<[event_pid c := pd']> (pid_to_rb_thread w)) w).
Proof.
  assert (Hdrop : forall w1,
             (forall tail_ok, on_event e tail_ok c w = (w1, false)) ->
             sample e c w = w1).
  { intros w1 Hon. unfold sample.
    destruct (tail_call_limit e); rewrite Hon; reflexivity. }
  split; [|split].
  - intros Hnone. apply Hdrop. intros tail_ok.
    unfold on_event. cbv zeta. rewrite Hnone. reflexivity.
  - intros pd Hpd Hnull. apply Hdrop. intros tail_ok.
    unfold on_event. cbv zeta. rewrite Hpd.
    destruct (Z.eqb_spec (rb_frame_addr pd) 0) as [Hz|Hnz]; cbn [negb];
      [reflexivity|].
    destruct Hnull as [Hz | Ht]; [contradiction|].
    rewrite Ht. reflexivity.
  - intros pd pd' Hpd Ha Ht Hg Hvo. apply Hdrop. intros tail_ok.
    rewrite (on_event_run e tail_ok c w pd pd' Hpd Ha Ht Hg).
    cbv zeta. rewrite Hvo. reflexivity.
Qed.

(** ** A sample that uses up the budget *)

Section Budget.
Context {H : Header}.
Variable e : Env.

(** A loop that ends at or below [base_stack] ran all its turns. *)
Lemma walk_loop_all_turns vo sz n cfp_ frame w :
  (walk_loop e vo sz n (cfp_, frame, w)).1.1 <= base_stack (global_state w) ->
  length (decoded (actions (walk_loop e vo sz n (cfp_, frame, w)).2))
  = (length (decoded (actions w)) + n)%nat.
Proof.
  revert cfp_ frame w.
  induction n as [|n IH]; intros cfp_ frame w; cbn [walk_loop].
  - simpl. lia.
  - destruct (walk_iteration e vo sz (cfp_, frame, w)) as [[[c' f'] w']|] eqn:E.
    + pose proof E as Hlog.
      apply walk_iteration_log in Hlog as (new & Ha & _ & _ & Hd & _).
      pose proof E as Hk. apply walk_iteration_keeps in Hk as [_ _ Hb _ _ _ _].
      intros Hle. rewrite <- Hb in Hle. rewrite (IH c' f' w' Hle).
      rewrite Ha, decoded_app, Hd, length_app. simpl. lia.
    + apply walk_iteration_none in E. simpl. lia.
Qed.

Lemma walk_ruby_stack_all_turns seen tail_ok w w' jumped :
  0 <= MAX_STACKS_PER_PROGRAM ->
  is_Some (lookup_offsets e (st_rb_version (global_state w))) ->
  walk_ruby_stack e tail_ok w = (w', jumped) ->
  cfp (global_state w') <= base_stack (global_state w') ->
  all_turns seen w -> all_turns seen w'.
Proof.
  intros Hm [vo0 Hvo0] Hw Hle Hall.
  apply walk_ruby_stack_inv in Hw
    as [(Hno & _) | (vo & cfp_ & frame & wl & _ & Hl & Hcase)]; [congruence|].
  pose proof (walk_loop_all_turns vo (wrap64 (control_frame_t_sizeof vo))
                (Z.to_nat MAX_STACKS_PER_PROGRAM) (cfp (global_state w))
                empty_frame (loop_start w)) as Hturns.
  pose proof (walk_loop_keeps e vo (wrap64 (control_frame_t_sizeof vo))
                (Z.to_nat MAX_STACKS_PER_PROGRAM) (cfp (global_state w))
                empty_frame (loop_start w)) as [_ _ _ Hc _ _ _].
  rewrite Hl in Hturns, Hc. cbn [fst snd] in Hturns, Hc.
  assert (Hcount : ruby_stack_program_count (global_state wl)
                   = ruby_stack_program_count (global_state w) + 1)
    by (rewrite Hc; reflexivity).
  assert (Hstart : decoded (actions (loop_start w)) = decoded (actions w)).
  { cbn [loop_start actions set_global_state note].
    rewrite decoded_app, app_nil_r. reflexivity. }
  rewrite Hstart in Hturns. unfold all_turns in *.
  assert (Hend : cfp_ <= base_stack (global_state w)
                 /\ decoded (actions w') = decoded (actions wl)
                 /\ ruby_stack_program_count (global_state w')
                    = ruby_stack_program_count (global_state wl)).
  { destruct Hcase as [(_ & -> & _) | (_ & -> & _)].
    - split; [exact Hle|]. split; reflexivity.
    - split; [exact Hle|]. split; [|reflexivity].
      cbn [published loop_end actions output set_global_state].
      rewrite decoded_app, app_nil_r. reflexivity. }
  destruct Hend as (Hle' & -> & ->).
  rewrite Hturns by exact Hle'. rewrite Hcount. lia.
Qed.

Lemma walk_chain_all_turns seen calls w :
  0 <= MAX_STACKS_PER_PROGRAM ->
  is_Some (lookup_offsets e (st_rb_version (global_state w))) ->
  all_turns seen w ->
  cfp (global_state (walk_chain e calls w))
  <= base_stack (global_state (walk_chain e calls w)) ->
  all_turns seen (walk_chain e calls w).
Proof.
  intros Hm Hsome Hall.
  apply (walk_chain_ind e
           (fun _ w1 => is_Some (lookup_offsets e (st_rb_version (global_state w1)))
                        /\ all_turns seen w1)
           (fun w1 => cfp (global_state w1) <= base_stack (global_state w1) ->
                      all_turns seen w1));
    [| |split; assumption].
  - intros n w1 w2 [Hv1 Ha1] Hw.
    pose proof (walk_ruby_stack_summary e _ _ _ _ Hw Hv1)
      as (Hv & _ & _ & _ & _ & _ & _ & Hj & _).
    cbv zeta in Hv, Hj. destruct (Hj eq_refl) as (_ & Hle & _).
    split; [rewrite Hv; exact Hv1|].
    eapply walk_ruby_stack_all_turns; eassumption.
  - intros n w1 w2 [Hv1 Ha1] Hw Hle.
    eapply walk_ruby_stack_all_turns; eassumption.
Qed.
End Budget.

(** X17. A sample that is published INCOMPLETE, with the tail calls let
    through, used up the budget: it decoded
    [MAX_STACKS_PER_PROGRAM * BPF_PROGRAMS_COUNT] control frames, no more
    and no fewer, and its [size] is that number, capped at
    [MAX_STACK]. *)
Theorem incomplete_sample_size {H : Header} e c w r :
  0 <= MAX_STACK -> 0 <= MAX_STACKS_PER_PROGRAM -> 1 <= BPF_PROGRAMS_COUNT ->
  programs e = true ->
  BPF_PROGRAMS_COUNT <= Z.of_nat (tail_call_limit e) ->
  events (sample e c w) = r :: events w ->
  stack_status r = STACK_INCOMPLETE ->
  Z.of_nat (length (decoded (actions_since w (sample e c w))))
  = MAX_STACKS_PER_PROGRAM * BPF_PROGRAMS_COUNT
  /\ size r = Z.min (MAX_STACKS_PER_PROGRAM * BPF_PROGRAMS_COUNT) MAX_STACK.
Proof.
  intros Hmax Hm Hbpc Hprog Hcalls Hev Hinc.
  destruct (sample_record e c w r Hev) as (-> & calls & w1 & Hlim & Hon).
  assert (Hs : sample e c w = walk_chain e calls w1).
  { unfold sample. rewrite Hlim, Hon. reflexivity. }
  destruct (sample_chain e c w w1 calls Hlim Hon) as (_ & Ha & _ & Hst & _).
  assert (Hle : cfp (global_state (sample e c w))
                <= base_stack (global_state (sample e c w))).
  { destruct (Z.le_gt_cases (cfp (global_state (sample e c w)))
                (base_stack (global_state (sample e c w)))) as [Hle|Hgt];
      [exact Hle|].
    assert (Hc : stack_status (stack (global_state (sample e c w))) = STACK_COMPLETE)
      by (apply Hst; lia).
    congruence. }
  pose proof Hon as Hon'.
  apply on_event_primed in Hon' as (Hsome & Hc0 & _ & _ & Ha1 & _).
  assert (Hall : all_turns (decoded (actions w)) w1).
  { unfold all_turns. rewrite Ha1, Hc0. lia. }
  apply (walk_chain_all_turns e _ calls w1 Hm Hsome) in Hall;
    [|rewrite <- Hs; exact Hle].
  rewrite <- Hs in Hall. unfold all_turns in Hall.
  assert (Hin : 0 <= ruby_stack_program_count (global_state w1)
                < BPF_PROGRAMS_COUNT) by lia.
  pose proof (walk_chain_budget e calls w1 Hsome Hin) as (_ & _ & _ & _ & Hfull).
  cbv zeta in Hfull. rewrite <- Hs in Hfull.
  assert (Hlimit : BPF_PROGRAMS_COUNT
                   <= ruby_stack_program_count (global_state w1) + 1
                      + Z.of_nat calls) by lia.
  rewrite (Hfull Hprog Hlimit Hle) in Hall.
  rewrite Ha, decoded_app, length_app in Hall.
  assert (Hn : Z.of_nat (length (decoded (actions_since w (sample e c w))))
               = MAX_STACKS_PER_PROGRAM * BPF_PROGRAMS_COUNT) by lia.
  split; [exact Hn|].
  destruct (on_event_primed e _ _ _ _ Hon) as ([vo Hvo] & _).
  destruct (sample_pace e c w w1 vo Hmax ltac:(congruence) Hon Hvo)
    as (n & Hd & _ & _ & Hsz).
  rewrite Hsz. rewrite Hd in Hn. unfold walked in Hn.
  rewrite length_fmap, length_seq in Hn. rewrite Hn. reflexivity.
Qed.

(** * The further properties at work on the concrete processes *)

(** The turn of the loop for a native control frame within the stack. *)
Lemma walk_iteration_native {H : Header} e vo sz cfp_ frame w :
  cfp_ <= base_stack (global_state w) ->
  rbperf_read (mem e) 8 (cfp_ + iseq_offset) = 0 ->
  walk_iteration e vo sz (cfp_, frame, w)
  = Some (wrap64 (cfp_ + sz), native_frame frame,
          record_frame e (native_frame frame) (note (ActNative cfp_) w)).
Proof.
  intros Hle Hz. unfold walk_iteration.
  destruct (cfp_ >? base_stack (global_state w)) eqn:E; [lia|].
  rewrite Hz. unfold decode_frame. rewrite Z.eqb_refl. reflexivity.
Qed.

(** The table [full_table] holds [max_entries] frames, all of them
    without a method name. *)
Lemma world_full_size :
  frame_map_entries <= Z.of_nat (base.size (stack_to_id world_full)).
Proof.
  change (stack_to_id world_full) with full_table.
  unfold full_table. rewrite map_size_list_to_map.
  - rewrite length_fmap, length_seq. unfold frame_map_entries. lia.
  - rewrite <- list_fmap_compose. apply NoDup_fmap_2; [|apply NoDup_seq].
    intros i j Heq. apply (f_equal lineno) in Heq. simpl in Heq. lia.
Qed.

Lemma world_full_misses frame :
  method_name frame <> repeat 0 50 -> stack_to_id world_full !! frame = None.
Proof.
  intros Hname. change (stack_to_id world_full) with full_table.
  unfold full_table. apply not_elem_of_list_to_map_1.
  rewrite <- list_fmap_compose. intros Hin.
  apply list_elem_of_fmap_1 in Hin as (i & Heq & _).
  apply Hname. rewrite Heq. reflexivity.
Qed.

(** The label of [foo] read into a method-name buffer. *)
Lemma read_ruby_string_terminated_witness :
  (1 <= length (repeat 0 50))%nat
  /\ length (@read_ruby_string rbperf_header mem_two (131072 + 768) (repeat 0 50))
     = length (repeat 0 50)
  /\ cstr (@read_ruby_string rbperf_header mem_two (131072 + 768) (repeat 0 50))
     = ascii_codes "foo".
Proof.
  assert (H1 : (1 <= length (repeat 0 50))%nat) by (rewrite repeat_length; lia).
  split; [exact H1|].
  split; [|vm_compute; reflexivity].
  exact (proj1 (@read_ruby_string_terminated rbperf_header mem_two
                  (131072 + 768) (repeat 0 50) H1)).
Defined.

(** The frame [foo] decoded over a zeroed record and over the record of
    [bar]. *)
Lemma read_frame_strings_independent_witness :
  @frame_path rbperf_header mem_two (131072 + 256) offsets0 <> None
  /\ cstr (method_name (@read_frame rbperf_header mem_two 8 (131072 + 256)
                          (@empty_frame rbperf_header) offsets0))
     = cstr (method_name (@read_frame rbperf_header mem_two 8 (131072 + 256)
                            frame_bar offsets0)).
Proof.
  assert (H1 : @frame_path rbperf_header mem_two (131072 + 256) offsets0 <> None)
    by (vm_compute; discriminate).
  split; [exact H1|].
  refine (proj1 (@read_frame_strings_independent rbperf_header mem_two 8
                   (131072 + 256) offsets0 (@empty_frame rbperf_header) frame_bar
                   H1 _ _)); vm_compute; reflexivity.
Defined.


(** Interning [foo] into the empty tables. *)
Lemma find_or_insert_frame_round_trip_witness :
  stack_to_id (find_or_insert_frame env_two frame_foo world0).2
    !! frame_foo
  = Some (find_or_insert_frame env_two frame_foo world0).1
  /\ id_to_stack (find_or_insert_frame env_two frame_foo world0).2
       !! (find_or_insert_frame env_two frame_foo world0).1
     = Some frame_foo.
Proof.
  apply (find_or_insert_frame_round_trip env_two frame_foo world0).
  - intros frame id Hl. vm_compute in Hl. discriminate.
  - vm_compute. reflexivity.
  - vm_compute. reflexivity.
Defined.

Lemma find_or_insert_frame_again_witness :
  (find_or_insert_frame env_two frame_foo
     (find_or_insert_frame env_two frame_foo world0).2).1
  = (find_or_insert_frame env_two frame_foo world0).1.
Proof.
  refine (proj1 (find_or_insert_frame_again env_two frame_foo
                   world0 _)).
  right. vm_compute. reflexivity.
Defined.

(** [foo] on the full table: two calls, two ids, the table as it was. *)
Lemma find_or_insert_frame_full_witness :
  stack_to_id world_full !! frame_foo = None
  /\ frame_map_entries <= Z.of_nat (base.size (stack_to_id world_full))
  /\ (find_or_insert_frame env_two frame_foo world_full).1 = 1000
  /\ (find_or_insert_frame env_two frame_foo
        (find_or_insert_frame env_two frame_foo world_full).2).1
     = 1001
  /\ (find_or_insert_frame env_two frame_foo
        (find_or_insert_frame env_two frame_foo world_full).2).1
     <> (find_or_insert_frame env_two frame_foo world_full).1.
Proof.
  assert (H1 : stack_to_id world_full !! frame_foo = None)
    by (apply world_full_misses; intros Heq; vm_compute in Heq; discriminate).
  pose proof world_full_size as H2.
  split; [exact H1|]. split; [exact H2|].
  destruct (find_or_insert_frame_full env_two frame_foo world_full
              H1 H2) as (Hfirst & _ & _ & Hsecond & Hdiffer).
  split; [exact Hfirst|]. split; [exact Hsecond|].
  apply Hdiffer. change (prandom_next world_full) with 0%nat.
  vm_compute. discriminate.
Defined.

(** Process 42 after its first event: the thread pointer and the version
    stay; with the guard switched off the whole entry stays. *)
Lemma registry_after_event_witness :
  (exists pd',
      pid_to_rb_thread (@sample rbperf_header env_two ctx0 world0) !! event_pid ctx0
      = Some pd'
      /\ rb_frame_addr pd' = rb_frame_addr process0
      /\ rb_version pd' = rb_version process0)
  /\ pid_to_rb_thread (@sample rbperf_header env_unguarded ctx0 world0)
       !! event_pid ctx0
     = Some process0.
Proof.
  assert (H1 : pid_to_rb_thread world0 !! event_pid ctx0 = Some process0)
    by (vm_compute; reflexivity).
  split.
  - destruct (@registry_after_event rbperf_header env_two ctx0 world0)
      as (_ & _ & Hsame).
    destruct (Hsame process0 H1) as (pd' & Hpd' & Ha & Hv & _).
    exists pd'. auto.
  - destruct (@registry_after_event rbperf_header env_unguarded ctx0 world0)
      as (_ & _ & Hsame).
    destruct (Hsame process0 H1) as (pd' & Hpd' & _ & _ & _ & Hoff).
    rewrite Hpd', (Hoff eq_refl). reflexivity.
Defined.

(** [foo], interned by an event of [mem_native], keeps its id over an
    event of [mem_two]. *)
Lemma sample_keeps_ids_witness :
  stack_to_id (@sample rbperf_header env_two ctx0
                 (@sample rbperf_header env_native ctx0 world0)) !! frame_foo
  = Some 1000.
Proof.
  apply (@sample_keeps_ids rbperf_header env_two ctx0
           (@sample rbperf_header env_native ctx0 world0) frame_foo 1000).
  vm_compute. reflexivity.
Defined.

(** The two control frames of [mem_two], 56 bytes apart. *)
Lemma sample_walks_in_order_witness :
  exists n,
    decoded (actions_since world0 (@sample rbperf_header env_two ctx0 world0))
    = walked (top0 - 56) 56 n
    /\ size (stack (global_state (@sample rbperf_header env_two ctx0 world0)))
       = Z.min (Z.of_nat n) 90.
Proof.
  destruct (@sample_walks_in_order rbperf_header env_two ctx0 world0
              (@on_event rbperf_header env_two true ctx0 world0).1 offsets0)
    as (n & Hd & _ & _ & _ & Hsz & _).
  - vm_compute. discriminate.
  - discriminate.
  - vm_compute. reflexivity.
  - vm_compute. reflexivity.
  - exists n. split; [exact Hd | exact Hsz].
Defined.

Lemma published_frames_witness :
  frames (stack (global_state (@sample rbperf_header env_two ctx0 world0)))
  = (interned (actions_since world0 (@sample rbperf_header env_two ctx0 world0))).*2
    ++ drop (length (interned (actions_since world0
                                 (@sample rbperf_header env_two ctx0 world0))))
         (frames (stack (global_state world0))).
Proof.
  refine (proj2 (@published_frames rbperf_header env_two ctx0 world0
                   (stack (global_state (@sample rbperf_header env_two ctx0 world0)))
                   _ _)); vm_compute; reflexivity.
Defined.

Lemma published_record_header_witness :
  timestamp (stack (global_state (@sample rbperf_header env_two ctx0 world0)))
  = 123456
  /\ pid (stack (global_state (@sample rbperf_header env_two ctx0 world0))) = 42.
Proof.
  destruct (@published_record_header rbperf_header env_two ctx0 world0
              (stack (global_state (@sample rbperf_header env_two ctx0 world0))))
    as (Ht & Hp & _); [vm_compute; reflexivity|].
  split; [exact Ht | exact Hp].
Defined.

(** The sample of [mem_two] is COMPLETE with the two frames expected. *)
Lemma complete_sample_size_witness :
  stack_status (stack (global_state (@sample rbperf_header env_two ctx0 world0)))
  = STACK_COMPLETE
  /\ size (stack (global_state (@sample rbperf_header env_two ctx0 world0)))
     = Z.min (expected_size
                (stack (global_state (@sample rbperf_header env_two ctx0 world0))))
         90.
Proof.
  assert (H9 : stack_status
                 (stack (global_state (@sample rbperf_header env_two ctx0 world0)))
               = STACK_COMPLETE) by (vm_compute; reflexivity).
  split; [exact H9|].
  refine (proj2 (@complete_sample_size rbperf_header env_two ctx0 world0
                   process0 process0_started offsets0
                   (stack (global_state (@sample rbperf_header env_two ctx0 world0)))
                   _ _ _ _ _ _ _ _ H9));
    vm_compute; first [reflexivity | discriminate].
Defined.

Lemma missing_walker_publishes_nothing_witness :
  events (@sample rbperf_header env_no_walker ctx0 world0) = events world0.
Proof.
  exact (proj1 (@missing_walker_publishes_nothing rbperf_header env_no_walker
                  ctx0 world0 eq_refl)).
Defined.

(** Process 42 sampled at start time 777, then an event of a task
    started at 999 on the same pid. *)
Lemma second_process_on_pid_is_ignored_witness :
  @sample rbperf_header env_two ctx_later (@sample rbperf_header env_two ctx0 world0)
  = @sample rbperf_header env_two ctx0 world0.
Proof.
  apply (@second_process_on_pid_is_ignored rbperf_header env_two ctx0 ctx_later
           world0 process0);
    first [ vm_compute; reflexivity | vm_compute; discriminate ].
Defined.

(** The native control frame of [mem_native], decoded over the record of
    [foo]. *)
Lemma loop_carries_current_frame_witness :
  cstr (method_name (@native_frame rbperf_header frame_foo))
  = ascii_codes "<native code>"
  /\ path (@native_frame rbperf_header frame_foo) = path frame_foo
  /\ lineno (@native_frame rbperf_header frame_foo) = lineno frame_foo.
Proof.
  assert (H1 : top0 <= base_stack (global_state
                                     (@on_event rbperf_header env_native true
                                        ctx0 world0).1))
    by (vm_compute; discriminate).
  assert (H2 : rbperf_read (mem env_native) 8 (top0 + @iseq_offset rbperf_header) = 0)
    by (vm_compute; reflexivity).
  apply (proj1 (@loop_carries_current_frame rbperf_header env_native offsets0 56
                  top0 frame_foo _ _ _ _
                  (@walk_iteration_native rbperf_header env_native offsets0 56
                     top0 frame_foo _ H1 H2))).
  - exact H2.
  - vm_compute. repeat constructor; discriminate.
Defined.

(** An event of the process whose version tag has no offsets: the start
    time is stored, nothing is published. *)
Lemma dropped_events_witness :
  pid_to_rb_thread (@sample rbperf_header env_two ctx0 world_unversioned) !! 42
  = Some {| rb_frame_addr := 4096; rb_version := 10; start_time := 777 |}
  /\ events (@sample rbperf_header env_two ctx0 world_unversioned) = [].
Proof.
  destruct (@dropped_events rbperf_header env_two ctx0 world_unversioned)
    as (_ & _ & Hunknown).
  rewrite (Hunknown {| rb_frame_addr := 4096; rb_version := 10; start_time := 0 |}
             {| rb_frame_addr := 4096; rb_version := 10; start_time := 777 |});
    first [ vm_compute; reflexivity | vm_compute; discriminate | idtac ].
  split; reflexivity.
Defined.

(** Six control frames under a budget of four: the sample of [mem_deep]
    is INCOMPLETE after four frames, one id stored. *)
Lemma incomplete_sample_size_witness :
  stack_status (stack (global_state (@sample small_header env_deep ctx0 world_small)))
  = STACK_INCOMPLETE
  /\ Z.of_nat (length (decoded (actions_since world_small
                                  (@sample small_header env_deep ctx0 world_small))))
     = 4
  /\ size (stack (global_state (@sample small_header env_deep ctx0 world_small))) = 1.
Proof.
  assert (H7 : stack_status
                 (stack (global_state (@sample small_header env_deep ctx0 world_small)))
               = STACK_INCOMPLETE) by (vm_compute; reflexivity).
  split; [exact H7|].
  refine (@incomplete_sample_size small_header env_deep ctx0 world_small
            (stack (global_state (@sample small_header env_deep ctx0 world_small)))
            _ _ _ _ _ _ H7);
    vm_compute; first [reflexivity | discriminate].
Defined.
